(** * rnacounter: cobbling of exons, transcript collapsing and the
      piece-by-transcript structure matrix

    A shallow embedding of [draft.py] (Python 2).  Objects live in an explicit
    store and are handled by reference, because [cobble] sorts, removes and
    deduplicates exons by identity and writes the boundaries of the pieces it
    creates.  Python [set]s and [dict]s iterate in hash order; that order is a
    parameter of the development (class [HashOrder]).  Numbers that the script
    forces to [float] are modelled by exact rationals ([Qc]); integers by [Z],
    whose [/] is the flooring division of Python 2. *)

From stdpp Require Import base tactics option list sorting numbers strings gmap.
From Stdlib Require Import ZArith QArith Qcanon Lia.

Local Open Scope Z_scope.

(** ** Exceptions and results *)

Inductive exn : Type :=
  | AssertionError (msg : string)
  | ValueError (msg : string)
  | TypeError (msg : string)
  | KeyError (key : string)
  | ZeroDivisionError.

Inductive result (A : Type) : Type :=
  | Ok (a : A)
  | Raise (e : exn).
Arguments Ok {A} a.
Arguments Raise {A} e.

Definition rbind {A B} (r : result A) (k : A → result B) : result B :=
  match r with
  | Ok a => k a
  | Raise e => Raise e
  end.

(** ** Iteration order of sets and dicts

    A Python [set] (or the key set of a [dict]) is represented by the list of
    its distinct elements in insertion order; iterating over it visits them in
    an order decided by the hashes, of which the script knows nothing. *)

Class HashOrder : Type := {
  hash_order : ∀ A : Type, list A → list A;
  hash_order_perm : ∀ (A : Type) (l : list A), hash_order A l ≡ₚ l
}.
Arguments hash_order {_ _} _.

(** Insertion order is one possible hash order. *)
Definition insertion_order : HashOrder :=
  {| hash_order := λ _ l, l; hash_order_perm := λ _ l, reflexivity l |}.

(** [dedup] keeps the first occurrence of every element: the content of
    [set(l)], in insertion order. *)
Fixpoint dedup `{EqDecision A} (l : list A) : list A :=
  match l with
  | [] => []
  | x :: l' => x :: filter (λ y, y ≠ x) (dedup l')
  end.

(** [list(set(l))] *)
Definition list_set `{HashOrder} `{EqDecision A} (l : list A) : list A :=
  hash_order (dedup l).

(** [sep.join(l)] *)
Fixpoint join (sep : string) (l : list string) : string :=
  match l with
  | [] => ""
  | [x] => x
  | x :: l' => x +:+ sep +:+ join sep l'
  end.

(** ** Genomic objects

    [Exon] is the only class the script instantiates.  Identifiers, names
    and chromosomes are the strings [parse_gtf] produces. *)

Record Exon : Type := mkExon {
  id_ : string;
  gene_id : string;
  gene_name : string;
  chrom : string;
  start : Z;
  end_ : Z;
  name : string;
  score : Qc;
  strand : Z;
  length_ : Z;
  multiplicity : Z;
  transcripts : list string
}.

Global Instance Exon_eq_dec : EqDecision Exon.
Proof. solve_decision. Defined.

(** [Exon(transcripts=tx, **args)]: [GenomicObject.__init__] stores the
    arguments, then [Exon.__init__] sets the transcripts and recomputes
    [length] from the boundaries it was given. *)
Definition Exon_init (tx : list string) (i gi gn c : string) (s e : Z)
    (n : string) (sc : Qc) (st m : Z) : Exon :=
  {| id_ := i; gene_id := gi; gene_name := gn; chrom := c; start := s;
     end_ := e; name := n; score := sc; strand := st; length_ := e - s;
     multiplicity := m; transcripts := tx |}.

(** Attribute assignments [e.start = v], [e.end = v], [e.transcripts = v]. *)
Definition set_start (v : Z) (e : Exon) : Exon :=
  mkExon (id_ e) (gene_id e) (gene_name e) (chrom e) v (end_ e) (name e)
         (score e) (strand e) (length_ e) (multiplicity e) (transcripts e).
Definition set_end (v : Z) (e : Exon) : Exon :=
  mkExon (id_ e) (gene_id e) (gene_name e) (chrom e) (start e) v (name e)
         (score e) (strand e) (length_ e) (multiplicity e) (transcripts e).
Definition set_transcripts (v : list string) (e : Exon) : Exon :=
  mkExon (id_ e) (gene_id e) (gene_name e) (chrom e) (start e) (end_ e)
         (name e) (score e) (strand e) (length_ e) (multiplicity e) v.

Section combine.
Context `{HashOrder}.

(** [set(a) | set(b)], as the sequence an iteration over it yields: the
    elements of [a], then those of [b] as [set(b)] yields them. *)
Definition set_union (a b : list string) : list string :=
  list_set (a ++ list_set b).

(** [GenomicObject.__and__]: the new object is built by [self.__class__]
    with the keyword arguments listed there; [start], [end], [score] keep
    their defaults (0) and the transcripts the default of [Exon.__init__]. *)
Definition GenomicObject_and (self other : Exon) : result Exon :=
  if decide (chrom self = chrom other) then
    Ok (Exon_init []
          (id_ self +:+ id_ other)
          (join "|" (list_set [gene_id self; gene_id other]))
          (join "|" (list_set [gene_name self; gene_name other]))
          (chrom self) 0 0
          (join "|" [name self; name other])
          0%Qc
          ((strand self + strand other) / 2)
          (multiplicity self + multiplicity other))
  else Raise (AssertionError "Cannot add features from different chromosomes").

(** [Exon.__and__] *)
Definition Exon_and (self other : Exon) : result Exon :=
  rbind (GenomicObject_and self other) (λ E,
    Ok (set_transcripts
          (set_union (transcripts self) (transcripts other)) E)).
End combine.

(** ** The object store

    A reference is the position of an object in the store; a new object is
    put at the end.  Python 2 compares two instances of a class without
    [__cmp__] by address and tests them for equality by identity, which is
    here the order and the equality of references. *)

Abbreviation ref := nat.
Abbreviation heap := (list Exon).

(** A computation reads and writes the store and returns or raises. *)
Definition M (A : Type) : Type := heap → heap * result A.

Definition ret {A} (a : A) : M A := λ h, (h, Ok a).
Definition raise {A} (e : exn) : M A := λ h, (h, Raise e).
Definition bind {A B} (m : M A) (k : A → M B) : M B :=
  λ h, match m h with
       | (h', Ok a) => k a h'
       | (h', Raise e) => (h', Raise e)
       end.
Definition lift {A} (r : result A) : M A := λ h, (h, r).

Notation "'let!' x ':=' m 'in' k" := (bind m (λ x, k))
  (at level 10, x pattern, m at level 100, k at level 200,
   format "'[v' 'let!'  x  ':='  m  'in'  '/' k ']'").

(** A reference outside the store has no Python counterpart; the model
    raises [TypeError] on it so that every function stays total. *)
Definition load (r : ref) : M Exon :=
  λ h, match h !! r with
       | Some e => (h, Ok e)
       | None => (h, Raise (TypeError "invalid reference"))
       end.

Definition alloc (e : Exon) : M ref := λ h, (h ++ [e], Ok (length h)).

(** [r.attr = v] *)
Definition setattr (r : ref) (f : Exon → Exon) : M unit :=
  λ h, match h !! r with
       | Some e => (<[r := f e]> h, Ok tt)
       | None => (h, Raise (TypeError "invalid reference"))
       end.

(** ** Cobbling *)

(** A boundary event [(position, kind, exon)]: kind 1 opens, kind 0 closes. *)
Definition Event : Type := Z * Z * ref.

Definition pos (a : Event) : Z := a.1.1.
Definition kind (a : Event) : Z := a.1.2.
Definition feat (a : Event) : ref := a.2.

(** The order of Python tuples: by position, then kind, then address. *)
Definition event_le (a b : Event) : Prop :=
  pos a < pos b ∨
  (pos a = pos b ∧ (kind a < kind b ∨
                    (kind a = kind b ∧ (feat a ≤ feat b)%nat))).

Global Instance event_le_dec : RelDecision event_le.
Proof. intros a b. unfold event_le. apply _. Defined.

(** [list.remove(x)]: drops the first element equal to [x]. *)
Fixpoint list_remove (x : ref) (l : list ref) : result (list ref) :=
  match l with
  | [] => Raise (ValueError "list.remove(x): x not in list")
  | y :: l' =>
      if decide (y = x) then Ok l'
      else rbind (list_remove x l') (λ r, Ok (y :: r))
  end.

(** The update of [active_exons] at the head of the loop body. *)
Definition activate (a : Event) (active : list ref) : result (list ref) :=
  if decide (kind a = 1) then Ok (active ++ [feat a])
  else if decide (kind a = 0) then list_remove (feat a) active
  else Ok active.

Section cobble.
Context `{HashOrder}.

(** [x & y] on references: the merged object is a new one. *)
Definition and_ref (x y : ref) : M ref :=
  let! ex := load x in
  let! ey := load y in
  let! E := lift (Exon_and ex ey) in
  alloc E.

(** [reduce(lambda x,y: x&y, feats)] from its first element on. *)
Fixpoint reduce_and (acc : ref) (feats : list ref) : M ref :=
  match feats with
  | [] => ret acc
  | y :: feats' => (let! z := and_ref acc y in reduce_and z feats')
  end.

(** [copy.deepcopy(r)] *)
Definition deepcopy (r : ref) : M ref :=
  let! e := load r in alloc e.

Definition intersect_exons_list (feats : list ref) (multiple : bool) : M ref :=
  let feats := if multiple then feats else list_set feats in
  match feats with
  | [x] => deepcopy x
  | [] => raise (TypeError "reduce() of empty sequence with no initial value")
  | x :: feats' => reduce_and x feats'
  end.

(** [[(e.start,1,e) for e in exons] + [(e.end,0,e) for e in exons]] *)
Fixpoint starts (exons : list ref) : M (list Event) :=
  match exons with
  | [] => ret []
  | r :: exons' =>
      (let! e := load r in
       let! evs := starts exons' in
       ret ((start e, 1, r) :: evs))
  end.
Fixpoint stops (exons : list ref) : M (list Event) :=
  match exons with
  | [] => ret []
  | r :: exons' =>
      (let! e := load r in
       let! evs := stops exons' in
       ret ((end_ e, 0, r) :: evs))
  end.

(** The loop over [xrange(len(ends)-1)]: [a] is the event visited, [b] the
    next one; the last event is never visited. *)
Fixpoint cobble_loop (active : list ref) (ends : list Event) : M (list ref) :=
  match ends with
  | [] => ret []
  | a :: rest =>
      match rest with
      | [] => ret []
      | b :: _ =>
          let! active' := lift (activate a active) in
          if decide (length active' = 0%nat) then cobble_loop active' rest
          else if decide (pos a = pos b) then cobble_loop active' rest
          else
            let! e := intersect_exons_list active' false in
            let! _ := setattr e (set_start (pos a)) in
            let! _ := setattr e (set_end (pos b)) in
            let! cobbled := cobble_loop active' rest in
            ret (e :: cobbled)
      end
  end.

(** [cobble(exons, multiple)]; the flag is not passed on. *)
Definition cobble (exons : list ref) (multiple : bool) : M (list ref) :=
  let! s := starts exons in
  let! e := stops exons in
  cobble_loop [] (merge_sort event_le (s ++ e)).
End cobble.

(** *** The loop, split for the proofs

    [spans] is the loop without the store: the boundaries and the active
    exons of every piece the loop emits.  [emit] is what the loop does with
    each of them.  [cobble_loop_spans] relates the two to [cobble_loop]. *)

Definition Span : Type := Z * Z * list ref.

Fixpoint spans (active : list ref) (ends : list Event) : result (list Span) :=
  match ends with
  | [] => Ok []
  | a :: rest =>
      match rest with
      | [] => Ok []
      | b :: _ =>
          rbind (activate a active) (λ active',
            if decide (length active' = 0%nat) then spans active' rest
            else if decide (pos a = pos b) then spans active' rest
            else rbind (spans active' rest)
                       (λ sp, Ok ((pos a, pos b, active') :: sp)))
      end
  end.

Section emit.
Context `{HashOrder}.

Definition emit (s : Span) : M ref :=
  let! e := intersect_exons_list s.2 false in
  let! _ := setattr e (set_start s.1.1) in
  let! _ := setattr e (set_end s.1.2) in
  ret e.

Fixpoint emit_all (sp : list Span) : M (list ref) :=
  match sp with
  | [] => ret []
  | s :: sp' =>
      (let! e := emit s in
       let! cobbled := emit_all sp' in
       ret (e :: cobbled))
  end.
End emit.

(** The events of a list of exons whose boundaries are given by [st] and
    [en], and the order in which exons enter the active list. *)
Definition events (st en : ref → Z) (exons : list ref) : list Event :=
  ((λ r, (st r, 1, r)) <$> exons) ++ ((λ r, (en r, 0, r)) <$> exons).

Definition ref_le (st : ref → Z) (r1 r2 : ref) : Prop :=
  st r1 < st r2 ∨ (st r1 = st r2 ∧ (r1 ≤ r2)%nat).

(** Number of occurrences. *)
Definition count_of `{EqDecision A} (x : A) (l : list A) : nat :=
  length (filter (λ y, y = x) l).

(** What holds of every span the loop emits over the sorted events of
    [exons]: its active list is not empty and in the order of entry, it
    holds the exons that span it, and no boundary falls inside it. *)
Definition span_ok (st en : ref → Z) (exons : list ref) (s : Span) : Prop :=
  s.1.1 < s.1.2 ∧ s.2 ≠ [] ∧ StronglySorted (ref_le st) s.2 ∧
  (∀ r, r ∈ s.2 ↔ r ∈ exons ∧ st r ≤ s.1.1 ∧ s.1.2 ≤ en r) ∧
  (∀ r, r ∈ exons → ¬ (s.1.1 < st r < s.1.2) ∧ ¬ (s.1.1 < en r < s.1.2)).

(** The state of the loop after the events [pre]: an exon is active as
    many times as it was opened and not yet closed, and the active list is
    in the order of entry. *)
Definition sweep_inv (st en : ref → Z) (pre : list Event) (active : list ref)
    : Prop :=
  (∀ r, count_of (st r, 1, r) pre =
        (count_of r active + count_of (en r, 0%Z, r) pre)%nat) ∧
  StronglySorted (ref_le st) active.

(** Spans in increasing order from [lo] on, none reaching into the next. *)
Fixpoint chain (lo : Z) (sp : list Span) : Prop :=
  match sp with
  | [] => True
  | s :: sp' => lo ≤ s.1.1 ∧ s.1.1 < s.1.2 ∧ chain s.1.2 sp'
  end.

(** Reading the store. *)
Definition start_of (h : heap) (r : ref) : Z := from_option start 0 (h !! r).
Definition end_of (h : heap) (r : ref) : Z := from_option end_ 0 (h !! r).
Definition transcripts_of (h : heap) (r : ref) : list string :=
  from_option transcripts [] (h !! r).

(** [x] lies in the half-open interval of the object [r] refers to. *)
Definition covers (h : heap) (r : ref) (x : Z) : Prop :=
  start_of h r ≤ x < end_of h r.

(** The exons are objects of the store, of positive length. *)
Definition valid_exons (h : heap) (exons : list ref) : Prop :=
  ∀ r, r ∈ exons → ∃ e, h !! r = Some e ∧ start e < end_ e.

Definition same_chrom (h : heap) (exons : list ref) : Prop :=
  ∃ c, ∀ r e, r ∈ exons → h !! r = Some e → chrom e = c.

(** [t] is a transcript of one of the objects [feats] refer to. *)
Definition tx_union (h : heap) (feats : list ref) (t : string) : Prop :=
  ∃ r, r ∈ feats ∧ t ∈ transcripts_of h r.

(** The piece [p] of the store [h'] is what [emit] makes of the span [s] in
    a store that extends [h]. *)
Definition piece_of (h h' : heap) (p : ref) (s : Span) : Prop :=
  ∃ obj, h' !! p = Some obj ∧ start obj = s.1.1 ∧ end_ obj = s.1.2 ∧
         ∀ t, t ∈ transcripts obj ↔ tx_union h s.2 t.

(** Pieces in increasing order, none reaching into the next. *)
Fixpoint ordered_disjoint (h : heap) (pieces : list ref) : Prop :=
  match pieces with
  | [] => True
  | p :: pieces' =>
      start_of h p < end_of h p ∧
      Forall (λ q, end_of h p ≤ start_of h q ∧ start_of h p < start_of h q) pieces' ∧
      ordered_disjoint h pieces'
  end.

(** Scenario A of the specification: [E1 = [0,100)] on [T1] and
    [E2 = [50,150)] on [T2]. *)
Definition exon_at (i : string) (s e : Z) (tx : list string) : Exon :=
  Exon_init tx i "G" "Gapdh" "chr6" s e i 0%Qc 1 1.

Definition scenario_A : heap :=
  [exon_at "E1" 0 100 ["T1"]; exon_at "E2" 50 150 ["T2"]].

(** ** Counting reads *)

Record Alignment : Type := mkAlignment {
  tags : list (string * Z);
  is_reverse : bool
}.

Module Counter.
(** [count_fct] is [count_stranded] when [stranded] holds, else [count]. *)
Record t : Type := mk {
  n : Qc;
  n_raw : Z;
  n_ws : Qc;
  strand : Z;
  stranded : bool
}.

(** [Counter.__init__] *)
Definition init (stranded : bool) : t := mk 0%Qc 0 0%Qc 0 stranded.

(** [[1.0/t[1] for t in alignment.tags if t[0]=='NH']] *)
Fixpoint NH_weights (tags : list (string * Z)) : result (list Qc) :=
  match tags with
  | [] => Ok []
  | (k, v) :: tags' =>
      if decide (k = "NH") then
        if decide (v = 0) then Raise ZeroDivisionError
        else rbind (NH_weights tags')
                   (λ ws, Ok ((1 / Q2Qc (inject_Z v))%Qc :: ws))
      else NH_weights tags'
  end.

(** [NH[0]] of [NH = [...]+[1]] *)
Definition NH0 (a : Alignment) : result Qc :=
  rbind (NH_weights (tags a)) (λ ws, Ok (List.hd 1%Qc (ws ++ [1%Qc]))).

Definition count (self : t) (a : Alignment) : result t :=
  rbind (NH0 a) (λ w,
    Ok (mk (n self + w)%Qc (n_raw self + 1) (n_ws self) (strand self)
           (stranded self))).

Definition count_stranded (self : t) (a : Alignment) : result t :=
  rbind (NH0 a) (λ w,
    if (bool_decide (strand self = 1) && bool_decide (is_reverse a = false))
       || (bool_decide (strand self = -1) && bool_decide (is_reverse a = true))
    then Ok (mk (n self + w)%Qc (n_raw self) (n_ws self) (strand self)
                (stranded self))
    else Ok (mk (n self) (n_raw self) (n_ws self + w)%Qc (strand self)
                (stranded self))).

(** [Counter.__call__] *)
Definition call (self : t) (a : Alignment) : result t :=
  if stranded self then count_stranded self a else count self a.
End Counter.

(** ** Collapsing transcripts and building the structure matrix
    ([process_chunk], from the pieces [cobble] returned) *)

(** [d.setdefault(k,[]).append(v)] *)
Definition setdefault_append `{Countable K} {V} (k : K) (v : V)
    (d : gmap K (list V)) : gmap K (list V) :=
  <[k := default [] (d !! k) ++ [v]]> d.

(** The order of Python byte strings. *)
Definition str_le (a b : string) : Prop := String.leb a b = true.

Global Instance str_le_dec : RelDecision str_le.
Proof. intros a b. unfold str_le. apply _. Defined.

(** [sorted(e)] *)
Definition sorted (e : list string) : list string := merge_sort str_le e.

Fixpoint rmap {A B} (f : A → result B) (l : list A) : result (list B) :=
  match l with
  | [] => Ok []
  | x :: l' => rbind (f x) (λ y, rbind (rmap f l') (λ ys, Ok (y :: ys)))
  end.

Section process_chunk.
Context `{HashOrder}.

(** [t2e]: transcript to the identifiers of its pieces, the pieces of
    [length] under 100 left out. *)
Definition t2e_add (t2e : gmap string (list string)) (p : Exon)
    : gmap string (list string) :=
  if bool_decide (length_ p < 100) then t2e
  else foldl (λ d t, setdefault_append t (id_ p) d) t2e (transcripts p).

Definition build_t2e (pieces : list Exon) : gmap string (list string) :=
  foldl t2e_add ∅ pieces.

(** [t2e.iteritems()], [e2t.values()] *)
Definition iteritems `{Countable K} {V} (d : gmap K V) : list (K * V) :=
  hash_order (map_to_list d).

(** [e2t]: sorted combination of piece identifiers to the transcripts that
    have it. *)
Definition build_e2t (t2e : gmap string (list string))
    : gmap (list string) (list string) :=
  foldl (λ d te, setdefault_append (sorted te.2) te.1 d) ∅ (iteritems t2e).

(** The pairs [(badt, tlist[0])] for [badt] in [tlist[1:]]. *)
Definition bad_pairs (tlist : list string) : list (string * string) :=
  match tlist with
  | [] => []
  | t0 :: bad => (λ badt, (badt, t0)) <$> bad
  end.

(** [dict(pairs)]: a later pair replaces an earlier one with its key. *)
Definition dict_of_pairs (pairs : list (string * string)) : gmap string string :=
  foldl (λ d kv, <[kv.1 := kv.2]> d) ∅ pairs.

Definition build_tx_replace (e2t : gmap (list string) (list string))
    : gmap string string :=
  dict_of_pairs (concat (bad_pairs <$> (snd <$> iteritems e2t))).

(** [set([tx_replace.get(t,t) for t in p.transcripts])], as iterated. *)
Definition filtered (tx_replace : gmap string string) (p : Exon) : list string :=
  list_set ((λ t, default t (tx_replace !! t)) <$> transcripts p).

(** The loop that rewrites the pieces; [acc] holds the set [transcripts]. *)
Fixpoint rewrite_pieces (tx_replace : gmap string string) (acc : list string)
    (pieces : list Exon) : list Exon * list string :=
  match pieces with
  | [] => ([], acc)
  | p :: pieces' =>
      let f := filtered tx_replace p in
      let '(ps, acc') := rewrite_pieces tx_replace (dedup (acc ++ f)) pieces' in
      (set_transcripts f p :: ps, acc')
  end.

(** Lines 202 to 218: the rewritten pieces and the list [transcripts]. *)
Definition tx_replace_of (pieces : list Exon) : gmap string string :=
  build_tx_replace (build_e2t (build_t2e pieces)).

Definition collapse (pieces : list Exon) : list Exon * list string :=
  let '(ps, acc) := rewrite_pieces (tx_replace_of pieces) [] pieces in
  (ps, hash_order acc).

(** [tp_map]: transcript to the names of the pieces that hold it. *)
Definition build_tp_map (pieces : list Exon) : gmap string (list string) :=
  foldl (λ d p, foldl (λ d tx, setdefault_append tx (name p) d) d (transcripts p))
        ∅ pieces.

(** [float(t in p.transcripts)/len(tp_map[t])] *)
Definition Aval (tp_map : gmap string (list string)) (p : Exon) (t : string)
    : result Qc :=
  match tp_map !! t with
  | None => Raise (KeyError t)
  | Some l =>
      if decide (length l = 0%nat) then Raise ZeroDivisionError
      else Ok ((if bool_decide (t ∈ transcripts p) then 1 else 0)
               / Q2Qc (inject_Z (Z.of_nat (length l))))%Qc
  end.

Definition Avals (pieces : list Exon) (transcripts : list string)
    : result (list (list Qc)) :=
  let tp_map := build_tp_map pieces in
  rmap (λ p, rmap (Aval tp_map p) transcripts) pieces.

(** The matrix of a chunk, from the pieces of [cobble]. *)
Definition structure_matrix (pieces : list Exon)
    : result (list Exon * list string * list (list Qc)) :=
  let '(ps, txs) := collapse pieces in
  rbind (Avals ps txs) (λ A, Ok (ps, txs, A)).
End process_chunk.

(** *** Reading the matrix *)

(** A natural number as a rational. *)
Definition natQc (n : nat) : Qc := Q2Qc (inject_Z (Z.of_nat n)).

Definition sumQc (l : list Qc) : Qc := foldr Qcplus 0%Qc l.

(** Column [j] of a matrix given by its rows. *)
Definition column (A : list (list Qc)) (j : nat) : list Qc :=
  (λ row, default 0%Qc (row !! j)) <$> A.

(** The number of pieces, of any length, that hold the transcript [t]. *)
Definition pieces_with (t : string) (pieces : list Exon) : nat :=
  length (filter (λ p, t ∈ transcripts p) pieces).

(** The number of retained pieces of [t] in the words of the specification:
    the pieces of length at least 100 that hold [t]. *)
Definition retained_with (t : string) (pieces : list Exon) : nat :=
  length (filter (λ p, 100 ≤ length_ p ∧ t ∈ transcripts p) pieces).

(** The pairs a loop appends to a dict, in the order it meets them:
    [tp_map] takes a pair for every transcript of every piece, [t2e] only
    those of the pieces of [length] 100 or more. *)
Definition tp_pairs (pieces : list Exon) : list (string * string) :=
  pieces ≫= λ p, (λ tx, (tx, name p)) <$> transcripts p.

Definition t2e_pairs (pieces : list Exon) : list (string * string) :=
  pieces ≫= λ p, if bool_decide (length_ p < 100) then []
                 else (λ t, (t, id_ p)) <$> transcripts p.

(** The entry of the matrix for the piece [p] and the transcript [t]. *)
Definition entry (pieces : list Exon) (p : Exon) (t : string) : Qc :=
  ((if bool_decide (t ∈ transcripts p) then 1 else 0)
   / natQc (pieces_with t pieces))%Qc.

(** Two pieces of the transcript [T1], as [cobble] returns them for two
    exons apart: one of 150 bases and one of 40. *)
Definition two_pieces : list Exon :=
  [exon_at "E1" 0 150 ["T1"]; exon_at "E2" 200 240 ["T1"]].

(** ** The reads of a region *)

(** [sam.fetch(..., callback=counter)]: the counter is called on the reads
    of the region one after the other; an exception ends the visit. *)
Fixpoint visit (c : Counter.t) (reads : list Alignment) : result Counter.t :=
  match reads with
  | [] => Ok c
  | a :: reads' => rbind (Counter.call c a) (λ c', visit c' reads')
  end.

(** The values of the [NH] tags of a read, and the weight the first of them
    gives it: the read counts for 1 when it has none. *)
Definition NH_values (a : Alignment) : list Z :=
  snd <$> filter (λ t, t.1 = "NH") (tags a).

Definition weight (a : Alignment) : Qc :=
  match NH_values a with
  | [] => 1%Qc
  | v :: _ => (1 / Q2Qc (inject_Z v))%Qc
  end.

(** A reverse read mapped twice, with a second [NH] tag that is not read. *)
Definition read_NH2 : Alignment :=
  mkAlignment [("XS", 3); ("NH", 2); ("NH", 5)] true.

(** ** The signature of a transcript *)

(** The value of [t2e[t]]: the identifiers of the pieces of [length] 100 or
    more that hold the transcript [t], in the order of the pieces, one for
    every time a piece lists [t]. *)
Definition retained_ids (t : string) (pieces : list Exon) : list string :=
  snd <$> filter (λ x : string * string, x.1 = t) (t2e_pairs pieces).

(** A piece of 150 bases held by [T1] and [T2] and one of 40 held by [T2]
    and [T3]: on the pieces of length 100 or more, [T1] and [T2] are alike. *)
Definition shared_pieces : list Exon :=
  [exon_at "E1" 0 150 ["T1"; "T2"]; exon_at "E2" 200 240 ["T2"; "T3"]].

(** ** Shapes of the pieces of [cobble] *)

(** A piece merged by [&] has the [length] and the [score] that
    [GenomicObject.__and__] leaves at their defaults. *)
Definition merged (obj : Exon) : Prop := length_ obj = 0 ∧ score obj = 0%Qc.

(** A piece copied from the exon [e] has its attributes, the boundaries
    apart. *)
Definition copy_of (e obj : Exon) : Prop :=
  obj = set_end (end_ obj) (set_start (start obj) e).

(** An exon without bases. *)
Definition empty_exon : heap := [exon_at "E0" 10 10 ["T0"]].

(** What [emit] makes of a span, as to the attributes other than the
    transcripts: the copy of the one exon active in it, or a merged object
    when there are several. *)
Definition piece_shape (h h' : heap) (p : ref) (s : Span) : Prop :=
  ∃ obj, h' !! p = Some obj ∧ start obj = s.1.1 ∧ end_ obj = s.1.2 ∧
         match dedup s.2 with
         | [r] => ∃ e, h !! r = Some e ∧ copy_of e obj
         | _ => merged obj
         end.

(** The exon [r] spans the object [obj]. *)
Definition spans_piece (h : heap) (r : ref) (obj : Exon) : Prop :=
  start_of h r ≤ start obj ∧ end_ obj ≤ end_of h r.

(** The store after [cobble] ran on the two exons of scenario A: their
    three pieces follow them. *)
Definition scenario_A_cobbled : heap :=
  scenario_A ++
  [set_end 50 (exon_at "E1" 0 100 ["T1"]);
   set_transcripts ["T1"; "T2"]
     (set_end 100 (set_start 50
        (Exon_init [] "E1E2" "G" "Gapdh" "chr6" 0 0 "E1|E2" 0%Qc 1 2)));
   set_start 100 (exon_at "E2" 50 150 ["T2"])].

(** ** Read density of the pieces ([process_chunk], lines 244 to 253) *)

(** Attribute assignments [p.length = v] and [p.score = v]. *)
Definition set_length (v : Z) (e : Exon) : Exon :=
  mkExon (id_ e) (gene_id e) (gene_name e) (chrom e) (start e) (end_ e)
         (name e) (score e) (strand e) v (multiplicity e) (transcripts e).
Definition set_score (v : Qc) (e : Exon) : Exon :=
  mkExon (id_ e) (gene_id e) (gene_name e) (chrom e) (start e) (end_ e)
         (name e) v (strand e) (length_ e) (multiplicity e) (transcripts e).

(** An integer as a float. *)
Definition ZQc (z : Z) : Qc := Q2Qc (inject_Z z).

Section density.
(** [sam.fetch(chrom, start, end)]: the reads the alignment file holds for a
    region. *)
Variable fetch : string → Z → Z → list Alignment.

(** One turn of the loop over the pieces, with the counter [pcounter] that
    all the turns share.  The dict [tp_map] filled at the end of the turn is
    not read afterwards and is left out. *)
Definition score_piece (chrom : string) (pcounter : Counter.t) (p : Exon)
    : result (Exon * Counter.t) :=
  let p := set_length (end_ p - start p) p in
  rbind (visit pcounter (fetch chrom (start p) (end_ p))) (λ pcounter,
    if decide (length_ p = 0) then Raise ZeroDivisionError
    else
      Ok (set_score (ZQc (1000 * Counter.n_raw pcounter) / ZQc (length_ p))%Qc p,
          Counter.mk (Counter.n pcounter) 0 (Counter.n_ws pcounter)
            (Counter.strand pcounter) (Counter.stranded pcounter))).

Fixpoint score_pieces (chrom : string) (pcounter : Counter.t)
    (pieces : list Exon) : result (list Exon * Counter.t) :=
  match pieces with
  | [] => Ok ([], pcounter)
  | p :: pieces' =>
      rbind (score_piece chrom pcounter p) (λ '(p', pcounter'),
        rbind (score_pieces chrom pcounter' pieces') (λ '(ps, pcounter''),
          Ok (p' :: ps, pcounter'')))
  end.

(** The reads of the region of a piece, and the piece with its length and
    its density of reads: a thousand times their number over its length. *)
Definition reads_of (chrom : string) (p : Exon) : list Alignment :=
  fetch chrom (start p) (end_ p).

Definition density (chrom : string) (p : Exon) : Exon :=
  set_score (ZQc (1000 * Z.of_nat (length (reads_of chrom p)))
             / ZQc (end_ p - start p))%Qc
    (set_length (end_ p - start p) p).

(** A piece the loop cannot score: it has no base, or a read of its region
    has an [NH] tag 0. *)
Definition unscorable (chrom : string) (p : Exon) : Prop :=
  start p = end_ p ∨ Exists (λ a, ("NH", 0) ∈ tags a) (reads_of chrom p).
End density.

(** ** Chunks of exons ([rnacount], lines 276 to 299) *)

(** The exons kept for a chromosome: those of more than one base. *)
Definition long_exons (exons : list Exon) : list Exon :=
  filter (λ e, end_ e - start e > 1) exons.

(** The order of the keys [(x.start, x.end)]. *)
Definition key_le (a b : Exon) : Prop :=
  start a < start b ∨ (start a = start b ∧ end_ a ≤ end_ b).

Global Instance key_le_dec : RelDecision key_le.
Proof. intros a b. unfold key_le. apply _. Defined.

(** [chrexons.sort(key=lambda x: (x.start,x.end))].  The sort of Python is
    stable: exons of equal keys keep their order.  An exon is put before
    the exons that followed it and have a key not below its own. *)
Fixpoint insert_by_key (x : Exon) (l : list Exon) : list Exon :=
  match l with
  | [] => [x]
  | y :: l' => if decide (key_le x y) then x :: l else y :: insert_by_key x l'
  end.

Definition sort_by_key (l : list Exon) : list Exon := foldr insert_by_key [] l.

(** The loop over the sorted exons of a chromosome.  The calls
    [process_chunk(ckexons, sam, chrom, lastend)] it makes are listed in
    order, each as the chunk and the [lastend] it is given, the last call
    being the one after the loop; this is the course of the loop when every
    call returns. *)
Fixpoint chunk_loop (lastend : Z) (lastgeneid : string) (ckexons : list Exon)
    (chrexons : list Exon) : list (list Exon * Z) :=
  match chrexons with
  | [] => [(ckexons, lastend)]
  | exon :: rest =>
      if decide (start exon ≤ lastend ∨ gene_id exon = lastgeneid)
      then chunk_loop (Z.max (end_ exon) lastend) (gene_id exon)
             (ckexons ++ [exon]) rest
      else (ckexons, lastend)
           :: chunk_loop (Z.max (end_ exon) lastend) (gene_id exon) [exon] rest
  end.

(** From [lastend = chrexons[0].end] on; [None] stands for the [IndexError]
    of that line when there is no exon. *)
Definition chunks (chrexons : list Exon) : option (list (list Exon * Z)) :=
  match chrexons with
  | [] => None
  | exon0 :: _ => Some (chunk_loop (end_ exon0) "" [] chrexons)
  end.

(** No exon of the second chunk starts at or before the [lastend] of the
    first. *)
Definition chunk_before (c1 c2 : list Exon * Z) : Prop :=
  Forall (λ e, c1.2 < start e) c2.1.

(** Four exons of two genes, the last one short. *)
Definition four_exons : list Exon :=
  [Exon_init ["T2"] "E3" "G2" "B" "chr6" 300 400 "E3" 0%Qc 1 1;
   Exon_init ["T1"] "E1" "G1" "A" "chr6" 0 100 "E1" 0%Qc 1 1;
   Exon_init ["T2"] "E4" "G2" "B" "chr6" 500 501 "E4" 0%Qc 1 1;
   Exon_init ["T1"] "E2" "G1" "A" "chr6" 50 150 "E2" 0%Qc 1 1].

(** ** Regrouping the occurrences of an exon ([process_chunk],
    lines 175 to 181) *)

(** What the loop raises: an exception of those above, or the [IndexError]
    of [g.transcripts[0]]. *)
Inductive raised : Type :=
  | Exn (e : exn)
  | IndexError (msg : string).

(** [itertools.groupby(l, key)]: the runs of elements of equal key, each
    as its key, its first element and the elements that follow it. *)
Fixpoint groupby {A} (key : A → string) (l : list A)
    : list (string * A * list A) :=
  match l with
  | [] => []
  | x :: l' =>
      match groupby key l' with
      | (k, y, others) :: groups =>
          if decide (key x = k) then (k, x, y :: others) :: groups
          else (key x, x, []) :: (k, y, others) :: groups
      | [] => [(key x, x, [])]
      end
  end.

(** The [id] of an object of the store; the loop does not change it. *)
Definition id_of (h : heap) (r : ref) : string := from_option id_ "" (h !! r).

(** [exon0.transcripts.append(t)] *)
Definition append_transcript (t : string) (e : Exon) : Exon :=
  set_transcripts (transcripts e ++ [t]) e.

(** [for g in group: exon0.transcripts.append(g.transcripts[0])] *)
Fixpoint append_first (exon0 : ref) (group : list ref) (h : heap)
    : heap * (raised + unit) :=
  match group with
  | [] => (h, inr tt)
  | g :: group' =>
      match h !! g with
      | None => (h, inl (Exn (TypeError "invalid reference")))
      | Some eg =>
          match transcripts eg with
          | [] => (h, inl (IndexError "list index out of range"))
          | t :: _ =>
              match h !! exon0 with
              | None => (h, inl (Exn (TypeError "invalid reference")))
              | Some e0 =>
                  append_first exon0 group' (<[exon0 := append_transcript t e0]> h)
              end
          end
      end
  end.

(** The loop over the groups; it returns the list [exons]. *)
Fixpoint regroup_groups (groups : list (string * ref * list ref)) (h : heap)
    : heap * (raised + list ref) :=
  match groups with
  | [] => (h, inr [])
  | (_, exon0, others) :: groups' =>
      match append_first exon0 others h with
      | (h1, inl e) => (h1, inl e)
      | (h1, inr _) =>
          match regroup_groups groups' h1 with
          | (h2, inl e) => (h2, inl e)
          | (h2, inr exons) => (h2, inr (exon0 :: exons))
          end
      end
  end.

(** The keys are read from the store as it is when the loop starts, which
    requires the exons to be objects of the store. *)
Definition regroup (ckexons : list ref) (h : heap) : heap * (raised + list ref) :=
  if decide (Forall (λ r, is_Some (h !! r)) ckexons)
  then regroup_groups (groupby (id_of h) ckexons) h
  else (h, inl (Exn (TypeError "invalid reference"))).

(** The exon [E1] read twice, for [T1] and for [T2], then [E2] for [T1]. *)
Definition gtf_rows : heap :=
  [exon_at "E1" 0 100 ["T1"]; exon_at "E1" 0 100 ["T2"];
   exon_at "E2" 200 300 ["T1"]].

(** The elements of a group, and the first elements of the groups. *)
Definition members {A} (g : string * A * list A) : list A := g.1.2 :: g.2.
Definition heads {A} (groups : list (string * A * list A)) : list A :=
  (λ g, g.1.2) <$> groups.

(** No two neighbours of the list are equal. *)
Fixpoint no_repeat (l : list string) : Prop :=
  match l with
  | [] => True
  | x :: l' => match l' with [] => True | y :: _ => x ≠ y end ∧ no_repeat l'
  end.

(** The object [e'] is [e] with transcripts appended, or [e] itself. *)
Definition grown (e e' : Exon) : Prop :=
  e' = set_transcripts (transcripts e') e ∧
  transcripts e `prefix_of` transcripts e'.

(** ** Exons of different chromosomes *)

(** The chromosome of an object of the store. *)
Definition chrom_of (h : heap) (r : ref) : string := from_option chrom "" (h !! r).

(** Two overlapping exons, one on chromosome 6 and one on chromosome 7. *)
Definition two_chromosomes : heap :=
  [exon_at "E1" 0 100 ["T1"];
   Exon_init ["T2"] "E2" "G" "Gapdh" "chr7" 50 150 "E2" 0%Qc 1 1].

(** ** [cobble] and the set of the exons *)

(** An interval that ends where another starts, or before. *)
Definition before (x y : Z * Z) : Prop := x.2 ≤ y.1.

(** A position where one of the exons starts or ends. *)
Definition boundary (st en : ref → Z) (exons : list ref) (x : Z) : Prop :=
  ∃ r, r ∈ exons ∧ (x = st r ∨ x = en r).

(** A gap between two neighbouring boundaries that an exon spans. *)
Definition spanned_gap (st en : ref → Z) (exons : list ref) (ab : Z * Z) : Prop :=
  ab.1 < ab.2 ∧ boundary st en exons ab.1 ∧ boundary st en exons ab.2 ∧
  (∀ x, boundary st en exons x → ¬ (ab.1 < x < ab.2)) ∧
  ∃ r, r ∈ exons ∧ st r ≤ ab.1 ∧ ab.2 ≤ en r.

(** ** Collapsing twice *)

(** The pieces of [length] 100 or more. *)
Definition retained (pieces : list Exon) : list Exon :=
  filter (λ p, 100 ≤ length_ p) pieces.

(** A piece of 150 bases held by two transcripts and one, of another
    identifier, held by the first of them. *)
Definition plain_pieces : list Exon :=
  [exon_at "E1" 0 150 ["T1"; "T2"]; exon_at "E2" 200 400 ["T1"]].

(** ** From [cobble] to the scores *)

(** The objects that the references of a list refer to. *)
Definition objects (h : heap) (rs : list ref) : list Exon :=
  omap (λ r, h !! r) rs.

(** An alignment file with one read, without tags, in every region. *)
Definition one_read (chrom : string) (s e : Z) : list Alignment :=
  [mkAlignment [] false].

(** * Properties *)

(** ** Sets as lists of distinct elements *)

Lemma filter_all {A} (P : A → Prop) `{∀ x, Decision (P x)} (l : list A) :
  Forall P l → filter P l = l.
Proof.
  induction 1 as [|x l Hx _ IH]; [done|].
  by rewrite filter_cons_True, IH.
Qed.

Section dedup.
Context `{EqDecision A}.
Implicit Types l : list A.

Lemma elem_of_dedup l x : x ∈ dedup l ↔ x ∈ l.
Proof.
  induction l as [|y l IH]; simpl; [done|].
  rewrite !elem_of_cons, list_elem_of_filter, IH.
  destruct (decide (x = y)); naive_solver.
Qed.

Lemma NoDup_dedup l : NoDup (dedup l).
Proof.
  induction l as [|y l IH]; simpl; [constructor|].
  constructor; [|by apply NoDup_filter].
  rewrite list_elem_of_filter. naive_solver.
Qed.

Lemma dedup_NoDup l : NoDup l → dedup l = l.
Proof.
  induction 1 as [|x l Hx _ IH]; simpl; [done|].
  rewrite IH. f_equal. apply filter_all.
  apply Forall_forall. intros y Hy ->. done.
Qed.

Lemma elem_of_list_set `{HashOrder} l x : x ∈ list_set l ↔ x ∈ l.
Proof. unfold list_set. by rewrite hash_order_perm, elem_of_dedup. Qed.

Lemma NoDup_list_set `{HashOrder} l : NoDup (list_set l).
Proof. unfold list_set. rewrite hash_order_perm. apply NoDup_dedup. Qed.
End dedup.

Lemma elem_of_set_union `{HashOrder} (a b : list string) t :
  t ∈ set_union a b ↔ t ∈ a ∨ t ∈ b.
Proof.
  unfold set_union.
  by rewrite elem_of_list_set, elem_of_app, elem_of_list_set.
Qed.

(** ** Combining two features *)

Section combine_facts.
Context `{HashOrder}.

Lemma GenomicObject_and_ok (a b : Exon) :
  chrom a = chrom b →
  ∃ E, GenomicObject_and a b = Ok E ∧
       chrom E = chrom a ∧
       strand E = (strand a + strand b) / 2 ∧
       multiplicity E = multiplicity a + multiplicity b ∧
       length_ E = 0 ∧ id_ E = id_ a +:+ id_ b.
Proof.
  intros Hc. unfold GenomicObject_and. rewrite decide_True by done.
  eexists; split; [done|]. simpl. repeat split; lia.
Qed.

(** The merge succeeds on one chromosome; the strand is the floor of the
    half sum, the multiplicities add up and the transcripts are united. *)
Lemma Exon_and_ok (a b : Exon) :
  chrom a = chrom b →
  ∃ E, Exon_and a b = Ok E ∧
       chrom E = chrom a ∧
       strand E = (strand a + strand b) / 2 ∧
       multiplicity E = multiplicity a + multiplicity b ∧
       length_ E = 0 ∧ id_ E = id_ a +:+ id_ b ∧
       (∀ t, t ∈ transcripts E ↔ t ∈ transcripts a ∨ t ∈ transcripts b).
Proof.
  intros Hc. unfold Exon_and.
  destruct (GenomicObject_and_ok a b Hc) as (E & -> & ? & ? & ? & ? & ?).
  simpl. eexists; split; [done|]. simpl.
  repeat split; try done; apply elem_of_set_union.
Qed.

Lemma Exon_and_mismatch (a b : Exon) :
  chrom a ≠ chrom b →
  Exon_and a b =
    Raise (AssertionError "Cannot add features from different chromosomes").
Proof.
  intros Hc. unfold Exon_and, GenomicObject_and.
  by rewrite decide_False by done.
Qed.
End combine_facts.

(** C5.  The strand of a merged feature is the flooring half sum of Python 2
    integers, not the mean: features of strands [+1] and [0] on one
    chromosome merge into a feature of strand [0] (the multiplicities are
    added and the transcripts united, as claimed). *)
Theorem Exon_and_strand_1_0 `{HashOrder} :
  ∃ E, Exon_and (Exon_init ["T1"] "E1" "G" "Gapdh" "chr6" 0 100 "E1" 0%Qc 1 1)
                (Exon_init ["T2"] "E2" "G" "Gapdh" "chr6" 50 150 "E2" 0%Qc 0 1)
       = Ok E ∧
       strand E = 0 ∧ multiplicity E = 2 ∧
       (∀ t, t ∈ transcripts E ↔ t = "T1" ∨ t = "T2").
Proof.
  edestruct (Exon_and_ok
    (Exon_init ["T1"] "E1" "G" "Gapdh" "chr6" 0 100 "E1" 0%Qc 1 1)
    (Exon_init ["T2"] "E2" "G" "Gapdh" "chr6" 50 150 "E2" 0%Qc 0 1))
    as (E & HE & _ & Hs & Hm & _ & _ & Ht); [done|].
  exists E. split; [done|]. split; [by rewrite Hs|]. split; [by rewrite Hm|].
  intros t. rewrite Ht. simpl. rewrite !list_elem_of_singleton. done.
Qed.

(** C8.  Combining two features of different chromosomes raises the
    assertion error of [GenomicObject.__and__] and returns no feature;
    combining two features of one chromosome returns a feature, of that
    chromosome. *)
Theorem Exon_and_chrom `{HashOrder} (a b : Exon) :
  (chrom a ≠ chrom b →
     Exon_and a b =
       Raise (AssertionError "Cannot add features from different chromosomes")) ∧
  (chrom a = chrom b → ∃ E, Exon_and a b = Ok E ∧ chrom E = chrom a).
Proof.
  split.
  - apply Exon_and_mismatch.
  - intros Hc. destruct (Exon_and_ok a b Hc) as (E & ? & ? & _). eauto.
Qed.

Lemma Exon_and_chrom_witness :
  @Exon_and insertion_order (exon_at "E1" 0 100 ["T1"])
            (set_start 7 (Exon_init [] "E9" "G" "Gapdh" "chr7" 0 9 "E9" 0%Qc 1 1))
  = Raise (AssertionError "Cannot add features from different chromosomes") ∧
  ∃ E, @Exon_and insertion_order (exon_at "E1" 0 100 ["T1"])
                (exon_at "E2" 50 150 ["T2"]) = Ok E ∧ chrom E = "chr6".
Proof.
  split.
  - apply (proj1 (@Exon_and_chrom insertion_order _ _)). simpl. discriminate.
  - apply (proj2 (@Exon_and_chrom insertion_order (exon_at "E1" 0 100 ["T1"])
                    (exon_at "E2" 50 150 ["T2"]))). reflexivity.
Defined.

(** ** Counting reads *)

Lemma count_stranded_n_raw (c c' : Counter.t) (a : Alignment) :
  Counter.count_stranded c a = Ok c' → Counter.n_raw c' = Counter.n_raw c.
Proof.
  unfold Counter.count_stranded.
  destruct (Counter.NH0 a) as [w|]; simpl; [|done].
  destruct (_ || _); intros [= <-]; done.
Qed.

Lemma count_n_raw (c c' : Counter.t) (a : Alignment) :
  Counter.count c a = Ok c' → Counter.n_raw c' = Counter.n_raw c + 1.
Proof.
  unfold Counter.count.
  destruct (Counter.NH0 a) as [w|]; simpl; [|done]. intros [= <-]; done.
Qed.

(** C7.  In stranded mode a forward read without [NH] tag, visited by a
    counter that expects strand [+1], adds its weight 1 to [n] and leaves
    [n_raw] at 0; the unstranded [count] adds 1 to both. *)
Theorem count_stranded_match_keeps_n_raw :
  Counter.call (Counter.mk 0%Qc 0 0%Qc 1 true) (mkAlignment [] false)
    = Ok (Counter.mk 1%Qc 0 0%Qc 1 true) ∧
  Counter.call (Counter.mk 0%Qc 0 0%Qc 1 false) (mkAlignment [] false)
    = Ok (Counter.mk 1%Qc 1 0%Qc 1 false).
Proof. split; vm_compute; reflexivity. Qed.

(** ** Counting occurrences *)

Section count_of.
Context `{EqDecision A}.
Implicit Types (l : list A) (x y : A).

Lemma count_of_nil x : count_of x [] = 0%nat.
Proof. done. Qed.

Lemma count_of_cons x y l :
  count_of x (y :: l) = ((if decide (y = x) then 1 else 0) + count_of x l)%nat.
Proof. unfold count_of. rewrite filter_cons. by destruct (decide (y = x)). Qed.

Lemma count_of_app x l1 l2 :
  count_of x (l1 ++ l2) = (count_of x l1 + count_of x l2)%nat.
Proof. unfold count_of. by rewrite filter_app, length_app. Qed.

Lemma count_of_perm x l1 l2 : l1 ≡ₚ l2 → count_of x l1 = count_of x l2.
Proof. unfold count_of. by intros ->. Qed.

Lemma count_of_pos x l : (0 < count_of x l)%nat ↔ x ∈ l.
Proof.
  induction l as [|y l IH]; [rewrite count_of_nil; split; [lia|by inv 1]|].
  rewrite count_of_cons, elem_of_cons.
  destruct (decide (y = x)) as [->|]; [split; [auto|lia]|].
  rewrite <-IH. split; [intros; right; lia|intros [?|?]; [congruence|lia]].
Qed.

Lemma count_of_zero x l : count_of x l = 0%nat ↔ x ∉ l.
Proof. rewrite <-count_of_pos. lia. Qed.

End count_of.

Lemma count_of_fmap_inj {A B} `{EqDecision A} `{EqDecision B} (f : B → A)
    `{!Inj (=) (=) f} (b : B) (k : list B) :
  count_of (f b) (f <$> k) = count_of b k.
Proof.
  induction k as [|c k IH]; [done|].
  rewrite fmap_cons, !count_of_cons, IH.
  destruct (decide (c = b)) as [->|Hne]; [by rewrite decide_True by done|].
  rewrite decide_False; [done|]. intros Hf. by apply Hne, (inj f).
Qed.

(** ** [list.remove] *)

Lemma list_remove_elem_of (r : ref) (l : list ref) :
  r ∈ l →
  ∃ l', list_remove r l = Ok l' ∧
        (∀ x, count_of x l =
              ((if decide (r = x) then 1 else 0) + count_of x l')%nat) ∧
        (∀ R : relation ref, StronglySorted R l → StronglySorted R l').
Proof.
  induction l as [|y l IH]; [by inv 1|]. intros Hr. simpl.
  destruct (decide (y = r)) as [->|Hne].
  - exists l. split; [done|]. split.
    + intros x. by rewrite count_of_cons.
    + intros R. by inv 1.
  - destruct IH as (l' & -> & Hc & Hs).
    { apply elem_of_cons in Hr as [?|?]; [congruence|done]. }
    exists (y :: l'). split; [done|]. split.
    + intros x. rewrite !count_of_cons, Hc. lia.
    + intros R HR. apply StronglySorted_cons in HR as [Hy HR].
      apply StronglySorted_cons. split; [|by apply Hs].
      apply Forall_forall. intros z Hz. rewrite Forall_forall in Hy.
      apply Hy, count_of_pos. apply count_of_pos in Hz.
      rewrite Hc. lia.
Qed.

(** ** The order of the events *)

Global Instance event_le_total : Total event_le.
Proof. intros [[p k] r] [[p' k'] r']. unfold event_le, pos, kind, feat. simpl. lia. Qed.

Global Instance event_le_trans : Transitive event_le.
Proof.
  intros [[p k] r] [[p' k'] r'] [[p'' k''] r''].
  unfold event_le, pos, kind, feat. simpl. lia.
Qed.

Global Instance event_le_antisym : AntiSymm (=) event_le.
Proof.
  intros [[p k] r] [[p' k'] r']. unfold event_le, pos, kind, feat. simpl.
  intros ??. repeat f_equal; lia.
Qed.

Lemma ref_le_antisym (st : ref → Z) (r1 r2 : ref) :
  ref_le st r1 r2 → ref_le st r2 r1 → r1 = r2.
Proof. unfold ref_le. lia. Qed.

Lemma event_le_pos (a b : Event) : event_le a b → pos a ≤ pos b.
Proof. unfold event_le. lia. Qed.

(** ** The sweep over the sorted events *)

Section sweep.
Context (st en : ref → Z) (exons : list ref).
Hypothesis Hlen : ∀ r, r ∈ exons → st r < en r.

Local Abbreviation L := (merge_sort event_le (events st en exons)).

Local Instance start_event_inj : Inj (=) (=) (λ r : ref, (st r, 1, r)).
Proof. by intros r1 r2 [= _ ->]. Qed.

Local Instance stop_event_inj : Inj (=) (=) (λ r : ref, (en r, 0, r)).
Proof. by intros r1 r2 [= _ ->]. Qed.

Lemma sorted_events : StronglySorted event_le L.
Proof. apply StronglySorted_merge_sort; apply _. Qed.

Lemma elem_of_sorted_events (a : Event) :
  a ∈ L ↔ ∃ r, r ∈ exons ∧ (a = (st r, 1, r) ∨ a = (en r, 0, r)).
Proof.
  rewrite merge_sort_Permutation. unfold events.
  rewrite elem_of_app, !list_elem_of_fmap. naive_solver.
Qed.

Lemma count_start_events (r : ref) : count_of (st r, 1, r) L = count_of r exons.
Proof.
  rewrite (count_of_perm _ _ _ (merge_sort_Permutation _ _)).
  unfold events. rewrite count_of_app.
  rewrite (count_of_fmap_inj (λ r : ref, (st r, 1, r))).
  assert (count_of (st r, 1, r) ((λ r0 : ref, (en r0, 0, r0)) <$> exons) = 0%nat)
    as ->; [|lia].
  apply count_of_zero. intros (r' & [=] & _)%list_elem_of_fmap.
Qed.

Lemma count_stop_events (r : ref) : count_of (en r, 0, r) L = count_of r exons.
Proof.
  rewrite (count_of_perm _ _ _ (merge_sort_Permutation _ _)).
  unfold events. rewrite count_of_app.
  rewrite (count_of_fmap_inj (λ r : ref, (en r, 0, r))).
  assert (count_of (en r, 0, r) ((λ r0 : ref, (st r0, 1, r0)) <$> exons) = 0%nat)
    as ->; [|lia].
  apply count_of_zero. intros (r' & [=] & _)%list_elem_of_fmap.
Qed.

(** Where the sorted events are cut, what precedes the cut is below what
    follows it. *)
Lemma cut_before (pre suf : list Event) (a e : Event) :
  pre ++ a :: suf = L → e ∈ pre ++ [a] → event_le e a.
Proof.
  intros HL He. pose proof sorted_events as HS. rewrite <-HL in HS.
  apply elem_of_app in He as [He|He%list_elem_of_singleton].
  - eapply StronglySorted_app_1_elem_of; [done..|left].
  - subst e. destruct (total event_le a a); done.
Qed.

Lemma cut_after (pre suf : list Event) (a e : Event) :
  pre ++ a :: suf = L → e ∈ a :: suf → event_le a e.
Proof.
  intros HL He. pose proof sorted_events as HS. rewrite <-HL in HS.
  apply StronglySorted_app_1_r, StronglySorted_cons in HS as [HS _].
  apply elem_of_cons in He as [->|He].
  - destruct (total event_le a a); done.
  - rewrite Forall_forall in HS. by apply HS.
Qed.

Lemma sweep_inv_nil : sweep_inv st en [] [].
Proof. split; [done|constructor]. Qed.

(** One event keeps the invariant, and [list.remove] finds its exon. *)
Lemma activate_inv (pre suf : list Event) (a : Event) (active : list ref) :
  pre ++ a :: suf = L → sweep_inv st en pre active →
  ∃ active', activate a active = Ok active' ∧
             sweep_inv st en (pre ++ [a]) active'.
Proof.
  intros HL [Hc Hs].
  assert (a ∈ L) as Ha by (rewrite <-HL; set_solver).
  apply elem_of_sorted_events in Ha as (r0 & Hr0 & [->| ->]).
  - (* an exon opens *)
    exists (active ++ [r0]). split; [done|]. split.
    + intros r. rewrite !count_of_app, Hc.
      rewrite !count_of_cons, !count_of_nil.
      destruct (decide (r0 = r)) as [->|Hne].
      * rewrite decide_True by done. rewrite decide_False by done. lia.
      * rewrite decide_False by (by intros [= _ ?]).
        rewrite decide_False by done. lia.
    + apply StronglySorted_app_2; [|done|repeat constructor].
      intros r1 r2 Hr1 ->%list_elem_of_singleton.
      assert ((st r1, 1, r1) ∈ pre) as Hin.
      { apply count_of_pos. rewrite Hc. apply count_of_pos in Hr1. lia. }
      assert (event_le (st r1, 1, r1) (st r0, 1, r0)) as Hle.
      { eapply cut_before; [done|]. set_solver. }
      revert Hle. unfold event_le, ref_le, pos, kind, feat. simpl. lia.
  - (* an exon closes *)
    assert (count_of (st r0, 1, r0) (((en r0, 0, r0) : Event) :: suf) = 0%nat)
      as Hnone.
    { apply count_of_zero. intros Hin.
      assert (event_le (en r0, 0, r0) (st r0, 1, r0)) as Hle
        by (eapply cut_after; done).
      specialize (Hlen r0 Hr0).
      revert Hle. unfold event_le, pos, kind, feat. simpl. lia. }
    pose proof (count_start_events r0) as HS.
    pose proof (count_stop_events r0) as HE.
    rewrite <-HL, count_of_app in HS, HE.
    rewrite count_of_cons, decide_True in HE by done.
    assert (r0 ∈ active) as Hact.
    { apply count_of_pos. specialize (Hc r0). lia. }
    destruct (list_remove_elem_of r0 active Hact) as (active' & Hrm & Hcnt & Hsrt).
    exists active'. split.
    { unfold activate, kind, feat. simpl. done. }
    split; [|by apply Hsrt].
    intros r. rewrite !count_of_app, !count_of_cons, !count_of_nil.
    specialize (Hc r). specialize (Hcnt r).
    destruct (decide (r0 = r)) as [->|Hne].
    + rewrite decide_False by done. rewrite decide_True by done. lia.
    + rewrite decide_False by done.
      rewrite decide_False by (by intros [= _ ?]). lia.
Qed.

(** Between two events at different positions the active list holds the
    exons that span the gap. *)
Lemma active_between (pre rest : list Event) (a b : Event) (active : list ref) :
  (pre ++ [a]) ++ b :: rest = L → sweep_inv st en (pre ++ [a]) active →
  pos a < pos b →
  ∀ r, r ∈ active ↔ r ∈ exons ∧ st r ≤ pos a ∧ pos b ≤ en r.
Proof.
  intros HL [Hc _] Hab r.
  assert (pre ++ a :: b :: rest = L) as HL' by (by rewrite <-HL, <-app_assoc).
  pose proof (count_start_events r) as HS.
  pose proof (count_stop_events r) as HE.
  rewrite <-HL, count_of_app in HS, HE. specialize (Hc r).
  split.
  - intros Hr%count_of_pos.
    assert ((st r, 1, r) ∈ pre ++ [a]) as H1 by (apply count_of_pos; lia).
    assert ((en r, 0, r) ∈ b :: rest) as H2 by (apply count_of_pos; lia).
    split; [|split].
    + apply count_of_pos. lia.
    + apply (cut_before _ _ _ _ HL'), event_le_pos in H1. done.
    + apply (cut_after _ _ _ _ HL), event_le_pos in H2. done.
  - intros (Hr%count_of_pos & H1 & H2).
    assert (count_of (st r, 1, r) (b :: rest) = 0%nat) as Hs0.
    { apply count_of_zero. intros Hin.
      apply (cut_after _ _ _ _ HL), event_le_pos in Hin.
      unfold pos in *; simpl in *; lia. }
    assert (count_of (en r, 0, r) (pre ++ [a]) = 0%nat) as He0.
    { apply count_of_zero. intros Hin.
      apply (cut_before _ _ _ _ HL'), event_le_pos in Hin.
      unfold pos in *; simpl in *; lia. }
    apply count_of_pos. lia.
Qed.

Lemma no_boundary_between (pre rest : list Event) (a b : Event) (r : ref) :
  (pre ++ [a]) ++ b :: rest = L → r ∈ exons →
  ¬ (pos a < st r < pos b) ∧ ¬ (pos a < en r < pos b).
Proof.
  intros HL Hr.
  assert (pre ++ a :: b :: rest = L) as HL' by (by rewrite <-HL, <-app_assoc).
  assert (∀ e, e ∈ L → pos e ≤ pos a ∨ pos b ≤ pos e) as Hcut.
  { intros e. rewrite <-HL at 1. intros [He|He]%elem_of_app.
    - left. by apply event_le_pos, (cut_before _ _ _ _ HL').
    - right. by apply event_le_pos, (cut_after _ _ _ _ HL). }
  split.
  - destruct (Hcut (st r, 1, r)) as [?|?];
      [apply elem_of_sorted_events; eauto|unfold pos in *; simpl in *; lia..].
  - destruct (Hcut (en r, 0, r)) as [?|?];
      [apply elem_of_sorted_events; eauto|unfold pos in *; simpl in *; lia..].
Qed.
Lemma spans_step (active : list ref) (a b : Event) (rest : list Event) :
  spans active (a :: b :: rest) =
  rbind (activate a active) (λ active',
    if decide (length active' = 0%nat) then spans active' (b :: rest)
    else if decide (pos a = pos b) then spans active' (b :: rest)
    else rbind (spans active' (b :: rest))
               (λ sp, Ok ((pos a, pos b, active') :: sp))).
Proof. reflexivity. Qed.

Lemma chain_weaken (lo lo' : Z) (sp : list Span) :
  lo' ≤ lo → chain lo sp → chain lo' sp.
Proof.
  destruct sp as [|s sp]; simpl; [done|].
  intros ? (? & ? & ?). repeat split; [lia|done..].
Qed.

(** An exon that holds a point of the gap between two events spans the gap. *)
Lemma spans_gap (pre rest : list Event) (a b : Event) (r : ref) (x : Z) :
  (pre ++ [a]) ++ b :: rest = L → r ∈ exons →
  st r ≤ x < en r → pos a ≤ x < pos b →
  st r ≤ pos a ∧ pos b ≤ en r.
Proof.
  intros HL Hr Hx Hab.
  destruct (no_boundary_between pre rest a b r HL Hr). lia.
Qed.

(** The loop raises nothing, and its spans are ordered, well formed and
    leave no covered point out. *)
Lemma spans_sweep (suf pre : list Event) (active : list ref) :
  pre ++ suf = L → sweep_inv st en pre active →
  ∃ sp, spans active suf = Ok sp ∧
        chain (from_option pos 0 (head suf)) sp ∧
        Forall (span_ok st en exons) sp ∧
        (∀ x r, r ∈ exons → st r ≤ x < en r →
                from_option pos 0 (head suf) ≤ x → suf ≠ [] →
                ∃ s, s ∈ sp ∧ s.1.1 ≤ x < s.1.2).
Proof.
  revert pre active.
  induction suf as [|a suf IH]; intros pre active HL Hinv.
  { exists []. simpl. repeat split; done. }
  destruct suf as [|b rest].
  { exists []. simpl. repeat split; [done..|].
    intros x r Hr Hx Hlo _. exfalso.
    assert ((en r, 0, r) ∈ pre ++ [a]) as Hin
      by (rewrite HL; apply elem_of_sorted_events; eauto).
    apply (cut_before pre [] a), event_le_pos in Hin; [|done].
    unfold pos in *; simpl in *; lia. }
  destruct (activate_inv pre (b :: rest) a active HL Hinv)
    as (active' & Hact & Hinv').
  assert ((pre ++ [a]) ++ b :: rest = L) as HL2 by (by rewrite <-app_assoc).
  destruct (IH (pre ++ [a]) active' HL2 Hinv') as (sp' & Hsp' & Hch & Hok & Hcomp).
  assert (pos a ≤ pos b) as Hab.
  { apply event_le_pos, (cut_after pre (b :: rest) a); [done|set_solver]. }
  simpl in Hch, Hcomp.
  rewrite spans_step, Hact. cbn [rbind].
  destruct (decide (length active' = 0%nat)) as [Hnil|Hne].
  { exists sp'. split; [done|]. split; [by eapply chain_weaken|].
    split; [done|]. simpl. intros x r Hr Hx Hlo _.
    destruct (decide (pos b ≤ x)); [by apply (Hcomp x r)|]. exfalso.
    destruct (spans_gap pre rest a b r x) as [? ?]; [done|done|done|lia|].
    assert (r ∈ active') as Hin.
    { apply (active_between pre rest a b); [done|done|lia|done]. }
    apply nil_length_inv in Hnil. subst active'. by inv Hin. }
  destruct (decide (pos a = pos b)) as [Heq|Hneq].
  { exists sp'. split; [done|]. split; [by eapply chain_weaken|].
    split; [done|]. simpl. intros x r Hr Hx Hlo _.
    apply (Hcomp x r); [done|done|lia|done]. }
  rewrite Hsp'. cbn [rbind]. eexists. split; [done|].
  split; [simpl; split; [done|split; [lia|done]]|].
  split.
  - constructor; [|done]. unfold span_ok. simpl.
    split; [lia|]. split; [by intros ->|]. split; [apply Hinv'|].
    split.
    + apply (active_between pre rest a b); [done|done|lia].
    + intros r Hr. by apply (no_boundary_between pre rest a b).
  - simpl. intros x r Hr Hx Hlo _.
    destruct (decide (pos b ≤ x)).
    + destruct (Hcomp x r) as (s & Hs & Hsx); [done..|].
      exists s. split; [by right|done].
    + eexists. split; [left|]. simpl. lia.
Qed.

(** The spans of [cobble]: the loop entered with an empty active list. *)
Lemma spans_cobble :
  ∃ sp, spans [] L = Ok sp ∧
        chain (from_option pos 0 (head L)) sp ∧
        Forall (span_ok st en exons) sp ∧
        (∀ x r, r ∈ exons → st r ≤ x < en r → ∃ s, s ∈ sp ∧ s.1.1 ≤ x < s.1.2).
Proof.
  destruct (spans_sweep L [] []) as (sp & Hsp & Hch & Hok & Hcomp);
    [done|apply sweep_inv_nil|].
  exists sp. repeat split; [done..|].
  intros x r Hr Hx.
  assert ((st r, 1, r) ∈ L) as Hin by (apply elem_of_sorted_events; eauto).
  apply (Hcomp x r); [done|done| |by intros Hnil; rewrite Hnil in Hin; inv Hin].
  destruct L as [|a suf] eqn:HL; [by inv Hin|]. simpl.
  apply (cut_after [] suf a), event_le_pos in Hin; [|done].
  unfold pos in *; simpl in *; lia.
Qed.
End sweep.

(** ** The store: what is allocated stays *)

Ltac run := unfold bind, ret, raise, lift, load, alloc, setattr in *; simpl in *.

Lemma bind_assoc {A B C} (m : M A) (k : A → M B) (k' : B → M C) (h : heap) :
  bind (bind m k) k' h = bind m (λ x, bind (k x) k') h.
Proof. unfold bind. destruct (m h) as [h1 [a|e]]; done. Qed.

Lemma bind_ext {A B} (m : M A) (k k' : A → M B) (h : heap) :
  (∀ a h', k a h' = k' a h') → bind m k h = bind m k' h.
Proof. intros Hk. unfold bind. destruct (m h) as [h1 [a|e]]; [apply Hk|done]. Qed.

Lemma setattr_frame (r : ref) (f : Exon → Exon) (h0 h : heap) :
  h0 `prefix_of` h → (length h0 ≤ r)%nat → h0 `prefix_of` (setattr r f h).1.
Proof.
  intros [ext ->] Hr. run. case_match; simpl.
  - rewrite insert_app_r_alt by done. by apply prefix_app_r.
  - by apply prefix_app_r.
Qed.

Lemma setattr_result (r : ref) (f : Exon → Exon) (h : heap) :
  length (setattr r f h).1 = length h.
Proof. run. case_match; simpl; [by rewrite length_insert|done]. Qed.

Section frame.
Context `{HashOrder}.

Lemma and_ref_frame (x y : ref) (h : heap) :
  h `prefix_of` (and_ref x y h).1 ∧
  ∀ e, (and_ref x y h).2 = Ok e → (length h ≤ e < length (and_ref x y h).1)%nat.
Proof.
  unfold and_ref. run.
  destruct (lookup x h); simpl; [|split; [done|by intros]].
  destruct (lookup y h); simpl; [|split; [done|by intros]].
  destruct (Exon_and _ _); simpl; [|split; [done|by intros]].
  split; [by apply prefix_app_r|]. intros e' [= <-]. rewrite length_app. simpl. lia.
Qed.

Lemma reduce_and_frame (feats : list ref) (acc : ref) (h : heap) :
  h `prefix_of` (reduce_and acc feats h).1 ∧
  ∀ e, (reduce_and acc feats h).2 = Ok e →
       (feats = [] ∧ e = acc) ∨ (length h ≤ e < length (reduce_and acc feats h).1)%nat.
Proof.
  revert acc h. induction feats as [|y feats IH]; intros acc h; simpl.
  { split; [done|]. intros e [= <-]. by left. }
  unfold bind. destruct (and_ref_frame acc y h) as [Hp He].
  destruct (and_ref acc y h) as [h1 [z|err]]; simpl in *; [|split; [done|by intros]].
  destruct (IH z h1) as [Hp' He']. split; [by etrans|].
  intros e Hres. right. specialize (He z eq_refl).
  destruct (He' e Hres) as [[-> ->]|?].
  - simpl. lia.
  - apply prefix_length in Hp. lia.
Qed.

Lemma deepcopy_frame (r : ref) (h : heap) :
  h `prefix_of` (deepcopy r h).1 ∧
  ∀ e, (deepcopy r h).2 = Ok e → (length h ≤ e < length (deepcopy r h).1)%nat.
Proof.
  unfold deepcopy. run. destruct (lookup r h); simpl; [|split; [done|by intros]].
  split; [by apply prefix_app_r|]. intros e' [= <-]. rewrite length_app. simpl. lia.
Qed.

(** [intersect_exons_list] changes no object and returns a new one. *)
Lemma intersect_exons_list_frame (feats : list ref) (multiple : bool) (h : heap) :
  h `prefix_of` (intersect_exons_list feats multiple h).1 ∧
  ∀ e, (intersect_exons_list feats multiple h).2 = Ok e →
       (length h ≤ e < length (intersect_exons_list feats multiple h).1)%nat.
Proof.
  unfold intersect_exons_list.
  destruct (if multiple then feats else list_set feats) as [|x [|y feats']].
  - run. split; [done|by intros].
  - apply deepcopy_frame.
  - destruct (reduce_and_frame (y :: feats') x h) as [Hp He].
    split; [done|]. intros e Hres. by destruct (He e Hres) as [[? _]|?].
Qed.

Lemma emit_frame (s : Span) (h0 h : heap) :
  h0 `prefix_of` h → h0 `prefix_of` (emit s h).1.
Proof.
  intros Hp. unfold emit, bind.
  destruct (intersect_exons_list_frame s.2 false h) as [Hp1 He].
  destruct (intersect_exons_list s.2 false h) as [h1 [e|err]]; simpl in *;
    [|by etrans].
  specialize (He e eq_refl).
  assert (h0 `prefix_of` h1) as Hp2 by (by etrans).
  assert (length h0 ≤ e)%nat as Hle by (apply prefix_length in Hp; lia).
  pose proof (setattr_frame e (set_start s.1.1) h0 h1 Hp2 Hle) as Hp3.
  destruct (setattr e (set_start s.1.1) h1) as [h2 [[]|err]]; simpl in *; [|done].
  pose proof (setattr_frame e (set_end s.1.2) h0 h2 Hp3 Hle) as Hp4.
  destruct (setattr e (set_end s.1.2) h2) as [h3 [[]|err]]; simpl in *; done.
Qed.

(** One turn of the loop in terms of [emit]. *)
Lemma cobble_loop_step (active : list ref) (a b : Event) (rest : list Event)
    (h : heap) :
  cobble_loop active (a :: b :: rest) h =
  (let! active' := lift (activate a active) in
   if decide (length active' = 0%nat) then cobble_loop active' (b :: rest)
   else if decide (pos a = pos b) then cobble_loop active' (b :: rest)
   else
     let! e := emit (pos a, pos b, active') in
     let! cobbled := cobble_loop active' (b :: rest) in
     ret (e :: cobbled)) h.
Proof.
  change (cobble_loop active (a :: b :: rest) h) with
    ((let! active' := lift (activate a active) in
      if decide (length active' = 0%nat) then cobble_loop active' (b :: rest)
      else if decide (pos a = pos b) then cobble_loop active' (b :: rest)
      else
        let! e := intersect_exons_list active' false in
        let! _ := setattr e (set_start (pos a)) in
        let! _ := setattr e (set_end (pos b)) in
        let! cobbled := cobble_loop active' (b :: rest) in
        ret (e :: cobbled)) h).
  apply bind_ext. intros active' h0.
  destruct (decide (length active' = 0%nat)); [done|].
  destruct (decide (pos a = pos b)); [done|].
  unfold emit. cbn [fst snd].
  rewrite bind_assoc. apply bind_ext. intros e h1.
  rewrite bind_assoc. apply bind_ext. intros [] h2.
  rewrite bind_assoc. apply bind_ext. intros [] h3.
  done.
Qed.

Lemma cobble_loop_frame (ends : list Event) (active : list ref) (h0 h : heap) :
  h0 `prefix_of` h → h0 `prefix_of` (cobble_loop active ends h).1.
Proof.
  revert active h. induction ends as [|a ends IH]; intros active h Hp; [done|].
  destruct ends as [|b rest]; [done|].
  rewrite cobble_loop_step. unfold bind at 1. unfold lift.
  destruct (activate a active) as [active'|err]; [|done].
  destruct (decide (length active' = 0%nat)); [by apply IH|].
  destruct (decide (pos a = pos b)); [by apply IH|].
  unfold bind.
  pose proof (emit_frame (pos a, pos b, active') h0 h Hp) as Hp1.
  destruct (emit (pos a, pos b, active') h) as [h1 [e|err]];
    cbn [fst snd] in *; [|done].
  specialize (IH active' h1 Hp1).
  destruct (cobble_loop active' (b :: rest) h1) as [h2 [c|err]];
    cbn [fst snd] in *; done.
Qed.

(** The loop is the emission of its spans. *)
Lemma cobble_loop_spans (ends : list Event) (active : list ref) (sp : list Span)
    (h : heap) :
  spans active ends = Ok sp → cobble_loop active ends h = emit_all sp h.
Proof.
  revert active sp h. induction ends as [|a ends IH]; intros active sp h.
  { by intros [= <-]. }
  destruct ends as [|b rest]; [by intros [= <-]|].
  rewrite spans_step, cobble_loop_step. unfold bind at 1. unfold lift.
  destruct (activate a active) as [active'|err]; [|done]. cbn [rbind].
  destruct (decide (length active' = 0%nat)); [by apply IH|].
  destruct (decide (pos a = pos b)); [by apply IH|].
  destruct (spans active' (b :: rest)) as [sp'|err] eqn:Hsp; [|done].
  intros [= <-]. cbn [emit_all]. unfold bind.
  destruct (emit (pos a, pos b, active') h) as [h1 [e|err]]; [|done].
  by rewrite (IH active' sp' h1 Hsp).
Qed.

Lemma starts_frame (exons : list ref) (h : heap) : (starts exons h).1 = h.
Proof.
  induction exons as [|r exons IH]; [done|]. simpl. run.
  destruct (lookup r h); [|done].
  destruct (starts exons h) as [h1 [evs|err]]; simpl in *; by subst.
Qed.

Lemma stops_frame (exons : list ref) (h : heap) : (stops exons h).1 = h.
Proof.
  induction exons as [|r exons IH]; [done|]. simpl. run.
  destruct (lookup r h); [|done].
  destruct (stops exons h) as [h1 [evs|err]]; simpl in *; by subst.
Qed.

(** C10.  [cobble] leaves every object of the store it is given as it was:
    whatever it returns or raises, each input exon (and any other object)
    keeps its fields; the pieces are new objects, and the only attributes
    written are those of a new object. *)
Theorem cobble_frame (exons : list ref) (multiple : bool) (h : heap) (r : ref)
    (e : Exon) :
  h !! r = Some e → (cobble exons multiple h).1 !! r = Some e.
Proof.
  intros Hr. eapply prefix_lookup_Some; [done|].
  unfold cobble, bind.
  pose proof (starts_frame exons h) as Hs.
  destruct (starts exons h) as [h1 [s|err]]; simpl in Hs; subst h1; [|done].
  pose proof (stops_frame exons h) as He.
  destruct (stops exons h) as [h1 [s'|err]]; simpl in He; subst h1; [|done].
  by apply cobble_loop_frame.
Qed.

End frame.

Lemma cobble_frame_witness :
  (@cobble insertion_order [0%nat; 1%nat] false scenario_A).1 !! 0%nat
  = Some (exon_at "E1" 0 100 ["T1"]).
Proof. apply (@cobble_frame insertion_order). reflexivity. Defined.

(** ** What a piece is made of *)

Lemma setattr_last (l : heap) (o : Exon) (f : Exon → Exon) :
  setattr (length l) f (l ++ [o]) = (l ++ [f o], Ok tt).
Proof.
  unfold setattr. rewrite list_lookup_middle by done.
  rewrite insert_app_r_alt by done. by rewrite Nat.sub_diag.
Qed.

Lemma transcripts_of_app (h ext : heap) (r : ref) :
  is_Some (h !! r) → transcripts_of (h ++ ext) r = transcripts_of h r.
Proof.
  intros [e He]. unfold transcripts_of.
  by rewrite (lookup_app_l_Some h ext r e He), He.
Qed.

Section pieces.
Context `{HashOrder}.

Lemma and_ref_spec (x y : ref) (h : heap) (ex ey : Exon) :
  h !! x = Some ex → h !! y = Some ey → chrom ex = chrom ey →
  ∃ E, Exon_and ex ey = Ok E ∧ and_ref x y h = (h ++ [E], Ok (length h)).
Proof.
  intros Hx Hy Hc. destruct (Exon_and_ok ex ey Hc) as (E & HE & _).
  exists E. split; [done|]. unfold and_ref, bind, load, lift, alloc.
  by rewrite Hx, Hy, HE.
Qed.

Lemma reduce_and_spec (feats : list ref) (y acc : ref) (h : heap) (eacc : Exon)
    (c : string) :
  h !! acc = Some eacc → chrom eacc = c →
  (∀ r, r ∈ y :: feats → ∃ e, h !! r = Some e ∧ chrom e = c) →
  ∃ ext obj,
    reduce_and acc (y :: feats) h
      = (h ++ ext ++ [obj], Ok (length h + length ext)%nat) ∧
    chrom obj = c ∧
    ∀ t, t ∈ transcripts obj ↔ t ∈ transcripts eacc ∨ tx_union h (y :: feats) t.
Proof.
  revert y acc h eacc.
  induction feats as [|y' feats IH]; intros y acc h eacc Hacc Hc Hv.
  - destruct (Hv y) as (ey & Hy & Hcy); [left|].
    destruct (and_ref_spec acc y h eacc ey) as (E & HE & Hrun);
      [done|done|congruence|].
    exists [], E. cbn [reduce_and]. unfold bind. rewrite Hrun. simpl.
    split; [by rewrite Nat.add_0_r|].
    destruct (Exon_and_ok eacc ey) as (E' & HE' & Hch & _ & _ & _ & _ & Ht);
      [congruence|].
    assert (E' = E) as -> by congruence.
    split; [congruence|]. intros t. rewrite Ht. unfold tx_union.
    split; (intros [?|Ht']; [by left|right]).
    + exists y. split; [left|]. unfold transcripts_of. by rewrite Hy.
    + destruct Ht' as (r & ->%list_elem_of_singleton & Ht').
      unfold transcripts_of in Ht'. by rewrite Hy in Ht'.
  - destruct (Hv y) as (ey & Hy & Hcy); [left|].
    destruct (and_ref_spec acc y h eacc ey) as (E & HE & Hrun);
      [done|done|congruence|].
    destruct (Exon_and_ok eacc ey) as (E' & HE' & Hch & _ & _ & _ & _ & Ht);
      [congruence|].
    assert (E' = E) as -> by congruence.
    destruct (IH y' (length h) (h ++ [E]) E) as (ext & obj & Hred & Hco & Hto).
    { by apply list_lookup_middle. }
    { congruence. }
    { intros r Hr. destruct (Hv r) as (e & He & Hce); [by right|].
      exists e. split; [|done]. by apply lookup_app_l_Some. }
    exists (E :: ext), obj.
    change (reduce_and acc (y :: y' :: feats) h) with
      (bind (and_ref acc y) (λ z, reduce_and z (y' :: feats)) h).
    unfold bind. rewrite Hrun, Hred. split.
    { rewrite <-!app_assoc, length_app. simpl. do 2 f_equal. lia. }
    split; [done|]. intros t. rewrite Hto, Ht. unfold tx_union.
    split.
    + intros [[?|?]|(r & Hr & Htr)]; [by left|right..].
      * exists y. split; [left|]. unfold transcripts_of. by rewrite Hy.
      * exists r. split; [by right|].
        rewrite transcripts_of_app in Htr; [done|].
        destruct (Hv r) as (e & -> & _); [by right|done].
    + intros [?|(r & Hr & Htr)]; [by left; left|].
      apply elem_of_cons in Hr as [->|Hr].
      * left. right. unfold transcripts_of in Htr. by rewrite Hy in Htr.
      * right. exists r. split; [done|].
        rewrite transcripts_of_app; [done|].
        destruct (Hv r) as (e & -> & _); [by right|done].
Qed.

(** The active exons of one chromosome merge into a new object that carries
    the transcripts of all of them. *)
Lemma intersect_exons_list_spec (feats : list ref) (h : heap) (c : string) :
  feats ≠ [] →
  (∀ r, r ∈ feats → ∃ e, h !! r = Some e ∧ chrom e = c) →
  ∃ ext obj,
    intersect_exons_list feats false h
      = (h ++ ext ++ [obj], Ok (length h + length ext)%nat) ∧
    ∀ t, t ∈ transcripts obj ↔ tx_union h feats t.
Proof.
  intros Hne Hv. unfold intersect_exons_list.
  pose proof (elem_of_list_set feats) as Hel.
  destruct (list_set feats) as [|x [|y l]] eqn:Hl.
  - destruct feats as [|r feats]; [done|].
    specialize (Hel r). rewrite elem_of_nil in Hel. exfalso. apply Hel. left.
  - destruct (Hv x) as (ex & Hx & _); [apply Hel; left|].
    exists [], ex. unfold deepcopy, bind, load, alloc. rewrite Hx. simpl.
    split; [by rewrite Nat.add_0_r|]. intros t. unfold tx_union. split.
    + intros Ht. exists x. split; [apply Hel; left|].
      unfold transcripts_of. by rewrite Hx.
    + intros (r & Hr & Ht). apply Hel, list_elem_of_singleton in Hr. subst r.
      unfold transcripts_of in Ht. by rewrite Hx in Ht.
  - destruct (Hv x) as (ex & Hx & Hcx); [apply Hel; left|].
    destruct (reduce_and_spec l y x h ex c) as (ext & obj & Hred & _ & Ht);
      [done|done| |].
    { intros r Hr. apply Hv, Hel. by right. }
    exists ext, obj. split; [done|]. intros t. rewrite Ht. unfold tx_union.
    split.
    + intros [Hx'|(r & Hr & Hr')].
      * exists x. split; [apply Hel; left|]. unfold transcripts_of. by rewrite Hx.
      * exists r. split; [apply Hel; by right|done].
    + intros (r & Hr & Hr'). apply Hel, elem_of_cons in Hr as [->|Hr].
      * left. unfold transcripts_of in Hr'. by rewrite Hx in Hr'.
      * right. by exists r.
Qed.

Lemma emit_spec (s : Span) (h : heap) (c : string) :
  s.2 ≠ [] →
  (∀ r, r ∈ s.2 → ∃ e, h !! r = Some e ∧ chrom e = c) →
  ∃ ext obj,
    emit s h = (h ++ ext ++ [obj], Ok (length h + length ext)%nat) ∧
    start obj = s.1.1 ∧ end_ obj = s.1.2 ∧
    ∀ t, t ∈ transcripts obj ↔ tx_union h s.2 t.
Proof.
  intros Hne Hv.
  destruct (intersect_exons_list_spec s.2 h c Hne Hv) as (ext & obj & Hrun & Ht).
  exists ext, (set_end s.1.2 (set_start s.1.1 obj)).
  unfold emit, bind. rewrite Hrun.
  rewrite !app_assoc, <-length_app, !setattr_last. done.
Qed.

Lemma tx_union_prefix (h0 h : heap) (feats : list ref) (t : string) :
  h0 `prefix_of` h → (∀ r, r ∈ feats → is_Some (h0 !! r)) →
  tx_union h feats t ↔ tx_union h0 feats t.
Proof.
  intros [ext ->] Hv. unfold tx_union.
  split; intros (r & Hr & Ht); exists r; (split; [done|]).
  - by rewrite transcripts_of_app in Ht by auto.
  - by rewrite transcripts_of_app by auto.
Qed.

Lemma emit_all_spec (sp : list Span) (h0 h : heap) (c : string) :
  h0 `prefix_of` h →
  (∀ s, s ∈ sp →
        s.2 ≠ [] ∧ ∀ r, r ∈ s.2 → ∃ e, h0 !! r = Some e ∧ chrom e = c) →
  ∃ h' ps, emit_all sp h = (h', Ok ps) ∧ h `prefix_of` h' ∧
           Forall2 (piece_of h0 h') ps sp.
Proof.
  revert h. induction sp as [|s sp IH]; intros h Hp0 Hv.
  { exists h, []. by repeat split; [|constructor]. }
  destruct (Hv s) as [Hne Hs]; [left|].
  destruct (emit_spec s h c) as (ext & obj & Hrun & Hst & Hen & Ht); [done| |].
  { intros r Hr. destruct (Hs r Hr) as (e & He & Hc). exists e.
    split; [|done]. by eapply prefix_lookup_Some. }
  destruct (IH (h ++ ext ++ [obj])) as (h' & ps & Hrun' & Hp & Hps).
  { etrans; [done|]. by apply prefix_app_r. }
  { intros s' Hs'. apply Hv. by right. }
  exists h', ((length h + length ext)%nat :: ps).
  cbn [emit_all]. unfold bind. rewrite Hrun, Hrun'. split; [done|].
  split; [etrans; [|done]; by apply prefix_app_r|].
  constructor; [|done].
  exists obj. split; [|split; [done|split; [done|]]].
  - eapply prefix_lookup_Some; [|done].
    rewrite app_assoc, <-length_app. by apply list_lookup_middle.
  - intros t. rewrite Ht. apply tx_union_prefix; [done|].
    intros r Hr. destruct (Hs r Hr) as (e & -> & _). done.
Qed.
End pieces.

(** ** [cobble] as a whole *)

Lemma Forall2_elem_of_l {A B} (R : A → B → Prop) (l : list A) (k : list B) (x : A) :
  Forall2 R l k → x ∈ l → ∃ y, y ∈ k ∧ R x y.
Proof.
  induction 1 as [|a b l k Hab _ IH]; [by inv 1|].
  intros [->|Hx]%elem_of_cons; [exists b; split; [left|done]|].
  destruct (IH Hx) as (y & ? & ?). exists y. split; [by right|done].
Qed.

Lemma Forall2_elem_of_r {A B} (R : A → B → Prop) (l : list A) (k : list B) (y : B) :
  Forall2 R l k → y ∈ k → ∃ x, x ∈ l ∧ R x y.
Proof.
  induction 1 as [|a b l k Hab _ IH]; [by inv 1|].
  intros [->|Hy]%elem_of_cons; [exists a; split; [left|done]|].
  destruct (IH Hy) as (x & ? & ?). exists x. split; [by right|done].
Qed.

Lemma piece_of_start (h h' : heap) (p : ref) (s : Span) :
  piece_of h h' p s → start_of h' p = s.1.1 ∧ end_of h' p = s.1.2.
Proof. intros (o & Ho & ? & ? & _). unfold start_of, end_of. by rewrite Ho. Qed.

Lemma piece_of_transcripts (h h' : heap) (p : ref) (s : Span) (t : string) :
  piece_of h h' p s → t ∈ transcripts_of h' p ↔ tx_union h s.2 t.
Proof. intros (o & Ho & _ & _ & Ht). unfold transcripts_of. by rewrite Ho. Qed.

Lemma chain_ordered_disjoint (h h' : heap) (ps : list ref) (sp : list Span) (lo : Z) :
  Forall2 (piece_of h h') ps sp → chain lo sp →
  ordered_disjoint h' ps ∧ Forall (λ q, lo ≤ start_of h' q) ps.
Proof.
  intros HF. revert lo. induction HF as [|p s ps sp Hp _ IH]; intros lo Hch.
  { by split; [|constructor]. }
  destruct Hch as (Hlo & Hlt & Hch). destruct (IH _ Hch) as [Hod Hall].
  apply piece_of_start in Hp as [Hs He]. split.
  - simpl. rewrite Hs, He. split; [done|]. split; [|done].
    eapply Forall_impl; [done|]. simpl. lia.
  - constructor; [by rewrite Hs|]. eapply Forall_impl; [done|]. simpl. lia.
Qed.

Section cobble_spec.
Context `{HashOrder}.

Lemma starts_spec (exons : list ref) (h : heap) :
  (∀ r, r ∈ exons → is_Some (h !! r)) →
  starts exons h = (h, Ok ((λ r, (start_of h r, 1, r)) <$> exons)).
Proof.
  induction exons as [|r exons IH]; intros Hv; [done|].
  destruct (Hv r) as [e He]; [left|].
  cbn [starts]. unfold bind, load, ret. rewrite He, IH by (intros; apply Hv; by right).
  rewrite fmap_cons. unfold start_of. by rewrite He.
Qed.

Lemma stops_spec (exons : list ref) (h : heap) :
  (∀ r, r ∈ exons → is_Some (h !! r)) →
  stops exons h = (h, Ok ((λ r, (end_of h r, 0, r)) <$> exons)).
Proof.
  induction exons as [|r exons IH]; intros Hv; [done|].
  destruct (Hv r) as [e He]; [left|].
  cbn [stops]. unfold bind, load, ret. rewrite He, IH by (intros; apply Hv; by right).
  rewrite fmap_cons. unfold end_of. by rewrite He.
Qed.

Lemma cobble_events (exons : list ref) (multiple : bool) (h : heap) :
  (∀ r, r ∈ exons → is_Some (h !! r)) →
  cobble exons multiple h =
  cobble_loop [] (merge_sort event_le (events (start_of h) (end_of h) exons)) h.
Proof.
  intros Hv. unfold cobble, bind. by rewrite starts_spec, stops_spec.
Qed.

Lemma valid_exons_length (h : heap) (exons : list ref) (r : ref) :
  valid_exons h exons → r ∈ exons → start_of h r < end_of h r.
Proof.
  intros Hv Hr. destruct (Hv r Hr) as (e & He & ?).
  unfold start_of, end_of. by rewrite He.
Qed.

(** On exons of positive length and one chromosome [cobble] returns, and
    its pieces are the spans of the sweep. *)
Lemma cobble_spec (exons : list ref) (multiple : bool) (h : heap) :
  valid_exons h exons → same_chrom h exons →
  ∃ sp h' pieces,
    cobble exons multiple h = (h', Ok pieces) ∧
    h `prefix_of` h' ∧
    Forall2 (piece_of h h') pieces sp ∧
    (∃ lo, chain lo sp) ∧
    Forall (span_ok (start_of h) (end_of h) exons) sp ∧
    (∀ x r, r ∈ exons → covers h r x → ∃ s, s ∈ sp ∧ s.1.1 ≤ x < s.1.2).
Proof.
  intros Hv [c Hc].
  destruct (spans_cobble (start_of h) (end_of h) exons)
    as (sp & Hsp & Hch & Hok & Hcomp).
  { intros r Hr. by eapply valid_exons_length. }
  destruct (emit_all_spec sp h h c) as (h' & ps & Hrun & Hp & Hps); [done| |].
  { intros s Hs. rewrite Forall_forall in Hok.
    destruct (Hok s Hs) as (_ & Hne & _ & Hin & _). split; [done|].
    intros r Hr. apply Hin in Hr as [Hr _].
    destruct (Hv r Hr) as (e & He & _). exists e. split; [done|]. by eapply Hc. }
  exists sp, h', ps.
  rewrite cobble_events by (intros r Hr; destruct (Hv r Hr) as (e & -> & _); done).
  rewrite (cobble_loop_spans _ _ sp) by done.
  repeat split; [done..|by eexists|done|done].
Qed.

(** C1.  For exons of positive length on one chromosome, [cobble] returns
    pieces that are half-open intervals in increasing order of start, none
    reaching into a later one, and the positions they cover are the
    positions some input exon covers. *)
Theorem cobble_partition (exons : list ref) (multiple : bool) (h : heap) :
  valid_exons h exons → same_chrom h exons →
  ∃ h' pieces,
    cobble exons multiple h = (h', Ok pieces) ∧
    ordered_disjoint h' pieces ∧
    ∀ x, (∃ p, p ∈ pieces ∧ covers h' p x) ↔ (∃ r, r ∈ exons ∧ covers h r x).
Proof.
  intros Hv Hc.
  destruct (cobble_spec exons multiple h Hv Hc)
    as (sp & h' & ps & Hrun & _ & Hps & [lo Hch] & Hok & Hcomp).
  exists h', ps. split; [done|]. split.
  { by destruct (chain_ordered_disjoint h h' ps sp lo). }
  intros x. split.
  - intros (p & Hp & Hx).
    destruct (Forall2_elem_of_l _ _ _ _ Hps Hp) as (s & Hs & Hpiece).
    apply piece_of_start in Hpiece as [Hst Hen].
    rewrite Forall_forall in Hok.
    destruct (Hok s Hs) as (_ & Hne & _ & Hin & _).
    destruct s.2 as [|r act] eqn:Hact; [done|].
    destruct (proj1 (Hin r)) as (Hr & ? & ?); [left|].
    exists r. split; [done|]. unfold covers in *. lia.
  - intros (r & Hr & Hx).
    destruct (Hcomp x r Hr Hx) as (s & Hs & Hsx).
    destruct (Forall2_elem_of_r _ _ _ _ Hps Hs) as (p & Hp & Hpiece).
    apply piece_of_start in Hpiece as [Hst Hen].
    exists p. split; [done|]. unfold covers. lia.
Qed.

(** C2.  The transcripts of every piece [cobble] returns are the transcripts
    of the input exons whose interval has a point in common with the piece. *)
Theorem cobble_transcripts (exons : list ref) (multiple : bool) (h : heap) :
  valid_exons h exons → same_chrom h exons →
  ∃ h' pieces,
    cobble exons multiple h = (h', Ok pieces) ∧
    ∀ p t, p ∈ pieces →
      t ∈ transcripts_of h' p ↔
      ∃ r, r ∈ exons ∧ (∃ x, covers h r x ∧ covers h' p x) ∧
           t ∈ transcripts_of h r.
Proof.
  intros Hv Hc.
  destruct (cobble_spec exons multiple h Hv Hc)
    as (sp & h' & ps & Hrun & _ & Hps & _ & Hok & _).
  exists h', ps. split; [done|]. intros p t Hp.
  destruct (Forall2_elem_of_l _ _ _ _ Hps Hp) as (s & Hs & Hpiece).
  rewrite (piece_of_transcripts h h' p s t Hpiece).
  apply piece_of_start in Hpiece as [Hst Hen].
  rewrite Forall_forall in Hok.
  destruct (Hok s Hs) as (Hlt & _ & _ & Hin & Hgap).
  unfold tx_union, covers. rewrite Hst, Hen. split.
  - intros (r & Hr & Ht). apply Hin in Hr as (Hr & ? & ?).
    exists r. split; [done|]. split; [|done]. exists s.1.1. lia.
  - intros (r & Hr & (x & Hx & Hx') & Ht).
    exists r. split; [|done]. apply Hin. split; [done|].
    destruct (Hgap r Hr). lia.
Qed.
End cobble_spec.

Lemma scenario_A_valid : valid_exons scenario_A [0%nat; 1%nat].
Proof.
  intros r Hr. apply elem_of_cons in Hr as [->|Hr].
  - eexists. split; [reflexivity|]. simpl. lia.
  - apply list_elem_of_singleton in Hr as ->.
    eexists. split; [reflexivity|]. simpl. lia.
Qed.

Lemma scenario_A_same_chrom : same_chrom scenario_A [0%nat; 1%nat].
Proof.
  exists "chr6". intros r e Hr He. apply elem_of_cons in Hr as [->|Hr].
  - by injection He as <-.
  - apply list_elem_of_singleton in Hr as ->. by injection He as <-.
Qed.

Lemma cobble_partition_witness :
  ∃ h' pieces,
    @cobble insertion_order [0%nat; 1%nat] false scenario_A = (h', Ok pieces) ∧
    ordered_disjoint h' pieces ∧
    ∀ x, (∃ p, p ∈ pieces ∧ covers h' p x) ↔
         (∃ r, r ∈ [0%nat; 1%nat] ∧ covers scenario_A r x).
Proof.
  apply (@cobble_partition insertion_order).
  - exact scenario_A_valid.
  - exact scenario_A_same_chrom.
Defined.

Lemma cobble_transcripts_witness :
  ∃ h' pieces,
    @cobble insertion_order [0%nat; 1%nat] false scenario_A = (h', Ok pieces) ∧
    ∀ p t, p ∈ pieces →
      t ∈ transcripts_of h' p ↔
      ∃ r, r ∈ [0%nat; 1%nat] ∧ (∃ x, covers scenario_A r x ∧ covers h' p x) ∧
           t ∈ transcripts_of scenario_A r.
Proof.
  apply (@cobble_transcripts insertion_order).
  - exact scenario_A_valid.
  - exact scenario_A_same_chrom.
Defined.

(** ** Rationals *)

Lemma natQc_S (n : nat) : natQc (S n) = (natQc n + 1)%Qc.
Proof.
  apply Qc_is_canon. unfold natQc, Qcplus, Q2Qc. simpl this.
  rewrite !Qred_correct, Nat2Z.inj_succ. unfold Z.succ.
  by rewrite inject_Z_plus.
Qed.

Lemma natQc_0 : natQc 0 = 0%Qc.
Proof. by apply Qc_is_canon. Qed.

Lemma natQc_neq_0 (n : nat) : (0 < n)%nat → natQc n ≠ 0%Qc.
Proof.
  intros Hn Heq. apply (f_equal this) in Heq. unfold natQc in Heq.
  simpl in Heq. apply (f_equal Qnum) in Heq.
  assert (Qred (inject_Z (Z.of_nat n)) == inject_Z (Z.of_nat n))%Q as Hr
    by apply Qred_correct.
  unfold Qeq in Hr. simpl in *. lia.
Qed.

Lemma sumQc_indicator {A} (P : A → Prop) `{∀ x, Decision (P x)} (q : Qc)
    (l : list A) :
  sumQc ((λ x, (if bool_decide (P x) then 1 else 0) / q)%Qc <$> l)
  = (natQc (length (filter P l)) / q)%Qc.
Proof.
  induction l as [|x l IH].
  { cbn. rewrite natQc_0. unfold Qcdiv. ring. }
  rewrite fmap_cons, filter_cons.
  change (sumQc (?a :: ?k)) with (a + sumQc k)%Qc. rewrite IH.
  destruct (decide (P x)) as [HP|HP].
  - rewrite bool_decide_eq_true_2 by done. cbn [length]. rewrite natQc_S.
    unfold Qcdiv. ring.
  - rewrite bool_decide_eq_false_2 by done. unfold Qcdiv. ring.
Qed.

(** ** Dicts of lists *)

Lemma rmap_ok {A B} (f : A → result B) (g : A → B) (l : list A) :
  (∀ x, x ∈ l → f x = Ok (g x)) → rmap f l = Ok (g <$> l).
Proof.
  induction l as [|x l IH]; intros Hf; [done|].
  cbn [rmap]. rewrite Hf by left. cbn [rbind].
  rewrite IH by (intros; apply Hf; by right). done.
Qed.

Section setdefault.
Context `{Countable K} {V X : Type} (key : X → K) (val : X → V).

Lemma lookup_setdefault_append (k t : K) (v : V) (d : gmap K (list V)) :
  default [] (setdefault_append k v d !! t)
  = default [] (d !! t) ++ (if decide (k = t) then [v] else []).
Proof.
  unfold setdefault_append. destruct (decide (k = t)) as [->|Hne].
  - by rewrite lookup_insert_eq.
  - rewrite lookup_insert_ne by done. by rewrite app_nil_r.
Qed.

Lemma setdefault_append_is_Some (k t : K) (v : V) (d : gmap K (list V)) :
  is_Some (setdefault_append k v d !! t) ↔ is_Some (d !! t) ∨ k = t.
Proof.
  unfold setdefault_append. destruct (decide (k = t)) as [->|Hne].
  - rewrite lookup_insert_eq. split; [by right|by eexists].
  - rewrite lookup_insert_ne by done. split; [by left|by intros [?|?]].
Qed.

Lemma foldl_setdefault_lookup (xs : list X) (d : gmap K (list V)) (t : K) :
  default [] (foldl (λ d x, setdefault_append (key x) (val x) d) d xs !! t)
  = default [] (d !! t) ++ (val <$> filter (λ x, key x = t) xs).
Proof.
  revert d. induction xs as [|x xs IH]; intros d; simpl.
  { by rewrite app_nil_r. }
  rewrite IH, lookup_setdefault_append, filter_cons, <-app_assoc.
  by destruct (decide (key x = t)).
Qed.

Lemma foldl_setdefault_is_Some (xs : list X) (d : gmap K (list V)) (t : K) :
  is_Some (foldl (λ d x, setdefault_append (key x) (val x) d) d xs !! t)
  ↔ is_Some (d !! t) ∨ ∃ x, x ∈ xs ∧ key x = t.
Proof.
  revert d. induction xs as [|x xs IH]; intros d; simpl.
  { split; [by left|]. intros [?|(x & Hx & _)]; [done|by inv Hx]. }
  rewrite IH, setdefault_append_is_Some. split.
  - intros [[?|?]|(y & ? & ?)]; [by left|right..].
    + exists x. split; [left|done].
    + exists y. split; [by right|done].
  - intros [?|(y & [->|?]%elem_of_cons & ?)];
      [by left; left|by left; right|right; by exists y].
Qed.

(** A dict built from the empty one holds, at a key it has, the values
    appended to that key, of which there is one at least. *)
Lemma foldl_setdefault_empty (xs : list X) (t : K) :
  let d := foldl (λ d x, setdefault_append (key x) (val x) d) ∅ xs in
  (d !! t = None ∧ filter (λ x, key x = t) xs = []) ∨
  (d !! t = Some (val <$> filter (λ x, key x = t) xs) ∧
   filter (λ x, key x = t) xs ≠ []).
Proof.
  intros d. pose proof (foldl_setdefault_lookup xs ∅ t) as Hl.
  pose proof (foldl_setdefault_is_Some xs ∅ t) as Hs.
  fold d in Hl, Hs. rewrite lookup_empty in Hl, Hs. simpl in Hl.
  destruct (filter (λ x, key x = t) xs) as [|y l] eqn:Hf.
  - left. split; [|done]. apply eq_None_not_Some. intros Hsome.
    apply Hs in Hsome as [[? [=]]|(x & Hx & Hk)].
    assert (x ∈ filter (λ x, key x = t) xs) as Hin
      by (by apply list_elem_of_filter).
    rewrite Hf in Hin. by inv Hin.
  - right. split; [|done].
    assert (y ∈ filter (λ x, key x = t) xs) as [Hk Hy]%list_elem_of_filter
      by (rewrite Hf; left).
    destruct (proj2 Hs) as [l' Hl']; [right; by exists y|].
    rewrite Hl' in Hl. simpl in Hl. by rewrite Hl' , Hl.
Qed.
End setdefault.

(** ** The structure matrix *)

Lemma count_of_NoDup `{EqDecision A} (x : A) (l : list A) :
  NoDup l → count_of x l = if decide (x ∈ l) then 1%nat else 0%nat.
Proof.
  induction 1 as [|y l Hy _ IH]; [done|].
  rewrite count_of_cons, IH.
  destruct (decide (y = x)) as [->|Hne].
  - rewrite decide_False by done. rewrite decide_True by left. done.
  - destruct (decide (x ∈ l)) as [Hx|Hx].
    + rewrite decide_True by (by right). done.
    + rewrite decide_False; [done|]. by intros [?|?]%elem_of_cons.
Qed.

Lemma build_tp_map_pairs (pieces : list Exon) :
  build_tp_map pieces
  = foldl (λ d x, setdefault_append x.1 x.2 d) ∅ (tp_pairs pieces).
Proof.
  unfold build_tp_map, tp_pairs. generalize (∅ : gmap string (list string)).
  induction pieces as [|p pieces IH]; intros d; [done|].
  rewrite bind_cons, foldl_app, foldl_fmap. cbn [foldl]. apply IH.
Qed.

Lemma tp_pairs_count (t : string) (pieces : list Exon) :
  Forall (λ p, NoDup (transcripts p)) pieces →
  length (filter (λ x : string * string, x.1 = t) (tp_pairs pieces))
  = pieces_with t pieces.
Proof.
  unfold tp_pairs, pieces_with.
  induction 1 as [|p pieces Hp _ IH]; [done|].
  rewrite bind_cons, filter_app, length_app, IH, filter_cons.
  assert (length (filter (λ x : string * string, x.1 = t)
                    ((λ tx, (tx, name p)) <$> transcripts p))
          = count_of t (transcripts p)) as ->.
  { unfold count_of. generalize (transcripts p). intros l.
    induction l as [|y l IHl]; [done|].
    rewrite fmap_cons, !filter_cons. simpl.
    destruct (decide (y = t)); simpl; by rewrite IHl. }
  rewrite count_of_NoDup by done.
  destruct (decide (t ∈ transcripts p)); done.
Qed.

Lemma build_tp_map_lookup (pieces : list Exon) (t : string) :
  Forall (λ p, NoDup (transcripts p)) pieces →
  (∃ p, p ∈ pieces ∧ t ∈ transcripts p) →
  ∃ l, build_tp_map pieces !! t = Some l ∧
       length l = pieces_with t pieces ∧ (0 < pieces_with t pieces)%nat.
Proof.
  intros Hnd (p & Hp & Ht). rewrite build_tp_map_pairs.
  destruct (foldl_setdefault_empty (λ x : string * string, x.1)
              (λ x : string * string, x.2) (tp_pairs pieces) t)
    as [[_ Hnil]|[Hl Hne]].
  - exfalso. eapply (filter_nil_not_elem_of _ _ (t, name p)); [done|done|].
    unfold tp_pairs. apply list_elem_of_bind. exists p. split; [|done].
    apply list_elem_of_fmap. by exists t.
  - eexists. split; [done|]. rewrite length_fmap, tp_pairs_count by done.
    split; [done|]. rewrite <-(tp_pairs_count t pieces) by done.
    destruct (filter _ (tp_pairs pieces)); [done|simpl; lia].
Qed.

Lemma Avals_spec (pieces : list Exon) (txs : list string) :
  Forall (λ p, NoDup (transcripts p)) pieces →
  (∀ t, t ∈ txs → ∃ p, p ∈ pieces ∧ t ∈ transcripts p) →
  Avals pieces txs = Ok ((λ p, entry pieces p <$> txs) <$> pieces).
Proof.
  intros Hnd Htx. unfold Avals. apply rmap_ok. intros p _.
  apply rmap_ok. intros t Ht.
  destruct (build_tp_map_lookup pieces t Hnd (Htx t Ht)) as (l & Hl & Hlen & Hpos).
  unfold Aval, entry. rewrite Hl. rewrite decide_False by lia.
  by rewrite Hlen.
Qed.

Lemma entry_zero (pieces : list Exon) (p : Exon) (t : string) :
  (0 < pieces_with t pieces)%nat →
  entry pieces p t = 0%Qc ↔ t ∉ transcripts p.
Proof.
  intros Hpos. unfold entry. split.
  - intros Hz Ht. rewrite bool_decide_eq_true_2 in Hz by done.
    apply (natQc_neq_0 _ Hpos).
    assert (1 / natQc (pieces_with t pieces) * natQc (pieces_with t pieces)
            = 0 * natQc (pieces_with t pieces))%Qc as Hm by (by rewrite Hz).
    revert Hm. unfold Qcdiv. rewrite <-Qcmult_assoc.
    rewrite (Qcmult_comm (/ _)), Qcmult_inv_r by (by apply natQc_neq_0).
    rewrite Qcmult_1_l, Qcmult_0_l. done.
  - intros Ht. rewrite bool_decide_eq_false_2 by done. unfold Qcdiv. ring.
Qed.

Section matrix.
Context `{HashOrder}.

Lemma rewrite_pieces_spec (tx_replace : gmap string string) (acc : list string)
    (pieces : list Exon) :
  (rewrite_pieces tx_replace acc pieces).1
    = (λ p, set_transcripts (filtered tx_replace p) p) <$> pieces ∧
  ∀ t, t ∈ (rewrite_pieces tx_replace acc pieces).2 ↔
       t ∈ acc ∨ ∃ p, p ∈ pieces ∧ t ∈ filtered tx_replace p.
Proof.
  revert acc. induction pieces as [|p pieces IH]; intros acc.
  { split; [done|]. intros t. simpl. split; [by left|].
    intros [?|(p & Hp & _)]; [done|by inv Hp]. }
  cbn [rewrite_pieces].
  destruct (IH (dedup (acc ++ filtered tx_replace p))) as [IH1 IH2].
  destruct (rewrite_pieces tx_replace _ pieces) as [ps acc'].
  simpl in *. split; [by rewrite IH1|].
  intros t. rewrite IH2, elem_of_dedup, elem_of_app. split.
  - intros [[?|?]|(q & ? & ?)]; [by left|right..].
    + exists p. split; [left|done].
    + exists q. split; [by right|done].
  - intros [?|(q & [->|?]%elem_of_cons & ?)];
      [by left; left|by left; right|right; by exists q].
Qed.

(** The rewritten pieces hold no transcript twice, and [transcripts] lists
    the transcripts they hold. *)
Lemma collapse_spec (pieces : list Exon) :
  (collapse pieces).1
    = (λ p, set_transcripts (filtered (tx_replace_of pieces) p) p) <$> pieces ∧
  Forall (λ p, NoDup (transcripts p)) (collapse pieces).1 ∧
  ∀ t, t ∈ (collapse pieces).2 ↔
       ∃ p, p ∈ (collapse pieces).1 ∧ t ∈ transcripts p.
Proof.
  unfold collapse.
  destruct (rewrite_pieces_spec (tx_replace_of pieces) [] pieces) as [H1 H2].
  destruct (rewrite_pieces _ [] pieces) as [ps acc]. simpl in *. subst ps.
  split; [done|]. split.
  - apply Forall_fmap, Forall_forall. intros p _. simpl. apply NoDup_list_set.
  - intros t. rewrite hash_order_perm, H2. split.
    + intros [Ht|(p & Hp & Ht)]; [by inv Ht|].
      eexists. split; [apply list_elem_of_fmap; by exists p|done].
    + intros (q & (p & -> & Hp)%list_elem_of_fmap & Ht). right. by exists p.
Qed.

(** The matrix is built, and what its entries are. *)
Lemma structure_matrix_spec (pieces : list Exon) :
  structure_matrix pieces
  = Ok ((collapse pieces).1, (collapse pieces).2,
        (λ p, entry (collapse pieces).1 p <$> (collapse pieces).2)
          <$> (collapse pieces).1) ∧
  ∀ t, t ∈ (collapse pieces).2 → (0 < pieces_with t (collapse pieces).1)%nat.
Proof.
  destruct (collapse_spec pieces) as (_ & Hnd & Htx).
  unfold structure_matrix. destruct (collapse pieces) as [ps txs]. simpl in *.
  rewrite Avals_spec; [|done|by intros t Ht; apply Htx]. split; [done|].
  intros t Ht. apply Htx in Ht as (p & Hp & Ht). unfold pieces_with.
  assert (p ∈ filter (λ p, t ∈ transcripts p) ps) as Hin
    by (by apply list_elem_of_filter).
  destruct (filter _ ps); [by inv Hin|simpl; lia].
Qed.


(** X2.  With [k] the number of pieces, of any length, that hold the
    transcript [t] of the list [transcripts], the entry of a piece in the
    column of [t] is [1/k] when the piece holds [t] and 0 otherwise; it is 0
    exactly when the piece does not hold [t]. *)
Theorem structure_matrix_entries (pieces : list Exon) :
  ∃ ps txs A,
    structure_matrix pieces = Ok (ps, txs, A) ∧
    ∀ i j p t, ps !! i = Some p → txs !! j = Some t →
      ∃ a, (A !! i) ≫= (λ row, row !! j) = Some a ∧
           (0 < pieces_with t ps)%nat ∧
           a = (if bool_decide (t ∈ transcripts p)
                then 1 / natQc (pieces_with t ps) else 0)%Qc ∧
           (a = 0%Qc ↔ t ∉ transcripts p).
Proof.
  destruct (structure_matrix_spec pieces) as [Hrun Hpos].
  do 3 eexists. split; [done|]. intros i j p t Hi Hj.
  assert (t ∈ (collapse pieces).2) as Ht by (by eapply list_elem_of_lookup_2).
  exists (entry (collapse pieces).1 p t).
  rewrite list_lookup_fmap, Hi. simpl. rewrite list_lookup_fmap, Hj. simpl.
  split; [done|]. split; [by apply Hpos|]. split.
  - unfold entry. destruct (bool_decide _); [done|]. unfold Qcdiv. ring.
  - by apply entry_zero, Hpos.
Qed.
End matrix.

Lemma structure_matrix_entries_witness :
  ∃ ps txs A,
    @structure_matrix insertion_order two_pieces = Ok (ps, txs, A) ∧
    ∀ i j p t, ps !! i = Some p → txs !! j = Some t →
      ∃ a, (A !! i) ≫= (λ row, row !! j) = Some a ∧
           (0 < pieces_with t ps)%nat ∧
           a = (if bool_decide (t ∈ transcripts p)
                then 1 / natQc (pieces_with t ps) else 0)%Qc ∧
           (a = 0%Qc ↔ t ∉ transcripts p).
Proof. apply (@structure_matrix_entries insertion_order). Defined.

(** ** Counting reads, continued *)

Lemma NH_weights_values (a : Alignment) :
  if decide (0 ∈ NH_values a) then Counter.NH_weights (tags a) = Raise ZeroDivisionError
  else Counter.NH_weights (tags a)
       = Ok ((λ v, (1 / Q2Qc (inject_Z v))%Qc) <$> NH_values a).
Proof.
  unfold NH_values. induction (tags a) as [|[k v] l IH]; [done|].
  rewrite filter_cons. cbn [Counter.NH_weights fst].
  destruct (decide (k = "NH")) as [->|Hk].
  - rewrite fmap_cons. cbn [snd]. destruct (decide (v = 0)) as [->|Hv].
    + rewrite decide_True by left. done.
    + destruct (decide (0 ∈ snd <$> filter _ l)) as [Hin|Hin].
      * rewrite decide_True by (by right). by rewrite IH.
      * rewrite decide_False by (intros [?|?]%elem_of_cons; [congruence|done]).
        by rewrite IH.
  - done.
Qed.

Lemma elem_of_NH_values (a : Alignment) (v : Z) :
  v ∈ NH_values a ↔ ("NH", v) ∈ tags a.
Proof.
  unfold NH_values. rewrite list_elem_of_fmap. split.
  - intros ([k w] & -> & [Hk Hin]%list_elem_of_filter). simpl in *. by subst.
  - intros Hin. exists ("NH", v). split; [done|]. by apply list_elem_of_filter.
Qed.

Lemma NH0_weight (a : Alignment) :
  if decide (0 ∈ NH_values a) then Counter.NH0 a = Raise ZeroDivisionError
  else Counter.NH0 a = Ok (weight a).
Proof.
  pose proof (NH_weights_values a) as Hw. unfold Counter.NH0, weight.
  destruct (decide (0 ∈ NH_values a)); rewrite Hw; [done|].
  cbn [rbind]. by destruct (NH_values a).
Qed.

Lemma weight_bounds (a : Alignment) :
  (∀ v, v ∈ NH_values a → 0 < v) → (0 < weight a)%Qc ∧ (weight a <= 1)%Qc.
Proof.
  unfold weight. destruct (NH_values a) as [|v l]; intros Hv.
  { split; [reflexivity|apply Qcle_refl]. }
  assert (0 < v) as Hpos by (apply Hv; left). clear Hv.
  unfold Qclt, Qcle, Qcdiv, Qcmult, Qcinv. cbn [this Q2Qc].
  rewrite !Qred_correct.
  destruct v as [|p|p]; [lia| |lia].
  unfold Qlt, Qle, Qmult, Qinv, inject_Z. cbn. lia.
Qed.

(** X3.  In either mode a counter called on a read raises
    [ZeroDivisionError] exactly when one of the [NH] tags of the read, the
    first or a later one, has the value 0; on any other read it returns. *)
Theorem call_ZeroDivisionError (c : Counter.t) (a : Alignment) :
  (Counter.call c a = Raise ZeroDivisionError ↔ ("NH", 0) ∈ tags a) ∧
  ((∃ c', Counter.call c a = Ok c') ↔ ("NH", 0) ∉ tags a).
Proof.
  rewrite <-elem_of_NH_values. pose proof (NH0_weight a) as Hw.
  unfold Counter.call, Counter.count, Counter.count_stranded.
  destruct (decide (0 ∈ NH_values a)) as [Hin|Hin]; rewrite Hw; cbn [rbind].
  - destruct (Counter.stranded c); (split; [done|]);
      (split; [by intros [? [=]]|done]).
  - destruct (Counter.stranded c); [destruct (_ || _)|];
      (split; [split; [done|by intros ?]|]); (split; [done|by eexists]).
Qed.

(** X4.  The unstranded [count] adds to [n] the weight of the read, which is
    the inverse of its first [NH] tag, or 1 for a read without one; it adds 1
    to [n_raw] and leaves the rest of the counter alone. *)
Theorem count_adds_weight (c c' : Counter.t) (a : Alignment) :
  Counter.count c a = Ok c' →
  c' = Counter.mk (Counter.n c + weight a)%Qc (Counter.n_raw c + 1)
         (Counter.n_ws c) (Counter.strand c) (Counter.stranded c).
Proof.
  pose proof (NH0_weight a) as Hw. unfold Counter.count.
  destruct (decide (0 ∈ NH_values a)); rewrite Hw; cbn [rbind]; [done|].
  by intros [= <-].
Qed.

Lemma count_adds_weight_witness :
  Counter.mk (Q2Qc (1 # 2)) 1 0%Qc 0 false
  = Counter.mk (Counter.n (Counter.init false)
                + weight read_NH2)%Qc
      (Counter.n_raw (Counter.init false) + 1)
      (Counter.n_ws (Counter.init false)) (Counter.strand (Counter.init false))
      (Counter.stranded (Counter.init false)).
Proof.
  apply (count_adds_weight (Counter.init false) _ read_NH2).
  vm_compute. reflexivity.
Defined.

(** X5.  The stranded [count_stranded] puts the weight of the read in [n]
    when the strand of the counter and the direction of the read agree and
    in [n_ws] otherwise, so that [n + n_ws] grows by that weight; [n_raw] is
    never changed. *)
Theorem count_stranded_conserves (c c' : Counter.t) (a : Alignment) :
  Counter.count_stranded c a = Ok c' →
  (Counter.n c' + Counter.n_ws c' = Counter.n c + Counter.n_ws c + weight a)%Qc ∧
  Counter.n_raw c' = Counter.n_raw c ∧
  (if decide ((Counter.strand c = 1 ∧ is_reverse a = false) ∨
              (Counter.strand c = -1 ∧ is_reverse a = true))
   then Counter.n_ws c' = Counter.n_ws c
   else Counter.n c' = Counter.n c).
Proof.
  pose proof (NH0_weight a) as Hw. unfold Counter.count_stranded.
  destruct (decide (0 ∈ NH_values a)); rewrite Hw; cbn [rbind]; [done|].
  destruct (decide (_ ∨ _)) as [Hd|Hd].
  - assert (bool_decide (Counter.strand c = 1) && bool_decide (is_reverse a = false)
            || bool_decide (Counter.strand c = -1) && bool_decide (is_reverse a = true)
            = true) as ->.
    { destruct Hd as [[-> ->]|[-> ->]]; done. }
    intros [= <-]. cbn. split; [ring|done].
  - assert (bool_decide (Counter.strand c = 1) && bool_decide (is_reverse a = false)
            || bool_decide (Counter.strand c = -1) && bool_decide (is_reverse a = true)
            = false) as ->.
    { apply orb_false_iff. split; apply andb_false_iff.
      - destruct (decide (Counter.strand c = 1)) as [Hs|Hs];
          [|left; by apply bool_decide_eq_false_2].
        right. apply bool_decide_eq_false_2. intros Hr. apply Hd. by left.
      - destruct (decide (Counter.strand c = -1)) as [Hs|Hs];
          [|left; by apply bool_decide_eq_false_2].
        right. apply bool_decide_eq_false_2. intros Hr. apply Hd. by right. }
    intros [= <-]. cbn. split; [ring|done].
Qed.

Lemma count_stranded_conserves_witness :
  let c := Counter.mk 0%Qc 0 0%Qc (-1) true in
  let a := read_NH2 in
  let c' := Counter.mk (Q2Qc (1 # 2)) 0 0%Qc (-1) true in
  (Counter.n c' + Counter.n_ws c' = Counter.n c + Counter.n_ws c + weight a)%Qc ∧
  Counter.n_raw c' = Counter.n_raw c ∧
  (if decide ((Counter.strand c = 1 ∧ is_reverse a = false) ∨
              (Counter.strand c = -1 ∧ is_reverse a = true))
   then Counter.n_ws c' = Counter.n_ws c
   else Counter.n c' = Counter.n c).
Proof.
  apply (count_stranded_conserves (Counter.mk 0%Qc 0 0%Qc (-1) true)).
  vm_compute. reflexivity.
Defined.

Lemma sumQc_cons (q : Qc) (l : list Qc) : sumQc (q :: l) = (q + sumQc l)%Qc.
Proof. done. Qed.

(** X6.  A stranded counter whose [strand] is neither 1 nor -1, as it is
    after [Counter(stranded=True)], counts every read of a visit as a read
    of the wrong strand: [n] and [n_raw] stay as they were and [n_ws] grows
    by the weights of all the reads. *)
Theorem visit_stranded_unset (c c' : Counter.t) (reads : list Alignment) :
  Counter.stranded c = true → Counter.strand c ≠ 1 → Counter.strand c ≠ -1 →
  visit c reads = Ok c' →
  Counter.n c' = Counter.n c ∧ Counter.n_raw c' = Counter.n_raw c ∧
  Counter.n_ws c' = (Counter.n_ws c + sumQc (weight <$> reads))%Qc.
Proof.
  revert c. induction reads as [|a reads IH]; intros c Hst H1 H2.
  { intros [= <-]. cbn. repeat split. ring. }
  cbn [visit]. unfold Counter.call, Counter.count_stranded. rewrite Hst.
  pose proof (NH0_weight a) as Hw.
  destruct (decide (0 ∈ NH_values a)); rewrite Hw; cbn [rbind]; [done|].
  rewrite (bool_decide_eq_false_2 (Counter.strand c = 1)) by done.
  rewrite (bool_decide_eq_false_2 (Counter.strand c = -1)) by done.
  cbn [andb orb rbind]. intros Hv.
  apply IH in Hv as (Hn & Hr & Hws); [|done..]. cbn in Hn, Hr, Hws.
  rewrite Hn, Hr, Hws, fmap_cons, sumQc_cons. repeat split. ring.
Qed.

Lemma visit_stranded_unset_witness :
  let c' := Counter.mk 0%Qc 0 (Q2Qc (3 # 2)) 0 true in
  Counter.n c' = Counter.n (Counter.init true) ∧
  Counter.n_raw c' = Counter.n_raw (Counter.init true) ∧
  Counter.n_ws c' = (Counter.n_ws (Counter.init true)
                     + sumQc (weight <$> [read_NH2; mkAlignment [] false]))%Qc.
Proof.
  apply (visit_stranded_unset (Counter.init true)); [done|done|done|].
  vm_compute. reflexivity.
Defined.

(** X7.  A visit by an unstranded counter adds the number of reads to
    [n_raw] and their weights to [n], and leaves [n_ws] alone. *)
Theorem visit_unstranded (c c' : Counter.t) (reads : list Alignment) :
  Counter.stranded c = false → visit c reads = Ok c' →
  Counter.n_raw c' = Counter.n_raw c + Z.of_nat (length reads) ∧
  Counter.n c' = (Counter.n c + sumQc (weight <$> reads))%Qc ∧
  Counter.n_ws c' = Counter.n_ws c ∧ Counter.stranded c' = false.
Proof.
  revert c. induction reads as [|a reads IH]; intros c Hst.
  { intros [= <-]. cbn. repeat split; [lia|ring|done]. }
  cbn [visit]. unfold Counter.call, Counter.count. rewrite Hst.
  pose proof (NH0_weight a) as Hw.
  destruct (decide (0 ∈ NH_values a)); rewrite Hw; cbn [rbind]; [done|].
  intros Hv. apply IH in Hv as (Hr & Hn & Hws & Hs); [|done].
  cbn in Hr, Hn, Hws.
  rewrite Hr, Hn, Hws, fmap_cons, sumQc_cons, length_cons.
  repeat split; [lia|ring|done].
Qed.

Lemma visit_unstranded_witness :
  let c' := Counter.mk (Q2Qc (3 # 2)) 2 0%Qc 0 false in
  Counter.n_raw c' = Counter.n_raw (Counter.init false)
                     + Z.of_nat (length [read_NH2; mkAlignment [] false]) ∧
  Counter.n c' = (Counter.n (Counter.init false)
                  + sumQc (weight <$> [read_NH2; mkAlignment [] false]))%Qc ∧
  Counter.n_ws c' = Counter.n_ws (Counter.init false) ∧
  Counter.stranded c' = false.
Proof.
  apply (visit_unstranded (Counter.init false)); [done|].
  vm_compute. reflexivity.
Defined.

Lemma sumQc_weight_bounds (reads : list Alignment) :
  (∀ a v, a ∈ reads → ("NH", v) ∈ tags a → 0 < v) →
  (0 <= sumQc (weight <$> reads))%Qc ∧
  (sumQc (weight <$> reads) <= Q2Qc (inject_Z (Z.of_nat (length reads))))%Qc.
Proof.
  induction reads as [|a reads IH]; intros Hv.
  { split; apply Qcle_refl. }
  destruct IH as [IH0 IH1]; [intros b v ?; apply Hv; by right|].
  destruct (weight_bounds a) as [Hw0 Hw1].
  { intros v Hin. apply (Hv a); [left|by apply elem_of_NH_values]. }
  rewrite fmap_cons, sumQc_cons, length_cons. fold (natQc (S (length reads))).
  rewrite natQc_S. fold (natQc (length reads)) in IH1. split.
  - replace 0%Qc with (0 + 0)%Qc by ring.
    apply Qcplus_le_compat; [by apply Qclt_le_weak|done].
  - rewrite (Qcplus_comm (natQc _)). by apply Qcplus_le_compat.
Qed.

(** X8.  When every [NH] tag of the reads is positive, the weighted count
    [n] of a new unstranded counter lies, after a visit, between 0 and the
    raw count [n_raw]. *)
Theorem visit_weighted_le_raw (c' : Counter.t) (reads : list Alignment) :
  (∀ a v, a ∈ reads → ("NH", v) ∈ tags a → 0 < v) →
  visit (Counter.init false) reads = Ok c' →
  (0 <= Counter.n c')%Qc ∧
  (Counter.n c' <= Q2Qc (inject_Z (Counter.n_raw c')))%Qc.
Proof.
  intros Hv Hvis. destruct (sumQc_weight_bounds reads Hv) as [H0 H1].
  assert (∀ c, Counter.stranded c = false → visit c reads = Ok c' →
               Counter.n_raw c' = Counter.n_raw c + Z.of_nat (length reads) ∧
               Counter.n c' = (Counter.n c + sumQc (weight <$> reads))%Qc)
    as Htot.
  { clear. induction reads as [|a reads IH]; intros c Hst.
    { intros [= <-]. cbn. split; [lia|ring]. }
    cbn [visit]. unfold Counter.call, Counter.count. rewrite Hst.
    pose proof (NH0_weight a) as Hw.
    destruct (decide (0 ∈ NH_values a)); rewrite Hw; cbn [rbind]; [done|].
    intros [Hr Hn]%IH; [|done]. cbn in Hr, Hn.
    rewrite Hr, Hn, fmap_cons, sumQc_cons, length_cons. split; [lia|ring]. }
  destruct (Htot (Counter.init false) eq_refl Hvis) as [Hr Hn].
  cbn in Hr, Hn. rewrite Hr, Hn, Qcplus_0_l. done.
Qed.

Lemma visit_weighted_le_raw_witness :
  let c' := Counter.mk (Q2Qc (3 # 2)) 2 0%Qc 0 false in
  (0 <= Counter.n c')%Qc ∧
  (Counter.n c' <= Q2Qc (inject_Z (Counter.n_raw c')))%Qc.
Proof.
  apply (visit_weighted_le_raw _ [read_NH2; mkAlignment [] false]).
  - assert (Forall (λ a, Forall (λ t : string * Z, t.1 = "NH" → 0 < t.2) (tags a))
                    [read_NH2; mkAlignment [] false]) as HF
      by (apply (bool_decide_unpack _); vm_compute; exact I).
    intros a v Ha Hv. rewrite Forall_forall in HF.
    specialize (HF a Ha). rewrite Forall_forall in HF. by apply (HF _ Hv).
  - vm_compute. reflexivity.
Defined.

(** ** The structure matrix, continued *)

Lemma tp_pairs_filter_nil (pieces : list Exon) (t : string) :
  filter (λ x : string * string, x.1 = t) (tp_pairs pieces) = [] ↔
  ∀ p, p ∈ pieces → t ∉ transcripts p.
Proof.
  split.
  - intros Hnil p Hp Ht.
    eapply (filter_nil_not_elem_of _ _ (t, name p)); [done|done|].
    unfold tp_pairs. apply list_elem_of_bind. exists p. split; [|done].
    apply list_elem_of_fmap. by exists t.
  - intros Hno. destruct (filter _ (tp_pairs pieces)) as [|x l] eqn:Hf; [done|].
    assert (x ∈ filter (λ x : string * string, x.1 = t) (tp_pairs pieces))
      as [Hx Hin]%list_elem_of_filter by (rewrite Hf; left).
    unfold tp_pairs in Hin. apply list_elem_of_bind in Hin as (p & Hin & Hp).
    apply list_elem_of_fmap in Hin as (tx & -> & Htx). simpl in Hx. subst tx.
    by destruct (Hno p Hp).
Qed.

Lemma build_tp_map_None (pieces : list Exon) (t : string) :
  build_tp_map pieces !! t = None ↔ ∀ p, p ∈ pieces → t ∉ transcripts p.
Proof.
  rewrite build_tp_map_pairs, <-tp_pairs_filter_nil.
  destruct (foldl_setdefault_empty (λ x : string * string, x.1)
              (λ x : string * string, x.2) (tp_pairs pieces) t)
    as [[Hl Hnil]|[Hl Hne]]; rewrite Hl; [done|].
  split; [done|]. intros Hnil. by destruct Hne.
Qed.

Lemma build_tp_map_nonempty (pieces : list Exon) (t : string) (l : list string) :
  build_tp_map pieces !! t = Some l → l ≠ [].
Proof.
  rewrite build_tp_map_pairs.
  destruct (foldl_setdefault_empty (λ x : string * string, x.1)
              (λ x : string * string, x.2) (tp_pairs pieces) t)
    as [[Hl Hnil]|[Hl Hne]]; rewrite Hl; [done|].
  intros [= <-]. by destruct (filter _ (tp_pairs pieces)).
Qed.

(** A row of the matrix is built unless a listed transcript is missing from
    [tp_map]; the piece of the row plays no part in that. *)
Lemma Aval_row (pieces : list Exon) (p : Exon) (txs : list string) :
  match rmap (Aval (build_tp_map pieces) p) txs with
  | Ok row => length row = length txs ∧
              ∀ t, t ∈ txs → is_Some (build_tp_map pieces !! t)
  | Raise e => ∃ k, e = KeyError k ∧ k ∈ txs ∧ build_tp_map pieces !! k = None
  end.
Proof.
  induction txs as [|t txs IH]; cbn [rmap].
  { split; [done|]. by inversion 1. }
  unfold Aval at 1.
  destruct (build_tp_map pieces !! t) as [l|] eqn:Hl.
  - apply build_tp_map_nonempty in Hl as Hne.
    rewrite decide_False by (by destruct l). cbn [rbind].
    destruct (rmap _ txs) as [row|e]; cbn [rbind].
    + destruct IH as [Hlen Hsome]. split; [by rewrite !length_cons, Hlen|].
      intros t' [->|?]%elem_of_cons; [by eexists|by apply Hsome].
    + destruct IH as (k & -> & Hk & Hnone). exists k. by repeat split; [right|].
  - cbn [rbind]. exists t. by repeat split; [left|].
Qed.

(** X9.  The matrix [Avals] of given pieces and transcripts is either built,
    with a row for every piece and an entry for every transcript, or the
    lookup [tp_map[t]] raises [KeyError] for a listed transcript that no piece
    holds, which happens exactly when there is a piece and such a transcript;
    the division by [len(tp_map[t])] never fails. *)
Theorem Avals_outcome (pieces : list Exon) (txs : list string) :
  match Avals pieces txs with
  | Ok A => length A = length pieces ∧
            Forall (λ row, length row = length txs) A ∧
            (pieces = [] ∨
             ∀ t, t ∈ txs → ∃ p, p ∈ pieces ∧ t ∈ transcripts p)
  | Raise e => pieces ≠ [] ∧
               ∃ k, e = KeyError k ∧ k ∈ txs ∧
                    ∀ p, p ∈ pieces → k ∉ transcripts p
  end.
Proof.
  unfold Avals.
  assert (∀ ps,
    match rmap (λ p, rmap (Aval (build_tp_map pieces) p) txs) ps with
    | Ok A => length A = length ps ∧
              Forall (λ row, length row = length txs) A ∧
              (ps = [] ∨ ∀ t, t ∈ txs → is_Some (build_tp_map pieces !! t))
    | Raise e => ps ≠ [] ∧
                 ∃ k, e = KeyError k ∧ k ∈ txs ∧ build_tp_map pieces !! k = None
    end) as Hrows.
  { induction ps as [|p ps IH]; cbn [rmap].
    { repeat split; [done|by left]. }
    pose proof (Aval_row pieces p txs) as Hrow.
    destruct (rmap (Aval _ p) txs) as [row|e]; cbn [rbind]; [|done].
    destruct Hrow as [Hlen Hsome].
    destruct (rmap _ ps) as [A|e]; cbn [rbind].
    - destruct IH as (HA & Hall & _).
      split; [by rewrite !length_cons, HA|]. split; [by constructor|by right].
    - destruct IH as [_ IH]. done. }
  specialize (Hrows pieces).
  destruct (rmap _ pieces) as [A|e].
  - destruct Hrows as (HA & Hall & Hcase). repeat split; [done..|].
    destruct Hcase as [?|Hsome]; [by left|right].
    intros t Ht. apply Hsome in Ht.
    destruct (decide (Exists (λ p, t ∈ transcripts p) pieces)) as [Hex|Hno].
    { by apply Exists_exists in Hex. }
    exfalso. destruct Ht as [l Hl].
    assert (build_tp_map pieces !! t = None) as Hnone; [|congruence].
    apply build_tp_map_None. intros p Hp Hin. apply Hno, Exists_exists.
    by exists p.
  - destruct Hrows as (Hne & k & -> & Hk & Hnone). split; [done|].
    exists k. repeat split; [done|]. by apply build_tp_map_None.
Qed.

Lemma rewrite_pieces_NoDup `{HashOrder} (tx_replace : gmap string string)
    (acc : list string) (pieces : list Exon) :
  NoDup acc → NoDup (rewrite_pieces tx_replace acc pieces).2.
Proof.
  revert acc. induction pieces as [|p pieces IH]; intros acc Hacc; [done|].
  cbn [rewrite_pieces].
  specialize (IH (dedup (acc ++ filtered tx_replace p)) (NoDup_dedup _)).
  by destruct (rewrite_pieces tx_replace _ pieces).
Qed.

(** X10.  For any pieces the matrix of a chunk is built: it has a row for
    every piece and a column for every entry of the list [transcripts], which
    names no transcript twice, and the pieces it is built from are as many
    as those given and list no transcript twice. *)
Theorem structure_matrix_shape `{HashOrder} (pieces : list Exon) :
  ∃ ps txs A,
    structure_matrix pieces = Ok (ps, txs, A) ∧
    length ps = length pieces ∧ length A = length pieces ∧
    Forall (λ row, length row = length txs) A ∧
    NoDup txs ∧ Forall (λ p, NoDup (transcripts p)) ps.
Proof.
  destruct (structure_matrix_spec pieces) as [Hrun _].
  destruct (collapse_spec pieces) as (Hps & Hnd & _).
  do 3 eexists. split; [done|].
  assert (length (collapse pieces).1 = length pieces) as Hlen
    by (by rewrite Hps, length_fmap).
  split; [done|]. split; [by rewrite length_fmap|].
  split; [|split; [|done]].
  - apply Forall_fmap, Forall_forall. intros p _. simpl. by rewrite length_fmap.
  - unfold collapse.
    pose proof (rewrite_pieces_NoDup (tx_replace_of pieces) [] pieces
                  (NoDup_nil_2)) as Hacc.
    destruct (rewrite_pieces _ [] pieces) as [ps acc]. simpl in *.
    by rewrite hash_order_perm.
Qed.

(** ** Collapsing transcripts *)

Lemma build_t2e_pairs `{HashOrder} (pieces : list Exon) :
  build_t2e pieces
  = foldl (λ d x, setdefault_append x.1 x.2 d) ∅ (t2e_pairs pieces).
Proof.
  unfold build_t2e, t2e_pairs. generalize (∅ : gmap string (list string)).
  induction pieces as [|p pieces IH]; intros d; [done|].
  rewrite bind_cons, foldl_app. cbn [foldl]. rewrite IH. f_equal.
  unfold t2e_add. destruct (bool_decide (length_ p < 100)); [done|].
  by rewrite foldl_fmap.
Qed.

Lemma build_t2e_lookup `{HashOrder} (pieces : list Exon) (t : string)
    (e : list string) :
  build_t2e pieces !! t = Some e ↔ e = retained_ids t pieces ∧ e ≠ [].
Proof.
  rewrite build_t2e_pairs. unfold retained_ids.
  destruct (foldl_setdefault_empty (λ x : string * string, x.1)
              (λ x : string * string, x.2) (t2e_pairs pieces) t)
    as [[Hl Hnil]|[Hl Hne]]; rewrite Hl.
  - rewrite Hnil. split; [done|]. by intros [-> ?].
  - split; [intros [= <-]|by intros [-> _]]. split; [done|].
    by destruct (filter _ (t2e_pairs pieces)).
Qed.

Lemma elem_of_iteritems `{HashOrder} `{Countable K} {V} (d : gmap K V) (k : K)
    (v : V) :
  (k, v) ∈ iteritems d ↔ d !! k = Some v.
Proof. unfold iteritems. by rewrite hash_order_perm, elem_of_map_to_list. Qed.

Lemma NoDup_fst_iteritems `{HashOrder} `{Countable K} {V} (d : gmap K V) :
  NoDup ((iteritems d).*1).
Proof. unfold iteritems. rewrite hash_order_perm. apply NoDup_fst_map_to_list. Qed.

(** The transcripts filed under a combination of identifiers. *)
Lemma build_e2t_lookup `{HashOrder} (t2e : gmap string (list string))
    (es tlist : list string) :
  build_e2t t2e !! es = Some tlist →
  NoDup tlist ∧
  ∀ t, t ∈ tlist ↔ ∃ e, t2e !! t = Some e ∧ sorted e = es.
Proof.
  unfold build_e2t.
  destruct (foldl_setdefault_empty (λ te : string * list string, sorted te.2)
              (λ te : string * list string, te.1) (iteritems t2e) es)
    as [[Hl Hnil]|[Hl Hne]]; rewrite Hl; [done|].
  intros [= <-]. split.
  - apply (sublist_NoDup _ ((iteritems t2e).*1));
      [apply NoDup_fst_iteritems|apply fmap_sublist, sublist_filter].
  - intros t. rewrite list_elem_of_fmap. split.
    + intros ([t' e] & -> & [Hs Hin]%list_elem_of_filter). simpl in *.
      exists e. split; [by apply elem_of_iteritems|done].
    + intros (e & He & Hs). exists (t, e). split; [done|].
      apply list_elem_of_filter. split; [done|by apply elem_of_iteritems].
Qed.

Lemma dict_of_pairs_lookup (pairs : list (string * string)) (k v : string) :
  dict_of_pairs pairs !! k = Some v → (k, v) ∈ pairs.
Proof.
  unfold dict_of_pairs.
  assert (∀ d : gmap string string,
            foldl (λ d (kv : string * string), <[kv.1 := kv.2]> d) d pairs
               !! k = Some v → d !! k = Some v ∨ (k, v) ∈ pairs) as Hgen.
  { induction pairs as [|[k' v'] pairs IH]; intros d; simpl; [by left|].
    intros [Hd|Hin]%IH; [|right; by right].
    destruct (decide (k' = k)) as [->|Hne].
    - rewrite lookup_insert_eq in Hd. injection Hd as ->. right. left.
    - rewrite lookup_insert_ne in Hd by done. by left. }
  intros [Hd|?]%Hgen; [|done]. by rewrite lookup_empty in Hd.
Qed.

Lemma elem_of_concat {A} (x : A) (ls : list (list A)) :
  x ∈ concat ls ↔ ∃ l, l ∈ ls ∧ x ∈ l.
Proof.
  induction ls as [|l ls IH]; simpl.
  { split; [by inversion 1|]. intros (l & Hl & _). by inv Hl. }
  rewrite elem_of_app, IH. split.
  - intros [?|(k & ? & ?)]; [exists l; split; [left|done]|].
    exists k. split; [by right|done].
  - intros (k & [->|?]%elem_of_cons & ?); [by left|right; by exists k].
Qed.

(** A replaced transcript and its replacement are filed under the same
    combination, the replacement first. *)
Lemma tx_replace_group `{HashOrder} (e2t : gmap (list string) (list string))
    (t r : string) :
  build_tx_replace e2t !! t = Some r →
  ∃ es bad, e2t !! es = Some (r :: bad) ∧ t ∈ bad.
Proof.
  unfold build_tx_replace. intros Hin%dict_of_pairs_lookup.
  apply elem_of_concat in Hin as (prs & Hprs & Hin).
  apply list_elem_of_fmap in Hprs as (tlist & -> & Htl).
  apply list_elem_of_fmap in Htl as ([es tl] & -> & Hes). simpl in Hin.
  apply elem_of_iteritems in Hes. destruct tl as [|t0 bad]; [by inv Hin|].
  simpl in Hin. apply list_elem_of_fmap in Hin as (badt & [= -> ->] & Hbad).
  by exists es, bad.
Qed.



(** X12.  Collapsing rewrites nothing but the transcripts of a piece: the
    piece at every position keeps its other attributes, and it lists,
    once each, its former transcripts with the replaced ones exchanged for
    their replacements. *)
Theorem collapse_pieces `{HashOrder} (pieces : list Exon) (i : nat) (p : Exon) :
  pieces !! i = Some p →
  ∃ p', (collapse pieces).1 !! i = Some p' ∧
        p' = set_transcripts (transcripts p') p ∧ NoDup (transcripts p') ∧
        ∀ t', t' ∈ transcripts p' ↔
              ∃ t, t ∈ transcripts p ∧
                   t' = default t (tx_replace_of pieces !! t).
Proof.
  intros Hi. destruct (collapse_spec pieces) as (Hps & _ & _).
  rewrite Hps, list_lookup_fmap, Hi. eexists. split; [done|].
  simpl. split; [done|]. split; [apply NoDup_list_set|].
  intros t'. unfold filtered. rewrite elem_of_list_set, list_elem_of_fmap.
  naive_solver.
Qed.

Lemma collapse_pieces_witness :
  ∃ p', (@collapse insertion_order shared_pieces).1 !! 1%nat = Some p' ∧
        p' = set_transcripts (transcripts p') (exon_at "E2" 200 240 ["T2"; "T3"]) ∧
        NoDup (transcripts p') ∧
        ∀ t', t' ∈ transcripts p' ↔
              ∃ t, t ∈ transcripts (exon_at "E2" 200 240 ["T2"; "T3"]) ∧
                   t' = default t (@tx_replace_of insertion_order shared_pieces !! t).
Proof. apply (@collapse_pieces insertion_order). reflexivity. Defined.

(** ** [cobble]: edge cases and the shape of the pieces *)

Lemma list_remove_not_elem_of (r : ref) (l : list ref) :
  r ∉ l → list_remove r l = Raise (ValueError "list.remove(x): x not in list").
Proof.
  induction l as [|y l IH]; [done|]. intros Hr. simpl.
  rewrite decide_False by (intros ->; apply Hr; left).
  rewrite IH; [done|]. intros ?. apply Hr. by right.
Qed.

Lemma list_remove_Ok (r : ref) (l l' : list ref) :
  list_remove r l = Ok l' →
  r ∈ l ∧ (∀ x, x ∈ l' → x ∈ l) ∧ ∀ x, (count_of x l' ≤ count_of x l)%nat.
Proof.
  intros Hrm. destruct (decide (r ∈ l)) as [Hin|Hin].
  - destruct (list_remove_elem_of r l Hin) as (l'' & Hrm' & Hc & _).
    rewrite Hrm in Hrm'. injection Hrm' as <-. split; [done|]. split.
    + intros x Hx%count_of_pos. apply count_of_pos. rewrite Hc. lia.
    + intros x. rewrite Hc. lia.
  - by rewrite list_remove_not_elem_of in Hrm.
Qed.

Lemma activate_Ok (a : Event) (active active' : list ref) :
  activate a active = Ok active' →
  (∀ x, x ∈ active' → x ∈ active ∨ x = feat a) ∧
  (∀ x, (count_of x active'
         ≤ count_of x active
           + if decide (kind a = 1%Z ∧ feat a = x) then 1 else 0)%nat).
Proof.
  unfold activate. destruct (decide (kind a = 1)) as [Hk|Hk].
  - intros [= <-]. split.
    + intros x [?|Hx%list_elem_of_singleton]%elem_of_app; auto.
    + intros x. rewrite count_of_app, count_of_cons, count_of_nil.
      destruct (decide (feat a = x)).
      * rewrite decide_True by done. lia.
      * rewrite decide_False by (by intros [_ ?]). lia.
  - destruct (decide (kind a = 0)).
    + intros (_ & Hsub & Hc)%list_remove_Ok. split; [by left; apply Hsub|].
      intros x. specialize (Hc x). lia.
    + intros [= <-]. split; [by left|]. intros x. lia.
Qed.

Lemma activate_Raise (a : Event) (active : list ref) (err : exn) :
  activate a active = Raise err →
  err = ValueError "list.remove(x): x not in list".
Proof.
  unfold activate. destruct (decide (kind a = 1)); [done|].
  destruct (decide (kind a = 0)); [|done].
  intros Hrm. destruct (decide (feat a ∈ active)) as [Hf|Hf].
  - destruct (list_remove_elem_of _ _ Hf) as (? & Hrm' & _). congruence.
  - rewrite list_remove_not_elem_of in Hrm by done. by injection Hrm as <-.
Qed.

(** The loop emits one piece at most for every event but the last. *)
Lemma cobble_loop_length `{HashOrder} (ends : list Event) (active : list ref)
    (h h' : heap) (ps : list ref) :
  cobble_loop active ends h = (h', Ok ps) → (length ps ≤ pred (length ends))%nat.
Proof.
  revert active h h' ps. induction ends as [|a ends IH]; intros active h h' ps.
  { by intros [= _ <-]. }
  destruct ends as [|b rest]; [by intros [= _ <-]|].
  rewrite cobble_loop_step. unfold bind at 1. unfold lift.
  destruct (activate a active) as [active'|err]; [|done].
  destruct (decide (length active' = 0%nat)).
  { intros Hrun%IH. simpl in *. lia. }
  destruct (decide (pos a = pos b)).
  { intros Hrun%IH. simpl in *. lia. }
  unfold bind.
  destruct (emit (pos a, pos b, active') h) as [h1 [e|err]]; [|done].
  destruct (cobble_loop active' (b :: rest) h1) as [h2 [c|err]] eqn:Hrun; [|done].
  apply IH in Hrun. unfold ret. intros [= _ <-]. simpl in *. lia.
Qed.

Lemma starts_Ok `{HashOrder} (exons : list ref) (h h1 : heap) (evs : list Event) :
  starts exons h = (h1, Ok evs) → ∀ r, r ∈ exons → is_Some (h !! r).
Proof.
  revert h1 evs. induction exons as [|r exons IH]; intros h1 evs; [by inversion 2|].
  cbn [starts]. unfold bind, load, ret.
  destruct (h !! r) as [e|] eqn:He; [|done].
  destruct (starts exons h) as [h2 [evs'|err]] eqn:Hst; [|done].
  intros _ r' [->|Hr']%elem_of_cons; [by rewrite He|].
  by eapply IH.
Qed.

(** When [cobble] returns it has run the loop over the sorted events. *)
Lemma cobble_Ok `{HashOrder} (exons : list ref) (multiple : bool) (h h' : heap)
    (ps : list ref) :
  cobble exons multiple h = (h', Ok ps) →
  (∀ r, r ∈ exons → is_Some (h !! r)) ∧
  cobble_loop [] (merge_sort event_le (events (start_of h) (end_of h) exons)) h
    = (h', Ok ps).
Proof.
  intros Hrun.
  assert (∀ r, r ∈ exons → is_Some (h !! r)) as Hv.
  { revert Hrun. unfold cobble, bind.
    destruct (starts exons h) as [h1 [s|err]] eqn:Hst; [|done].
    intros _. by eapply starts_Ok. }
  split; [done|]. by rewrite <-(cobble_events exons multiple h Hv).
Qed.

(** X13.  [cobble] returns at most [2n - 1] pieces for [n] exons, and none
    for none. *)
Theorem cobble_piece_count `{HashOrder} (exons : list ref) (multiple : bool)
    (h h' : heap) (ps : list ref) :
  cobble exons multiple h = (h', Ok ps) →
  (length ps ≤ 2 * length exons - 1)%nat.
Proof.
  intros [_ Hrun%cobble_loop_length]%cobble_Ok.
  rewrite merge_sort_Permutation in Hrun. unfold events in Hrun.
  rewrite length_app, !length_fmap in Hrun. lia.
Qed.

Lemma cobble_piece_count_witness :
  (length [2%nat; 3%nat; 4%nat] ≤ 2 * length [0%nat; 1%nat] - 1)%nat.
Proof.
  apply (@cobble_piece_count insertion_order [0%nat; 1%nat] false scenario_A
           (scenario_A ++ [set_end 50 (exon_at "E1" 0 100 ["T1"]);
              set_transcripts ["T1"; "T2"]
                (set_end 100 (set_start 50
                   (Exon_init [] "E1E2" "G" "Gapdh" "chr6" 0 0 "E1|E2" 0%Qc 1 2)));
              set_start 100 (exon_at "E2" 50 150 ["T2"])])).
  vm_compute. reflexivity.
Defined.

Lemma hash_order_singleton `{HashOrder} {A} (x : A) : hash_order [x] = [x].
Proof. apply Permutation_singleton_r, hash_order_perm. Qed.

Lemma set_boundaries_id (e : Exon) : set_end (end_ e) (set_start (start e) e) = e.
Proof. by destruct e. Qed.

(** X14.  Given one exon of positive length, [cobble] returns one piece: a
    new object with the attributes of the exon, that of [length] included. *)
Theorem cobble_single `{HashOrder} (r : ref) (multiple : bool) (h : heap)
    (e : Exon) :
  h !! r = Some e → start e < end_ e →
  cobble [r] multiple h = (h ++ [e], Ok [length h]).
Proof.
  intros He Hlt.
  rewrite cobble_events
    by (intros ? ->%list_elem_of_singleton; by rewrite He).
  assert (merge_sort event_le (events (start_of h) (end_of h) [r])
          = [(start e, 1, r); (end_ e, 0, r)]) as ->.
  { apply (StronglySorted_unique event_le).
    - apply StronglySorted_merge_sort; apply _.
    - repeat constructor. unfold event_le, pos, kind, feat. simpl. lia.
    - rewrite merge_sort_Permutation. unfold events, start_of, end_of.
      simpl. by rewrite He. }
  rewrite cobble_loop_step. unfold bind at 1. unfold lift, activate, kind, pos.
  cbn [fst snd]. rewrite decide_True by done. cbn [app length].
  rewrite decide_False by done. rewrite decide_False by lia.
  unfold feat. cbn [fst snd].
  assert (emit (start e, end_ e, [r]) h = (h ++ [e], Ok (length h))) as Hemit.
  { unfold emit, intersect_exons_list, list_set. cbn [fst snd dedup].
    rewrite filter_nil, hash_order_singleton.
    unfold deepcopy, bind, load, alloc. rewrite He.
    rewrite !setattr_last. unfold ret. by rewrite set_boundaries_id. }
  unfold bind. by rewrite Hemit.
Qed.

Lemma cobble_single_witness :
  @cobble insertion_order [1%nat] true scenario_A
  = (scenario_A ++ [exon_at "E2" 50 150 ["T2"]], Ok [length scenario_A]).
Proof. apply (@cobble_single insertion_order); [reflexivity|done]. Defined.

(** If the loop returns, so does the walk over the events that it makes. *)
Lemma cobble_loop_Ok_spans `{HashOrder} (ends : list Event) (active : list ref)
    (h h' : heap) (ps : list ref) :
  cobble_loop active ends h = (h', Ok ps) → ∃ sp, spans active ends = Ok sp.
Proof.
  revert active h h' ps. induction ends as [|a ends IH]; intros active h h' ps.
  { by eexists. }
  destruct ends as [|b rest]; [by eexists|].
  rewrite cobble_loop_step, spans_step. unfold bind at 1. unfold lift.
  destruct (activate a active) as [active'|err]; [|done]. cbn [rbind].
  destruct (decide (length active' = 0%nat)); [by apply IH|].
  destruct (decide (pos a = pos b)); [by apply IH|].
  unfold bind.
  destruct (emit (pos a, pos b, active') h) as [h1 [e|err]]; [|done].
  destruct (cobble_loop active' (b :: rest) h1) as [h2 [c|err]] eqn:Hrun; [|done].
  apply IH in Hrun as [sp ->]. by eexists.
Qed.

(** An exon that ends where it starts, or before, is closed before it is
    opened: the walk over the events does not get past its end. *)
Lemma spans_stop_first (st en : ref → Z) (exons : list ref) (r0 : ref)
    (suf pre : list Event) (active : list ref) :
  r0 ∈ exons → en r0 ≤ st r0 →
  pre ++ suf = merge_sort event_le (events st en exons) →
  (∀ r, (count_of r active ≤ count_of (st r, 1%Z, r) pre)%nat) →
  (en r0, 0, r0) ∈ suf →
  spans active suf = Raise (ValueError "list.remove(x): x not in list").
Proof.
  intros Hr0 Hlen. revert pre active.
  assert (∀ pre' suf' a,
            pre' ++ a :: suf' = merge_sort event_le (events st en exons) →
            a = (en r0, 0, r0) → (st r0, 1, r0) ∉ pre') as Hnot.
  { intros pre' suf' a HL -> Hin.
    assert (event_le (st r0, 1, r0) (en r0, 0, r0)) as Hle.
    { eapply (cut_before st en exons); [done|]. apply elem_of_app. by left. }
    revert Hle. unfold event_le, pos, kind, feat. simpl. lia. }
  induction suf as [|a suf IH]; intros pre active HL HW Hin; [by inv Hin|].
  destruct suf as [|b rest].
  { exfalso. apply list_elem_of_singleton in Hin. subst a.
    assert ((st r0, 1, r0) ∈ merge_sort event_le (events st en exons)) as Hs
      by (apply elem_of_sorted_events; eauto).
    rewrite <-HL in Hs.
    apply elem_of_app in Hs as [Hs|[=]%list_elem_of_singleton].
    by eapply Hnot. }
  rewrite spans_step.
  destruct (decide (a = (en r0, 0, r0))) as [->|Hne].
  { unfold activate, kind, feat. cbn [fst snd].
    rewrite decide_False by done. rewrite decide_True by done.
    rewrite list_remove_not_elem_of; [done|].
    intros Hact%count_of_pos. specialize (HW r0).
    assert ((st r0, 1, r0) ∈ pre) as Hs by (apply count_of_pos; lia).
    by eapply Hnot. }
  apply elem_of_cons in Hin as [?|Hin]; [done|].
  destruct (activate a active) as [active'|err] eqn:Hact.
  2:{ by apply activate_Raise in Hact as ->. }
  cbn [rbind].
  assert (spans active' (b :: rest)
          = Raise (ValueError "list.remove(x): x not in list")) as Hsp.
  { apply (IH (pre ++ [a])); [by rewrite <-app_assoc| |done].
    intros r. apply activate_Ok in Hact as [_ Hc]. specialize (Hc r).
    specialize (HW r). rewrite count_of_app, count_of_cons, count_of_nil.
    destruct (decide (kind a = 1 ∧ feat a = r)) as [[Hk Hf]|Hk]; [|lia].
    assert (a ∈ merge_sort event_le (events st en exons)) as Ha
      by (rewrite <-HL; set_solver).
    apply elem_of_sorted_events in Ha as (r' & _ & [->| ->]); [|done].
    unfold feat in Hf. simpl in Hf. subst r'. rewrite decide_True by done. lia. }
  rewrite Hsp. by repeat case_decide.
Qed.

(** On objects of one chromosome no merge fails: if the walk over the
    events raises, the loop raises the same. *)
Lemma cobble_loop_spans_Raise `{HashOrder} (S : ref → Prop) (c : string)
    (h0 : heap) (ends : list Event) (active : list ref) (h : heap) (err : exn) :
  (∀ r, S r → ∃ e, h0 !! r = Some e ∧ chrom e = c) →
  h0 `prefix_of` h → (∀ r, r ∈ active → S r) → (∀ a, a ∈ ends → S (feat a)) →
  spans active ends = Raise err →
  ∃ h', cobble_loop active ends h = (h', Raise err).
Proof.
  intros HS. revert active h.
  induction ends as [|a ends IH]; intros active h Hp Hact Hends; [done|].
  destruct ends as [|b rest]; [done|].
  rewrite spans_step, cobble_loop_step. unfold bind at 1. unfold lift.
  destruct (activate a active) as [active'|err'] eqn:Ha; cbn [rbind];
    [|intros [= ->]; by eexists].
  assert (∀ r, r ∈ active' → S r) as Hact'.
  { intros r Hr. apply activate_Ok in Ha as [Hsub _].
    destruct (Hsub r Hr) as [?| ->]; [by apply Hact|apply Hends; left]. }
  assert (∀ a', a' ∈ b :: rest → S (feat a')) as Hends'
    by (intros; apply Hends; by right).
  destruct (decide (length active' = 0%nat)) as [|Hne]; [by apply IH|].
  destruct (decide (pos a = pos b)); [by apply IH|].
  destruct (spans active' (b :: rest)) as [sp|err'] eqn:Hsp; [done|].
  cbn [rbind]. intros [= ->].
  destruct (emit_spec (pos a, pos b, active') h c) as (ext & obj & Hrun & _).
  { simpl. by destruct active'. }
  { intros r Hr. destruct (HS r (Hact' r Hr)) as (e & He & Hc).
    exists e. split; [by eapply prefix_lookup_Some|done]. }
  destruct (IH active' (h ++ ext ++ [obj])) as [h' Hrun']; [|done..|].
  { etrans; [done|]. by apply prefix_app_r. }
  exists h'. unfold bind. by rewrite Hrun, Hrun'.
Qed.

(** X15.  Given exons of the store on one chromosome, one of which ends
    where it starts or before, [cobble] raises the [ValueError] of
    [list.remove]: the end of that exon is met before its start. *)
Theorem cobble_nonpositive_length `{HashOrder} (exons : list ref)
    (multiple : bool) (h : heap) (r : ref) (e : Exon) :
  (∀ r', r' ∈ exons → is_Some (h !! r')) → same_chrom h exons →
  r ∈ exons → h !! r = Some e → end_ e ≤ start e →
  ∃ h', cobble exons multiple h
        = (h', Raise (ValueError "list.remove(x): x not in list")).
Proof.
  intros Hv [c Hc] Hr He Hlen. rewrite cobble_events by done.
  apply (cobble_loop_spans_Raise (λ r', r' ∈ exons) c h).
  - intros r' Hr'. destruct (Hv r' Hr') as [e' He']. exists e'.
    split; [done|]. by eapply Hc.
  - done.
  - by inversion 1.
  - intros a (r' & Hr' & [->| ->])%elem_of_sorted_events; done.
  - apply (spans_stop_first (start_of h) (end_of h) exons r _ []);
      [done| |done|intros; rewrite count_of_nil; lia|].
    + unfold start_of, end_of. by rewrite He.
    + apply elem_of_sorted_events. exists r. split; [done|by right].
Qed.

Lemma cobble_nonpositive_length_witness :
  ∃ h', @cobble insertion_order [0%nat] false empty_exon
        = (h', Raise (ValueError "list.remove(x): x not in list")).
Proof.
  apply (@cobble_nonpositive_length insertion_order [0%nat] false empty_exon
           0%nat (exon_at "E0" 10 10 ["T0"])).
  - intros r' ->%list_elem_of_singleton. by eexists.
  - exists "chr6". intros r' e' ->%list_elem_of_singleton [= <-]. done.
  - left.
  - reflexivity.
  - done.
Defined.

Lemma Exon_and_merged `{HashOrder} (a b E : Exon) :
  Exon_and a b = Ok E → merged E.
Proof.
  unfold Exon_and, GenomicObject_and.
  destruct (decide (chrom a = chrom b)); [|done]. by intros [= <-].
Qed.

Lemma reduce_and_Ok `{HashOrder} (feats : list ref) (y acc : ref) (h h1 : heap)
    (p : ref) :
  reduce_and acc (y :: feats) h = (h1, Ok p) →
  ∃ ext obj, h1 = h ++ ext ++ [obj] ∧ p = (length h + length ext)%nat ∧
             merged obj.
Proof.
  revert y acc h. induction feats as [|y' feats IH]; intros y acc h.
  - cbn [reduce_and]. unfold bind, and_ref, bind, load, lift, alloc, ret.
    destruct (h !! acc) as [ea|]; [|done]. destruct (h !! y) as [ey|]; [|done].
    destruct (Exon_and ea ey) as [E|] eqn:HE; [|done]. intros [= <- <-].
    exists [], E. split; [done|]. split; [simpl; lia|by eapply Exon_and_merged].
  - change (reduce_and acc (y :: y' :: feats) h) with
      (bind (and_ref acc y) (λ z, reduce_and z (y' :: feats)) h).
    unfold bind at 1. unfold and_ref, bind, load, lift, alloc.
    destruct (h !! acc) as [ea|]; [|done]. destruct (h !! y) as [ey|]; [|done].
    destruct (Exon_and ea ey) as [E|] eqn:HE; [|done].
    intros (ext & obj & -> & -> & Hm)%IH. exists (E :: ext), obj.
    split; [by rewrite <-!app_assoc|]. split; [|done].
    rewrite length_app. simpl. lia.
Qed.

Lemma dedup_nil `{EqDecision A} (l : list A) : dedup l = [] → l = [].
Proof. by destruct l. Qed.

Lemma dedup_singleton `{EqDecision A} (l : list A) (r : A) :
  dedup l = [r] ↔ l ≠ [] ∧ ∀ x, x ∈ l → x = r.
Proof.
  split.
  - intros Hd. split; [by intros ->|]. intros x Hx%elem_of_dedup.
    rewrite Hd in Hx. by apply list_elem_of_singleton in Hx.
  - intros [Hne Hall]. pose proof (NoDup_dedup l) as Hnd.
    assert (∀ x, x ∈ dedup l → x = r) as Hall'
      by (intros x Hx; by apply Hall, (elem_of_dedup l x)).
    destruct (dedup l) as [|x [|y k]] eqn:Hd.
    + by apply dedup_nil in Hd.
    + f_equal. apply Hall'. left.
    + exfalso. apply NoDup_cons in Hnd as [Hx _]. apply Hx.
      rewrite (Hall' x) by left. rewrite (Hall' y) by (right; left). left.
Qed.

Lemma copy_of_boundaries (e : Exon) (a b : Z) :
  copy_of e (set_end b (set_start a e)).
Proof. by destruct e. Qed.

(** What [emit] returns, when it returns. *)
Lemma emit_Ok `{HashOrder} (s : Span) (h0 h h1 : heap) (p : ref) :
  h0 `prefix_of` h → (∀ r, r ∈ s.2 → (r < length h0)%nat) →
  emit s h = (h1, Ok p) →
  ∃ ext, h1 = h ++ ext ∧ (length h ≤ p)%nat ∧ piece_shape h0 h1 p s.
Proof.
  intros Hp Hv. unfold emit, intersect_exons_list, list_set.
  pose proof (hash_order_perm _ (dedup s.2)) as Hperm.
  destruct (hash_order (dedup s.2)) as [|x [|y l]] eqn:Hl.
  - unfold bind, raise. done.
  - apply Permutation_singleton_l in Hperm.
    unfold bind at 1. unfold deepcopy, bind, load, alloc.
    destruct (h !! x) as [e|] eqn:He; [|done].
    unfold bind. rewrite !setattr_last. unfold ret. intros [= <- <-].
    exists [set_end s.1.2 (set_start s.1.1 e)]. split; [done|]. split; [done|].
    eexists. split; [by apply list_lookup_middle|]. split; [done|].
    split; [done|]. rewrite <-Hperm. exists e. split.
    + destruct Hp as [ext' ->]. rewrite lookup_app_l in He; [done|].
      apply Hv, elem_of_dedup. rewrite <-Hperm. left.
    + apply copy_of_boundaries.
  - unfold bind at 1.
    destruct (reduce_and x (y :: l) h) as [h2 [q|]] eqn:Hred; [|done].
    apply reduce_and_Ok in Hred as (ext & obj & -> & -> & [Hm1 Hm2]).
    unfold bind. rewrite !app_assoc, <-length_app, !setattr_last. unfold ret.
    intros [= <- <-]. exists (ext ++ [set_end s.1.2 (set_start s.1.1 obj)]).
    split; [by rewrite app_assoc|]. split; [rewrite length_app; lia|].
    eexists. split; [by apply list_lookup_middle|]. split; [done|].
    split; [done|].
    apply Permutation_length in Hperm.
    destruct (dedup s.2) as [|? [|? ?]]; [done..|]. done.
Qed.

(** What [emit_all] returns: a new piece for every span, of its shape. *)
Lemma emit_all_Ok `{HashOrder} (sp : list Span) (h0 h h' : heap) (ps : list ref) :
  h0 `prefix_of` h → (∀ s r, s ∈ sp → r ∈ s.2 → (r < length h0)%nat) →
  emit_all sp h = (h', Ok ps) →
  h `prefix_of` h' ∧ Forall (λ p, (length h ≤ p)%nat) ps ∧
  Forall2 (piece_shape h0 h') ps sp.
Proof.
  revert h h' ps. induction sp as [|s sp IH]; intros h h' ps Hp Hv.
  { intros [= <- <-]. by repeat constructor. }
  cbn [emit_all]. unfold bind at 1.
  destruct (emit s h) as [h1 [p|]] eqn:Hemit; [|done].
  apply (emit_Ok s h0) in Hemit as (ext & -> & Hlen & Hshape);
    [|done|intros; eapply Hv; [left|done]].
  unfold bind.
  destruct (emit_all sp (h ++ ext)) as [h2 [ps'|]] eqn:Hall; [|done].
  apply IH in Hall as (Hp' & Hfresh & Hshapes);
    [|etrans; [done|by apply prefix_app_r]|intros; eapply Hv; [by right|done]].
  unfold ret. intros [= <- <-].
  split; [etrans; [|done]; by apply prefix_app_r|]. split.
  - constructor; [done|]. eapply Forall_impl; [done|].
    simpl. intros q. rewrite length_app. lia.
  - constructor; [|done].
    destruct Hshape as (obj & Hobj & Hrest). exists obj.
    split; [by eapply prefix_lookup_Some|done].
Qed.

(** The active exons of a span were active before or belong to an event. *)
Lemma spans_active (ends : list Event) (active : list ref) (sp : list Span) :
  spans active ends = Ok sp →
  ∀ s r, s ∈ sp → r ∈ s.2 → r ∈ active ∨ ∃ a, a ∈ ends ∧ r = feat a.
Proof.
  revert active sp. induction ends as [|a ends IH]; intros active sp.
  { intros [= <-] s r Hs. by inv Hs. }
  destruct ends as [|b rest]; [intros [= <-] s r Hs; by inv Hs|].
  rewrite spans_step.
  destruct (activate a active) as [active'|] eqn:Ha; [|done]. cbn [rbind].
  apply activate_Ok in Ha as [Hsub _].
  assert (∀ r, r ∈ active' ∨ (∃ a', a' ∈ b :: rest ∧ r = feat a') →
               r ∈ active ∨ ∃ a', a' ∈ a :: b :: rest ∧ r = feat a') as Hstep.
  { intros r [Hr|(a' & Ha' & ->)].
    - destruct (Hsub r Hr) as [?| ->]; [by left|right]. exists a. split; [left|done].
    - right. exists a'. split; [by right|done]. }
  destruct (decide (length active' = 0%nat)).
  { intros Hsp s r Hs Hr. eapply Hstep, IH; done. }
  destruct (decide (pos a = pos b)).
  { intros Hsp s r Hs Hr. eapply Hstep, IH; done. }
  destruct (spans active' (b :: rest)) as [sp'|] eqn:Hsp; [|done].
  intros [= <-] s r [->|Hs]%elem_of_cons Hr.
  - apply Hstep. by left.
  - eapply Hstep, IH; done.
Qed.

(** When [cobble] returns, its pieces are new objects of the shapes of the
    spans of the walk. *)
Lemma cobble_shape `{HashOrder} (exons : list ref) (multiple : bool)
    (h h' : heap) (ps : list ref) :
  cobble exons multiple h = (h', Ok ps) →
  ∃ sp,
    spans [] (merge_sort event_le (events (start_of h) (end_of h) exons)) = Ok sp ∧
    (∀ s r, s ∈ sp → r ∈ s.2 → r ∈ exons ∧ is_Some (h !! r)) ∧
    Forall (λ p, (length h ≤ p)%nat) ps ∧
    Forall2 (piece_shape h h') ps sp.
Proof.
  intros [Hv Hrun]%cobble_Ok.
  destruct (cobble_loop_Ok_spans _ _ _ _ _ Hrun) as [sp Hsp].
  rewrite (cobble_loop_spans _ _ sp) in Hrun by done.
  assert (∀ s r, s ∈ sp → r ∈ s.2 → r ∈ exons ∧ is_Some (h !! r)) as Hin.
  { intros s r Hs Hr.
    destruct (spans_active _ _ _ Hsp s r Hs Hr) as [Hnil|(a & Ha & ->)];
      [by inv Hnil|].
    apply elem_of_sorted_events in Ha as (r' & Hr' & [->| ->]); auto. }
  exists sp. split; [done|]. split; [done|].
  apply (emit_all_Ok sp h) in Hrun as (_ & ? & ?); [done|done|].
  intros s r Hs Hr. apply lookup_lt_is_Some. by eapply Hin.
Qed.

(** X16.  Every piece [cobble] returns is a new object, and either a merged
    one, with [length] 0 and [score] 0, or the copy of an input exon with
    its attributes, [length] included, the boundaries apart: [cobble] never
    sets the [length] of a piece to the distance of its boundaries. *)
Theorem cobble_piece_shape `{HashOrder} (exons : list ref) (multiple : bool)
    (h h' : heap) (ps : list ref) (p : ref) :
  cobble exons multiple h = (h', Ok ps) → p ∈ ps →
  (length h ≤ p)%nat ∧
  ∃ obj, h' !! p = Some obj ∧
         (merged obj ∨ ∃ r e, r ∈ exons ∧ h !! r = Some e ∧ copy_of e obj).
Proof.
  intros (sp & _ & Hin & Hfresh & Hshape)%cobble_shape Hp.
  rewrite Forall_forall in Hfresh. split; [by apply Hfresh|].
  destruct (Forall2_elem_of_l _ _ _ _ Hshape Hp)
    as (s & Hs & obj & Hobj & _ & _ & Hcase).
  exists obj. split; [done|].
  destruct (dedup s.2) as [|r [|? ?]] eqn:Hd; [by left| |by left].
  right. destruct Hcase as (e & He & Hcopy). exists r, e.
  split; [|done]. apply (Hin s r Hs), elem_of_dedup. rewrite Hd. left.
Qed.

Lemma cobble_piece_shape_witness :
  (length scenario_A ≤ 3)%nat ∧
  ∃ obj, (scenario_A ++ [set_end 50 (exon_at "E1" 0 100 ["T1"]);
            set_transcripts ["T1"; "T2"]
              (set_end 100 (set_start 50
                 (Exon_init [] "E1E2" "G" "Gapdh" "chr6" 0 0 "E1|E2" 0%Qc 1 2)));
            set_start 100 (exon_at "E2" 50 150 ["T2"])]) !! 3%nat = Some obj ∧
         (merged obj ∨
          ∃ r e, r ∈ [0%nat; 1%nat] ∧ scenario_A !! r = Some e ∧ copy_of e obj).
Proof.
  apply (@cobble_piece_shape insertion_order [0%nat; 1%nat] false scenario_A _
           [2%nat; 3%nat; 4%nat]).
  - vm_compute. reflexivity.
  - right. left.
Defined.

Lemma spans_piece_iff (h : heap) (exons : list ref) (s : Span) (obj : Exon)
    (r : ref) :
  span_ok (start_of h) (end_of h) exons s →
  start obj = s.1.1 → end_ obj = s.1.2 →
  r ∈ s.2 ↔ r ∈ exons ∧ spans_piece h r obj.
Proof.
  intros (_ & _ & _ & Hin & _) Hs He. unfold spans_piece.
  by rewrite Hin, Hs, He.
Qed.

(** X17.  For exons of positive length on one chromosome: a piece that two
    different exons span is a merged object, which the collapse of the
    transcripts leaves out of every signature because its [length] is 0; a
    piece that one exon alone spans is the copy of that exon between the
    boundaries of the piece. *)
Theorem cobble_overlap_merged `{HashOrder} (exons : list ref) (multiple : bool)
    (h h' : heap) (ps : list ref) (p : ref) (obj : Exon) :
  valid_exons h exons → same_chrom h exons →
  cobble exons multiple h = (h', Ok ps) → p ∈ ps → h' !! p = Some obj →
  ((∃ r1 r2, r1 ∈ exons ∧ r2 ∈ exons ∧ r1 ≠ r2 ∧
             spans_piece h r1 obj ∧ spans_piece h r2 obj) →
   merged obj ∧ ∀ d, t2e_add d obj = d) ∧
  (∀ r e, r ∈ exons → h !! r = Some e → spans_piece h r obj →
          (∀ r', r' ∈ exons → spans_piece h r' obj → r' = r) →
          copy_of e obj).
Proof.
  intros Hv Hc (sp & Hsp & _ & _ & Hshape)%cobble_shape Hp Hobj.
  destruct (spans_cobble (start_of h) (end_of h) exons)
    as (sp' & Hsp' & _ & Hok & _).
  { intros r Hr. by eapply valid_exons_length. }
  rewrite Hsp in Hsp'. injection Hsp' as <-.
  destruct (Forall2_elem_of_l _ _ _ _ Hshape Hp)
    as (s & Hs & obj' & Hobj' & Hst & Hen & Hcase).
  rewrite Hobj in Hobj'. injection Hobj' as <-.
  rewrite Forall_forall in Hok. specialize (Hok s Hs).
  pose proof (λ r, spans_piece_iff h exons s obj r Hok Hst Hen) as Hin.
  split.
  - intros (r1 & r2 & Hr1 & Hr2 & Hne & H1 & H2).
    assert (merged obj) as Hm.
    { destruct (dedup s.2) as [|r [|? ?]] eqn:Hd; [done| |done].
      apply dedup_singleton in Hd as [_ Hall]. destruct Hne.
      rewrite (Hall r1), (Hall r2); [done|by apply Hin..]. }
    split; [done|]. intros d. unfold t2e_add. destruct Hm as [-> _].
    by rewrite bool_decide_eq_true_2.
  - intros r e Hr He Hsp1 Huniq.
    assert (dedup s.2 = [r]) as Hd.
    { apply dedup_singleton. split.
      - assert (r ∈ s.2) as Hrs by (by apply Hin). intros Hnil.
        rewrite Hnil in Hrs. by inv Hrs.
      - intros x [Hx Hxs]%Hin. by apply Huniq. }
    rewrite Hd in Hcase. destruct Hcase as (e' & He' & Hcopy). congruence.
Qed.

Lemma scenario_A_cobble :
  @cobble insertion_order [0%nat; 1%nat] false scenario_A
  = (scenario_A_cobbled, Ok [2%nat; 3%nat; 4%nat]).
Proof. vm_compute. reflexivity. Qed.

Lemma cobble_overlap_merged_witness :
  let obj := set_transcripts ["T1"; "T2"]
               (set_end 100 (set_start 50
                  (Exon_init [] "E1E2" "G" "Gapdh" "chr6" 0 0 "E1|E2" 0%Qc 1 2))) in
  ((∃ r1 r2, r1 ∈ [0%nat; 1%nat] ∧ r2 ∈ [0%nat; 1%nat] ∧ r1 ≠ r2 ∧
             spans_piece scenario_A r1 obj ∧ spans_piece scenario_A r2 obj) →
   merged obj ∧ ∀ d, t2e_add d obj = d) ∧
  (∀ r e, r ∈ [0%nat; 1%nat] → scenario_A !! r = Some e →
          spans_piece scenario_A r obj →
          (∀ r', r' ∈ [0%nat; 1%nat] → spans_piece scenario_A r' obj → r' = r) →
          copy_of e obj).
Proof.
  apply (@cobble_overlap_merged insertion_order [0%nat; 1%nat] false scenario_A
           scenario_A_cobbled [2%nat; 3%nat; 4%nat] 3%nat).
  - exact scenario_A_valid.
  - exact scenario_A_same_chrom.
  - exact scenario_A_cobble.
  - right. left.
  - reflexivity.
Defined.

(** ** Read density of the pieces *)

Lemma visit_unstranded_run (c : Counter.t) (reads : list Alignment) :
  Counter.stranded c = false →
  if decide (Exists (λ a, ("NH", 0) ∈ tags a) reads)
  then visit c reads = Raise ZeroDivisionError
  else visit c reads
       = Ok (Counter.mk (Counter.n c + sumQc (weight <$> reads))%Qc
               (Counter.n_raw c + Z.of_nat (length reads)) (Counter.n_ws c)
               (Counter.strand c) false).
Proof.
  revert c. induction reads as [|a reads IH]; intros c Hst.
  { rewrite decide_False by (by intros ?%Exists_nil). cbn.
    destruct c; cbn in *. subst. do 2 f_equal; [ring|lia]. }
  cbn [visit]. unfold Counter.call, Counter.count. rewrite Hst.
  pose proof (NH0_weight a) as Hw.
  destruct (decide (0 ∈ NH_values a)) as [Hz|Hz]; rewrite Hw; cbn [rbind].
  { destruct (decide (Exists _ (a :: reads))) as [_|Hn]; [done|].
    destruct Hn. left. by apply elem_of_NH_values. }
  specialize (IH (Counter.mk (Counter.n c + weight a)%Qc (Counter.n_raw c + 1)
                    (Counter.n_ws c) (Counter.strand c) (Counter.stranded c)) Hst).
  rewrite Hst in IH.
  destruct (decide (Exists _ reads)) as [Hex|Hex].
  - destruct (decide (Exists _ (a :: reads))) as [_|Hn]; [done|].
    destruct Hn. by right.
  - destruct (decide (Exists _ (a :: reads))) as [Hn|_].
    { apply Exists_cons in Hn as [?%elem_of_NH_values|?]; done. }
    rewrite IH, fmap_cons, sumQc_cons, length_cons.
    cbn [Counter.n Counter.n_raw Counter.n_ws Counter.strand].
    do 2 f_equal; [ring|lia].
Qed.

Section density_facts.
Context (fetch : string → Z → Z → list Alignment) (chr : string).

Lemma score_piece_run (c : Counter.t) (p : Exon) :
  Counter.stranded c = false → Counter.n_raw c = 0 →
  if decide (unscorable fetch chr p)
  then score_piece fetch chr c p = Raise ZeroDivisionError
  else score_piece fetch chr c p
       = Ok (density fetch chr p,
             Counter.mk (Counter.n c + sumQc (weight <$> reads_of fetch chr p))%Qc
               0 (Counter.n_ws c) (Counter.strand c) false).
Proof.
  intros Hst Hraw. unfold score_piece, unscorable, reads_of. cbn [start end_ set_length].
  replace (start (set_length (end_ p - start p) p)) with (start p) by (by destruct p).
  replace (end_ (set_length (end_ p - start p) p)) with (end_ p) by (by destruct p).
  replace (length_ (set_length (end_ p - start p) p)) with (end_ p - start p)
    by (by destruct p).
  pose proof (visit_unstranded_run c (fetch chr (start p) (end_ p)) Hst) as Hvis.
  destruct (decide (Exists _ (fetch chr (start p) (end_ p)))) as [Hex|Hex].
  { destruct (decide (_ ∨ _)) as [_|Hn]; [by rewrite Hvis|].
    destruct Hn. by right. }
  rewrite Hvis. cbn [rbind Counter.n Counter.n_raw Counter.n_ws Counter.strand
                      Counter.stranded].
  destruct (decide (end_ p - start p = 0)) as [Hz|Hz].
  { destruct (decide (_ ∨ _)) as [_|Hn]; [done|]. destruct Hn. left. lia. }
  destruct (decide (_ ∨ _)) as [[?|?]|_]; [lia|done|].
  unfold density, reads_of. by rewrite Hraw, Z.add_0_l.
Qed.

Lemma score_pieces_run (pieces : list Exon) (c : Counter.t) :
  Counter.stranded c = false → Counter.n_raw c = 0 →
  if decide (Exists (unscorable fetch chr) pieces)
  then score_pieces fetch chr c pieces = Raise ZeroDivisionError
  else score_pieces fetch chr c pieces
       = Ok (density fetch chr <$> pieces,
             Counter.mk
               (Counter.n c
                + sumQc ((λ p, sumQc (weight <$> reads_of fetch chr p)) <$> pieces))%Qc
               0 (Counter.n_ws c) (Counter.strand c) false).
Proof.
  revert c. induction pieces as [|p pieces IH]; intros c Hst Hraw.
  { rewrite decide_False by (by intros ?%Exists_nil). cbn.
    destruct c; cbn in *. subst. do 3 f_equal. ring. }
  cbn [score_pieces]. pose proof (score_piece_run c p Hst Hraw) as Hp.
  destruct (decide (unscorable fetch chr p)) as [Hu|Hu]; rewrite Hp; cbn [rbind].
  { destruct (decide (Exists _ (p :: pieces))) as [_|Hn]; [done|].
    destruct Hn. by left. }
  specialize (IH (Counter.mk
                    (Counter.n c + sumQc (weight <$> reads_of fetch chr p))%Qc
                    0 (Counter.n_ws c) (Counter.strand c) false) eq_refl eq_refl).
  destruct (decide (Exists _ pieces)) as [Hex|Hex].
  - destruct (decide (Exists _ (p :: pieces))) as [_|Hn]; [by rewrite IH|].
    destruct Hn. by right.
  - destruct (decide (Exists _ (p :: pieces))) as [Hn|_].
    { apply Exists_cons in Hn as [?|?]; done. }
    rewrite IH. cbn [rbind]. rewrite !fmap_cons, sumQc_cons.
    cbn [Counter.n Counter.n_raw Counter.n_ws Counter.strand].
    do 3 f_equal. ring.
Qed.

(** X18.  The loop over the pieces with a new counter: unless a piece has no
    base or a read of its region has an [NH] tag 0, in which case it raises
    [ZeroDivisionError], it gives every piece the length [end - start] and
    the score a thousand times the number of reads of its own region over
    that length, changing nothing else; the counter ends with [n_raw] 0 and
    with [n] the sum of the weights of the reads of all the pieces. *)
Theorem score_pieces_outcome (pieces : list Exon) :
  if decide (Exists (unscorable fetch chr) pieces)
  then score_pieces fetch chr (Counter.init false) pieces
       = Raise ZeroDivisionError
  else score_pieces fetch chr (Counter.init false) pieces
       = Ok (density fetch chr <$> pieces,
             Counter.mk
               (sumQc ((λ p, sumQc (weight <$> reads_of fetch chr p)) <$> pieces))
               0 0%Qc 0 false).
Proof.
  pose proof (score_pieces_run pieces (Counter.init false) eq_refl eq_refl) as Hrun.
  destruct (decide (Exists _ pieces)); [done|].
  rewrite Hrun. cbn. do 3 f_equal. ring.
Qed.
End density_facts.

(** ** Chunks of exons *)

Lemma chunk_loop_concat (chrexons ckexons : list Exon) (lastend : Z)
    (lastgeneid : string) :
  concat ((chunk_loop lastend lastgeneid ckexons chrexons).*1)
  = ckexons ++ chrexons.
Proof.
  revert ckexons lastend lastgeneid.
  induction chrexons as [|e rest IH]; intros ck le g; simpl.
  { by rewrite app_nil_r. }
  destruct (decide (_ ∨ _)); simpl; rewrite IH; [|done].
  by rewrite <-app_assoc.
Qed.

Lemma chunk_loop_elem_of (chrexons ckexons : list Exon) (lastend : Z)
    (lastgeneid : string) (c : list Exon * Z) (e : Exon) :
  c ∈ chunk_loop lastend lastgeneid ckexons chrexons → e ∈ c.1 →
  e ∈ ckexons ++ chrexons.
Proof.
  intros Hc He. rewrite <-(chunk_loop_concat chrexons ckexons lastend lastgeneid).
  apply elem_of_concat. exists c.1. split; [|done].
  apply list_elem_of_fmap. by exists c.
Qed.

Lemma chunk_loop_lastend (chrexons ckexons : list Exon) (lastend : Z)
    (lastgeneid : string) :
  Forall (λ e, end_ e ≤ lastend) ckexons →
  Forall (λ c, Forall (λ e, end_ e ≤ c.2) c.1)
    (chunk_loop lastend lastgeneid ckexons chrexons).
Proof.
  revert ckexons lastend lastgeneid.
  induction chrexons as [|e rest IH]; intros ck le g Hck; simpl.
  { by constructor. }
  destruct (decide (_ ∨ _)).
  - apply IH. apply Forall_app. split; [|constructor; [lia|constructor]].
    eapply Forall_impl; [done|]. simpl. lia.
  - constructor; [done|]. apply IH. constructor; [lia|constructor].
Qed.

Lemma chunk_loop_nonempty (chrexons ckexons : list Exon) (lastend : Z)
    (lastgeneid : string) :
  ckexons ≠ [] ∨ (∃ e rest, chrexons = e :: rest ∧ start e ≤ lastend) →
  Forall (λ c, c.1 ≠ []) (chunk_loop lastend lastgeneid ckexons chrexons).
Proof.
  revert ckexons lastend lastgeneid.
  induction chrexons as [|e rest IH]; intros ck le g Hck; simpl.
  { destruct Hck as [?|(? & ? & [=] & _)]. by constructor. }
  destruct (decide (_ ∨ _)) as [Hd|Hd].
  - apply IH. left. by destruct ck.
  - constructor; [|apply IH; by left].
    destruct Hck as [?|(? & ? & [= <- <-] & ?)]; [done|]. destruct Hd. by left.
Qed.

Lemma chunk_loop_separated (chrexons ckexons : list Exon) (lastend : Z)
    (lastgeneid : string) :
  StronglySorted (λ a b, start a ≤ start b) chrexons →
  StronglySorted chunk_before (chunk_loop lastend lastgeneid ckexons chrexons).
Proof.
  revert ckexons lastend lastgeneid.
  induction chrexons as [|e rest IH]; intros ck le g Hs; simpl.
  { repeat constructor. }
  apply StronglySorted_cons in Hs as [He Hs].
  destruct (decide (_ ∨ _)) as [Hd|Hd]; [by apply IH|].
  apply StronglySorted_cons. split; [|by apply IH].
  apply Forall_forall. intros c Hc. apply Forall_forall. intros x Hx. simpl.
  pose proof (chunk_loop_elem_of _ _ _ _ _ _ Hc Hx) as Hin.
  assert (start e ≤ start x).
  { apply elem_of_cons in Hin as [->|Hin]; [done|].
    rewrite Forall_forall in He. by apply He. }
  assert (¬ start e ≤ le) by (intros ?; apply Hd; by left). lia.
Qed.

Lemma StronglySorted_lookup {A} (R : relation A) (l : list A) (i j : nat)
    (x y : A) :
  StronglySorted R l → (i < j)%nat → l !! i = Some x → l !! j = Some y → R x y.
Proof.
  intros Hs. revert i j. induction Hs as [|a l Hs IH Ha]; intros i j Hij Hi Hj.
  { done. }
  destruct j as [|j]; [lia|]. simpl in Hj. destruct i as [|i].
  - injection Hi as <-. rewrite Forall_forall in Ha.
    by eapply Ha, list_elem_of_lookup_2.
  - simpl in Hi. apply (IH i j); [lia|done..].
Qed.

Lemma chunk_loop_apart (chrexons : list Exon) (lastend : Z) (lastgeneid : string)
    (i j : nat) (c1 c2 : list Exon * Z) (x y : Exon) :
  StronglySorted (λ a b, start a ≤ start b) chrexons →
  (i < j)%nat →
  chunk_loop lastend lastgeneid [] chrexons !! i = Some c1 →
  chunk_loop lastend lastgeneid [] chrexons !! j = Some c2 →
  x ∈ c1.1 → y ∈ c2.1 → end_ x < start y.
Proof.
  intros Hs Hij H1 H2 Hx Hy.
  pose proof (chunk_loop_separated chrexons [] lastend lastgeneid Hs) as Hsep.
  pose proof (chunk_loop_lastend chrexons [] lastend lastgeneid
                (Forall_nil_2 _)) as Hend.
  rewrite Forall_forall in Hend.
  pose proof (Hend c1 (list_elem_of_lookup_2 _ _ _ H1)) as Hc1.
  rewrite Forall_forall in Hc1. specialize (Hc1 x Hx).
  assert (chunk_before c1 c2) as Hb
    by (by apply (StronglySorted_lookup chunk_before _ i j c1 c2 Hsep)).
  unfold chunk_before in Hb. rewrite Forall_forall in Hb.
  specialize (Hb y Hy). lia.
Qed.

(** X19.  The loop of [rnacount] over the exons of a chromosome hands every
    exon to [process_chunk] once, in the order of the list: the chunks of
    the calls, put end to end, are the list of the exons; and the [lastend]
    of a call is not below the end of any exon of its chunk.  Without exons
    there is no call: [chrexons[0]] raises. *)
Theorem chunks_partition (chrexons : list Exon) :
  match chunks chrexons with
  | None => chrexons = []
  | Some cs =>
      chrexons ≠ [] ∧ concat (cs.*1) = chrexons ∧
      Forall (λ c, Forall (λ e, end_ e ≤ c.2) c.1) cs
  end.
Proof.
  destruct chrexons as [|e0 rest]; [done|]. cbn [chunks].
  split; [done|]. split; [apply chunk_loop_concat|].
  apply chunk_loop_lastend. constructor.
Qed.

(** X20.  When the exons are in the order of their starts and the first one
    does not end before it starts, no chunk handed to [process_chunk] is
    empty, and every exon of a later chunk starts after the [lastend] of an
    earlier chunk, hence after the end of every exon of that chunk. *)
Theorem chunks_separated (chrexons : list Exon) (e0 : Exon)
    (cs : list (list Exon * Z)) :
  StronglySorted (λ a b, start a ≤ start b) chrexons →
  head chrexons = Some e0 → start e0 ≤ end_ e0 →
  chunks chrexons = Some cs →
  Forall (λ c, c.1 ≠ []) cs ∧ StronglySorted chunk_before cs ∧
  ∀ i j c1 c2 x y, (i < j)%nat → cs !! i = Some c1 → cs !! j = Some c2 →
                   x ∈ c1.1 → y ∈ c2.1 → end_ x < start y.
Proof.
  intros Hs Hhd Hle. destruct chrexons as [|e rest]; [done|].
  injection Hhd as ->. cbn [chunks]. intros [= <-].
  split; [|split].
  - apply (chunk_loop_nonempty (e0 :: rest) [] (end_ e0) ""). right.
    by exists e0, rest.
  - by apply (chunk_loop_separated (e0 :: rest) [] (end_ e0) "").
  - intros i j c1 c2 x y. by apply (chunk_loop_apart (e0 :: rest)).
Qed.

Lemma four_exons_sorted :
  StronglySorted (λ a b, start a ≤ start b) (sort_by_key (long_exons four_exons)).
Proof. repeat constructor; cbn; lia. Qed.

Lemma chunks_separated_witness :
  let cs := [([Exon_init ["T1"] "E1" "G1" "A" "chr6" 0 100 "E1" 0%Qc 1 1;
               Exon_init ["T1"] "E2" "G1" "A" "chr6" 50 150 "E2" 0%Qc 1 1], 150);
             ([Exon_init ["T2"] "E3" "G2" "B" "chr6" 300 400 "E3" 0%Qc 1 1], 400)] in
  Forall (λ c, c.1 ≠ []) cs ∧ StronglySorted chunk_before cs ∧
  ∀ i j c1 c2 x y, (i < j)%nat → cs !! i = Some c1 → cs !! j = Some c2 →
                   x ∈ c1.1 → y ∈ c2.1 → end_ x < start y.
Proof.
  apply (chunks_separated (sort_by_key (long_exons four_exons))
           (Exon_init ["T1"] "E1" "G1" "A" "chr6" 0 100 "E1" 0%Qc 1 1)).
  - exact four_exons_sorted.
  - reflexivity.
  - done.
  - reflexivity.
Defined.

(** *** The sort *)

Global Instance key_le_total : Total key_le.
Proof. intros a b. unfold key_le. lia. Qed.

Global Instance key_le_trans : Transitive key_le.
Proof. intros a b c. unfold key_le. lia. Qed.

Lemma insert_by_key_perm (x : Exon) (l : list Exon) : insert_by_key x l ≡ₚ x :: l.
Proof.
  induction l as [|y l IH]; [done|]. simpl.
  destruct (decide (key_le x y)); [done|]. rewrite IH. apply Permutation_swap.
Qed.

Lemma sort_by_key_perm (l : list Exon) : sort_by_key l ≡ₚ l.
Proof.
  induction l as [|x l IH]; [done|]. unfold sort_by_key in *. simpl.
  by rewrite insert_by_key_perm, IH.
Qed.

Lemma insert_by_key_sorted (x : Exon) (l : list Exon) :
  StronglySorted key_le l → StronglySorted key_le (insert_by_key x l).
Proof.
  induction 1 as [|y l Hs IH Hy]; simpl; [repeat constructor|].
  destruct (decide (key_le x y)) as [Hxy|Hxy].
  - constructor; [by constructor|]. constructor; [done|].
    eapply Forall_impl; [done|]. intros z Hz. by etrans.
  - constructor; [done|]. rewrite insert_by_key_perm. constructor; [|done].
    by destruct (total key_le x y).
Qed.

Lemma sort_by_key_sorted (l : list Exon) : StronglySorted key_le (sort_by_key l).
Proof.
  induction l as [|x l IH]; [constructor|].
  by apply insert_by_key_sorted.
Qed.

(** The sort is stable: the exons of one key keep their order. *)
Lemma sort_by_key_stable (l : list Exon) (s e : Z) :
  filter (λ x, start x = s ∧ end_ x = e) (sort_by_key l)
  = filter (λ x, start x = s ∧ end_ x = e) l.
Proof.
  induction l as [|x l IH]; [done|].
  change (sort_by_key (x :: l)) with (insert_by_key x (sort_by_key l)).
  rewrite (filter_cons _ x l), <-IH. clear IH.
  induction (sort_by_key l) as [|y k IHk]; [done|]. simpl.
  destruct (decide (key_le x y)) as [Hxy|Hxy]; [done|].
  rewrite (filter_cons _ y), IHk, (filter_cons _ y k).
  destruct (decide (start y = s ∧ end_ y = e)) as [[? ?]|Hy];
    destruct (decide (start x = s ∧ end_ x = e)) as [[? ?]|Hx]; try done.
  destruct Hxy. unfold key_le. lia.
Qed.

Lemma StronglySorted_weaken {A} (R R' : relation A) (l : list A) :
  (∀ x y, R x y → R' x y) → StronglySorted R l → StronglySorted R' l.
Proof.
  intros HR. induction 1 as [|x l Hs IH Hx]; constructor; [done|].
  eapply Forall_impl; [done|]. auto.
Qed.

(** X21.  From the exons read for a chromosome, [rnacount] keeps those of
    more than one base, sorts them and cuts them into chunks: unless none is
    kept, in which case [chrexons[0]] raises, the chunks handed to
    [process_chunk] hold the kept exons and no other, none of them is empty,
    and the exons of different chunks do not overlap: each exon of an
    earlier chunk ends before any exon of a later one starts. *)
Theorem rnacount_chunks (exons : list Exon) :
  match chunks (sort_by_key (long_exons exons)) with
  | None => ∀ e, e ∈ exons → end_ e - start e ≤ 1
  | Some cs =>
      concat (cs.*1) ≡ₚ long_exons exons ∧
      StronglySorted key_le (concat (cs.*1)) ∧
      Forall (λ c, c.1 ≠ []) cs ∧
      ∀ i j c1 c2 x y, (i < j)%nat → cs !! i = Some c1 → cs !! j = Some c2 →
                       x ∈ c1.1 → y ∈ c2.1 → end_ x < start y
  end.
Proof.
  pose proof (sort_by_key_perm (long_exons exons)) as Hperm.
  pose proof (sort_by_key_sorted (long_exons exons)) as Hsorted.
  destruct (sort_by_key (long_exons exons)) as [|e0 rest] eqn:Hsort.
  { cbn [chunks]. intros e He.
    destruct (decide (end_ e - start e > 1)) as [Hlong|]; [|lia].
    assert (e ∈ long_exons exons) as Hin by (by apply list_elem_of_filter).
    rewrite <-Hperm in Hin. by inv Hin. }
  cbn [chunks]. rewrite chunk_loop_concat. cbn [app].
  split; [done|]. split; [done|].
  assert (StronglySorted (λ a b, start a ≤ start b) (e0 :: rest)) as Hst.
  { eapply StronglySorted_weaken; [|done]. unfold key_le. intros; lia. }
  split.
  - apply (chunk_loop_nonempty (e0 :: rest) [] (end_ e0) ""). right.
    exists e0, rest. split; [done|].
    assert (e0 ∈ long_exons exons) as [? _]%list_elem_of_filter
      by (rewrite <-Hperm; left).
    lia.
  - intros i j c1 c2 x y. by apply (chunk_loop_apart (e0 :: rest)).
Qed.

(** ** Regrouping the occurrences of an exon *)

Section groupby.
Context {A : Type} (key : A → string).

Lemma groupby_concat (l : list A) : concat (members <$> groupby key l) = l.
Proof.
  induction l as [|x l IH]; [done|]. simpl.
  destruct (groupby key l) as [|[[k y] others] groups]; simpl in *.
  { by rewrite <-IH. }
  destruct (decide (key x = k)); simpl; by rewrite <-IH.
Qed.

Lemma groupby_keys (l : list A) :
  Forall (λ g, Forall (λ x, key x = g.1.1) (members g)) (groupby key l).
Proof.
  induction l as [|x l IH]; [constructor|]. simpl.
  destruct (groupby key l) as [|[[k y] others] groups]; simpl in *.
  { repeat constructor. }
  apply Forall_cons in IH as [Hg IH].
  destruct (decide (key x = k)).
  - constructor; [|done]. by constructor.
  - constructor; [repeat constructor|]. by constructor.
Qed.

Lemma groupby_no_repeat (l : list A) :
  no_repeat ((λ g, g.1.1) <$> groupby key l).
Proof.
  induction l as [|x l IH]; [done|]. simpl.
  destruct (groupby key l) as [|[[k y] others] groups]; simpl in *; [done|].
  destruct (decide (key x = k)); simpl; [done|]. done.
Qed.

Lemma groupby_heads_sublist (l : list A) : heads (groupby key l) `sublist_of` l.
Proof.
  induction l as [|x l IH]; [done|]. simpl.
  destruct (groupby key l) as [|[[k y] others] groups]; simpl in *.
  { by constructor. }
  destruct (decide (key x = k)); simpl.
  - constructor. etrans; [|done]. by apply sublist_cons.
  - by constructor.
Qed.

Lemma groupby_heads_keys (l : list A) :
  key <$> heads (groupby key l) = (λ g, g.1.1) <$> groupby key l.
Proof.
  pose proof (groupby_keys l) as Hk. unfold heads.
  rewrite <-list_fmap_compose. apply list_fmap_ext.
  intros i g Hg. rewrite Forall_forall in Hk.
  specialize (Hk g (list_elem_of_lookup_2 _ _ _ Hg)).
  by apply Forall_cons in Hk as [? _].
Qed.
End groupby.

Lemma grown_refl (e : Exon) : grown e e.
Proof. split; [by destruct e|done]. Qed.

Lemma grown_trans (e1 e2 e3 : Exon) : grown e1 e2 → grown e2 e3 → grown e1 e3.
Proof.
  intros [H1 P1] [H2 P2]. split; [|by etrans].
  rewrite H2 at 1. rewrite H1. by destruct e1.
Qed.

Lemma grown_append (t : string) (e : Exon) : grown e (append_transcript t e).
Proof. split; [by destruct e|]. by apply prefix_app_r. Qed.

Lemma append_first_frame (exon0 : ref) (group : list ref) (h h' : heap)
    (res : raised + unit) :
  append_first exon0 group h = (h', res) →
  length h' = length h ∧ (∀ r, r ≠ exon0 → h' !! r = h !! r) ∧
  ∀ r e, h !! r = Some e → ∃ e', h' !! r = Some e' ∧ grown e e'.
Proof.
  assert (∀ h : heap, length h = length h ∧ (∀ r, r ≠ exon0 → h !! r = h !! r) ∧
            ∀ r e, h !! r = Some e → ∃ e', h !! r = Some e' ∧ grown e e') as Hid.
  { intros h0. repeat split. intros r e ?. exists e. split; [done|apply grown_refl]. }
  revert h. induction group as [|g group IH]; intros h; simpl.
  { intros [= <- _]. apply Hid. }
  destruct (h !! g) as [eg|]; [|intros [= <- _]; apply Hid].
  destruct (transcripts eg) as [|t ?]; [intros [= <- _]; apply Hid|].
  destruct (h !! exon0) as [e0|] eqn:H0; [|intros [= <- _]; apply Hid].
  intros (Hlen & Hne & Hgrow)%IH. rewrite length_insert in Hlen.
  split; [done|]. split.
  - intros r Hr. rewrite Hne by done. by rewrite list_lookup_insert_ne.
  - intros r e Hr. destruct (decide (r = exon0)) as [->|Hr0].
    + rewrite H0 in Hr. injection Hr as <-.
      destruct (Hgrow exon0 (append_transcript t e0)) as (e' & He' & Hg).
      { apply list_lookup_insert_eq. by eapply lookup_lt_Some. }
      exists e'. split; [done|]. eapply grown_trans; [apply grown_append|done].
    + apply Hgrow. by rewrite list_lookup_insert_ne.
Qed.

Lemma regroup_groups_frame (groups : list (string * ref * list ref))
    (h h' : heap) (res : raised + list ref) :
  regroup_groups groups h = (h', res) →
  length h' = length h ∧
  (∀ r e, h !! r = Some e → ∃ e', h' !! r = Some e' ∧ grown e e') ∧
  (∀ r, r ∉ heads groups → h' !! r = h !! r) ∧
  ∀ exons, res = inr exons → exons = heads groups.
Proof.
  revert h h' res. induction groups as [|[[k exon0] others] groups IH];
    intros h h' res; simpl.
  { intros [= <- <-]. repeat split; [|by intros ? [= <-]].
    intros r e ?. exists e. split; [done|apply grown_refl]. }
  destruct (append_first exon0 others h) as [h1 [err|[]]] eqn:Happ;
    apply append_first_frame in Happ as (Hlen1 & Hne1 & Hg1).
  { intros [= <- <-]. repeat split; [done..| |done].
    intros r Hr. apply Hne1. intros ->. apply Hr. left. }
  destruct (regroup_groups groups h1) as [h2 [err|exons]] eqn:Hrest;
    apply IH in Hrest as (Hlen2 & Hg2 & Hne2 & Hex); intros [= <- <-].
  - split; [congruence|]. split; [|split; [|done]].
    + intros r e Hr. destruct (Hg1 r e Hr) as (e1 & He1 & G1).
      destruct (Hg2 r e1 He1) as (e2 & He2 & G2). exists e2.
      split; [done|by eapply grown_trans].
    + intros r Hr. rewrite Hne2, Hne1; [done|..].
      * intros ->. apply Hr. left.
      * intros ?. apply Hr. by right.
  - split; [congruence|]. split; [|split].
    + intros r e Hr. destruct (Hg1 r e Hr) as (e1 & He1 & G1).
      destruct (Hg2 r e1 He1) as (e2 & He2 & G2). exists e2.
      split; [done|by eapply grown_trans].
    + intros r Hr. rewrite Hne2, Hne1; [done|..].
      * intros ->. apply Hr. left.
      * intros ?. apply Hr. by right.
    + intros ? [= <-]. by rewrite (Hex exons eq_refl).
Qed.

(** X22.  The regrouping loop allocates nothing and only appends to lists
    of transcripts: every object keeps its other attributes and its former
    transcripts as the first of its list.  When it returns, the exons it
    returns are among those given and in their order, no two neighbours
    among them have the same [id], and the objects it did not return are
    unchanged. *)
Theorem regroup_frame (ckexons : list ref) (h h' : heap)
    (res : raised + list ref) :
  regroup ckexons h = (h', res) →
  length h' = length h ∧
  (∀ r e, h !! r = Some e → ∃ e', h' !! r = Some e' ∧ grown e e') ∧
  ∀ exons, res = inr exons →
    exons `sublist_of` ckexons ∧ (∀ r, r ∉ exons → h' !! r = h !! r) ∧
    no_repeat (id_of h' <$> exons).
Proof.
  unfold regroup. destruct (decide (Forall _ ckexons)) as [Hv|Hv].
  2:{ intros [= <- <-]. split; [done|]. split; [|done].
      intros r e ?. exists e. split; [done|apply grown_refl]. }
  intros (Hlen & Hg & Hne & Hex)%regroup_groups_frame.
  split; [done|]. split; [done|]. intros exons ->%Hex.
  split; [apply groupby_heads_sublist|]. split; [done|].
  assert (id_of h' <$> heads (groupby (id_of h) ckexons)
          = id_of h <$> heads (groupby (id_of h) ckexons)) as ->.
  { apply list_fmap_ext. intros i r Hr.
    assert (r ∈ ckexons) as Hin.
    { eapply elem_of_sublist; [by eapply list_elem_of_lookup_2|].
      apply (groupby_heads_sublist (id_of h)). }
    rewrite Forall_forall in Hv. destruct (Hv r Hin) as [e He].
    destruct (Hg r e He) as (e' & He' & [Hgr _]).
    unfold id_of. rewrite He, He'. simpl. rewrite Hgr. by destruct e. }
  rewrite groupby_heads_keys. apply groupby_no_repeat.
Qed.

Lemma regroup_frame_witness :
  let h' := [exon_at "E1" 0 100 ["T1"; "T2"]; exon_at "E1" 0 100 ["T2"];
             exon_at "E2" 200 300 ["T1"]] in
  length h' = length gtf_rows ∧
  (∀ r e, gtf_rows !! r = Some e → ∃ e', h' !! r = Some e' ∧ grown e e') ∧
  ∀ exons, @inr raised _ [0%nat; 2%nat] = inr exons →
    exons `sublist_of` [0%nat; 1%nat; 2%nat] ∧
    (∀ r, r ∉ exons → h' !! r = gtf_rows !! r) ∧
    no_repeat (id_of h' <$> exons).
Proof.
  apply (regroup_frame [0%nat; 1%nat; 2%nat] gtf_rows). vm_compute. reflexivity.
Defined.

Lemma set_transcripts_append (l : list string) (t : string) (e : Exon) :
  set_transcripts l (append_transcript t e) = set_transcripts l e.
Proof. by destruct e. Qed.

Lemma append_first_spec (exon0 : ref) (others : list ref) (h : heap) (e0 : Exon) :
  exon0 ∉ others → h !! exon0 = Some e0 →
  (∀ g, g ∈ others → ∃ e t, h !! g = Some e ∧ transcripts e = [t]) →
  append_first exon0 others h
  = (<[exon0 := set_transcripts
                  (transcripts e0 ++ concat (transcripts_of h <$> others)) e0]> h,
     inr tt).
Proof.
  revert h e0. induction others as [|g others IH]; intros h e0 Hnot H0 Hv; simpl.
  { rewrite app_nil_r. f_equal. symmetry. apply list_insert_id'.
    intros _. rewrite H0. by destruct e0. }
  destruct (Hv g) as (eg & t & Hg & Ht); [left|].
  rewrite Hg, Ht, H0.
  assert (exon0 ≠ g) as Hne by (intros ->; apply Hnot; left).
  assert (∀ g', g' ∈ others →
            <[exon0 := append_transcript t e0]> h !! g' = h !! g') as Hsame.
  { intros g' Hg'. apply list_lookup_insert_ne. intros ->. apply Hnot. by right. }
  rewrite (IH _ (append_transcript t e0)).
  - assert (transcripts_of (<[exon0 := append_transcript t e0]> h) <$> others
            = transcripts_of h <$> others) as ->.
    { apply list_fmap_ext. intros i g' Hi. unfold transcripts_of.
      rewrite Hsame; [done|]. by eapply list_elem_of_lookup_2. }
    assert (transcripts_of h g = [t]) as Hg'
      by (unfold transcripts_of; by rewrite Hg).
    rewrite list_insert_insert_eq, set_transcripts_append, Hg'.
    change (list_fmap ref (list string) (transcripts_of h) others)
      with (transcripts_of h <$> others).
    cbn [transcripts append_transcript set_transcripts].
    by rewrite <-app_assoc.
  - intros ?. apply Hnot. by right.
  - apply list_lookup_insert_eq. by eapply lookup_lt_Some.
  - intros g' Hg'. rewrite Hsame by done. apply Hv. by right.
Qed.

Lemma regroup_groups_spec (groups : list (string * ref * list ref)) (h : heap) :
  NoDup (concat (members <$> groups)) →
  (∀ r, r ∈ concat (members <$> groups) →
        ∃ e t, h !! r = Some e ∧ transcripts e = [t]) →
  ∃ h', regroup_groups groups h = (h', inr (heads groups)) ∧
        (∀ r, r ∉ heads groups → h' !! r = h !! r) ∧
        concat (transcripts_of h' <$> heads groups)
        = concat (transcripts_of h <$> concat (members <$> groups)).
Proof.
  revert h. induction groups as [|[[k exon0] others] groups IH]; intros h Hnd Hv.
  { by exists h. }
  assert (concat (members <$> (k, exon0, others) :: groups)
          = exon0 :: others ++ concat (members <$> groups)) as Hc by done.
  assert (heads ((k, exon0, others) :: groups) = exon0 :: heads groups) as Hh
    by done.
  rewrite Hc in Hnd, Hv. rewrite Hc, Hh. clear Hc Hh.
  apply NoDup_cons in Hnd as [Hx Hnd].
  apply NoDup_app in Hnd as (Hnd1 & Hdisj & Hnd2).
  destruct (Hv exon0) as (e0 & t0 & H0 & Ht0); [left|].
  cbn [regroup_groups].
  rewrite (append_first_spec exon0 others h e0); [| |done|].
  2:{ intros ?. apply Hx, elem_of_app. by left. }
  2:{ intros g Hg. apply Hv. right. apply elem_of_app. by left. }
  set (h1 := <[exon0 := _]> h).
  assert (∀ r, r ≠ exon0 → h1 !! r = h !! r) as Hsame.
  { intros r Hr. by apply list_lookup_insert_ne. }
  assert (∀ r, r ∈ concat (members <$> groups) → r ≠ exon0) as Hrest.
  { intros r Hr ->. apply Hx, elem_of_app. by right. }
  destruct (IH h1) as (h' & Hrun & Hne & Hcat); [done| |].
  { intros r Hr. rewrite Hsame by (by apply Hrest). apply Hv. right.
    apply elem_of_app. by right. }
  exists h'. rewrite Hrun. split; [done|]. split.
  - intros r Hr. rewrite Hne, Hsame; [done|..].
    + intros ->. apply Hr. left.
    + intros ?. apply Hr. by right.
  - rewrite !fmap_cons, fmap_app. cbn [concat]. rewrite concat_app, Hcat.
    assert (heads groups ⊆ concat (members <$> groups)) as Hsub.
    { intros r (g & -> & Hg)%list_elem_of_fmap. apply elem_of_concat.
      exists (members g). split; [apply list_elem_of_fmap; by exists g|left]. }
    assert (transcripts_of h' exon0
            = transcripts_of h exon0 ++ concat (transcripts_of h <$> others)) as ->.
    { assert (transcripts_of h exon0 = transcripts e0) as ->
        by (unfold transcripts_of; by rewrite H0).
      unfold transcripts_of at 1. rewrite Hne.
      2:{ intros Hin. by apply (Hrest exon0 (Hsub _ Hin)). }
      unfold h1. by rewrite list_lookup_insert_eq by (by eapply lookup_lt_Some). }
    rewrite <-app_assoc. do 3 f_equal. apply list_fmap_ext.
    intros i r Hr. unfold transcripts_of. rewrite Hsame; [done|].
    apply Hrest. by eapply list_elem_of_lookup_2.
Qed.

(** X23.  When the exons of the chunk are different objects with one
    transcript each, as [parse_gtf] makes them, the regrouping loop returns,
    and the transcripts of the exons it returns, read one exon after the
    other, are the transcripts of the exons of the chunk in their order:
    none is lost, added or moved. *)
Theorem regroup_transcripts (ckexons : list ref) (h : heap) :
  NoDup ckexons →
  (∀ r, r ∈ ckexons → ∃ e t, h !! r = Some e ∧ transcripts e = [t]) →
  ∃ h' exons,
    regroup ckexons h = (h', inr exons) ∧
    concat (transcripts_of h' <$> exons) = concat (transcripts_of h <$> ckexons).
Proof.
  intros Hnd Hv. unfold regroup. rewrite decide_True.
  2:{ apply Forall_forall. intros r Hr. destruct (Hv r Hr) as (e & _ & -> & _).
      done. }
  destruct (regroup_groups_spec (groupby (id_of h) ckexons) h)
    as (h' & Hrun & _ & Hcat).
  - by rewrite groupby_concat.
  - intros r Hr. rewrite groupby_concat in Hr. by apply Hv.
  - exists h', (heads (groupby (id_of h) ckexons)). split; [done|].
    by rewrite Hcat, groupby_concat.
Qed.

Lemma regroup_transcripts_witness :
  ∃ h' exons,
    regroup [0%nat; 1%nat; 2%nat] gtf_rows = (h', inr exons) ∧
    concat (transcripts_of h' <$> exons)
    = concat (transcripts_of gtf_rows <$> [0%nat; 1%nat; 2%nat]).
Proof.
  apply regroup_transcripts.
  - apply (bool_decide_unpack _). vm_compute. exact I.
  - intros r Hr.
    assert (Forall (λ r, ∃ e t, gtf_rows !! r = Some e ∧ transcripts e = [t])
              [0%nat; 1%nat; 2%nat]) as HF
      by (repeat constructor; by do 2 eexists).
    rewrite Forall_forall in HF. by apply HF.
Defined.

(** ** [cobble] on exons of different chromosomes *)

Section mismatch.
Context `{HashOrder}.

Local Abbreviation assertion :=
  (AssertionError "Cannot add features from different chromosomes").

Lemma reduce_and_mixed (feats : list ref) (acc : ref) (h : heap) (ea : Exon) :
  h !! acc = Some ea → (∀ r, r ∈ feats → is_Some (h !! r)) →
  (∃ r, r ∈ feats ∧ chrom_of h r ≠ chrom ea) →
  ∃ h', reduce_and acc feats h = (h', Raise assertion).
Proof.
  revert acc h ea. induction feats as [|y feats IH]; intros acc h ea Ha Hv Hbad.
  { destruct Hbad as (r & Hr & _). by inv Hr. }
  destruct (Hv y) as [ey Hy]; [left|].
  cbn [reduce_and]. unfold bind at 1. unfold and_ref, bind, load, lift, alloc.
  rewrite Ha, Hy.
  destruct (decide (chrom ea = chrom ey)) as [Hc|Hc].
  - destruct (Exon_and_ok ea ey Hc) as (E & -> & HcE & _).
    apply (IH _ _ E).
    + by apply list_lookup_middle.
    + intros r Hr. destruct (Hv r) as [e He]; [by right|].
      exists e. by apply lookup_app_l_Some.
    + destruct Hbad as (r & Hr & Hne). exists r.
      destruct (Hv r Hr) as [e He].
      assert (chrom_of (h ++ [E]) r = chrom_of h r) as Hsame.
      { unfold chrom_of. by rewrite (lookup_app_l_Some _ _ _ _ He), He. }
      rewrite Hsame, HcE. split; [|done].
      apply elem_of_cons in Hr as [->|Hr]; [|done].
      unfold chrom_of in Hne. rewrite Hy in Hne. simpl in Hne. congruence.
  - rewrite (Exon_and_mismatch ea ey Hc). by eexists.
Qed.

Lemma intersect_exons_list_mixed (feats : list ref) (h : heap) (r1 r2 : ref) :
  (∀ r, r ∈ feats → is_Some (h !! r)) →
  r1 ∈ feats → r2 ∈ feats → chrom_of h r1 ≠ chrom_of h r2 →
  ∃ h', intersect_exons_list feats false h = (h', Raise assertion).
Proof.
  intros Hv H1 H2 Hne. unfold intersect_exons_list.
  pose proof (elem_of_list_set feats) as Hel.
  destruct (list_set feats) as [|x [|y l]] eqn:Hl.
  - apply Hel in H1. by inv H1.
  - apply Hel, list_elem_of_singleton in H1.
    apply Hel, list_elem_of_singleton in H2. congruence.
  - destruct (Hv x) as [ex Hx]; [apply Hel; left|].
    apply (reduce_and_mixed _ _ _ ex Hx).
    + intros r Hr. apply Hv, Hel. by right.
    + assert (chrom_of h x = chrom ex) as Hcx
        by (unfold chrom_of; by rewrite Hx).
      rewrite <-Hcx.
      destruct (decide (chrom_of h r1 = chrom_of h x)) as [Heq|Hneq].
      * exists r2. split; [|congruence].
        apply Hel, elem_of_cons in H2 as [->|?]; [congruence|done].
      * exists r1. split; [|done].
        apply Hel, elem_of_cons in H1 as [->|?]; [done|done].
Qed.

Lemma emit_all_mixed (sp : list Span) (h0 h : heap) :
  h0 `prefix_of` h →
  (∀ s r, s ∈ sp → r ∈ s.2 → is_Some (h0 !! r)) →
  (∀ s, s ∈ sp → s.2 ≠ []) →
  (∃ s r1 r2, s ∈ sp ∧ r1 ∈ s.2 ∧ r2 ∈ s.2 ∧ chrom_of h0 r1 ≠ chrom_of h0 r2) →
  ∃ h', emit_all sp h = (h', Raise assertion).
Proof.
  revert h. induction sp as [|s sp IH]; intros h Hp Hv Hne Hbad.
  { destruct Hbad as (s & _ & _ & Hs & _). by inv Hs. }
  assert (∀ r, r ∈ s.2 → chrom_of h r = chrom_of h0 r) as Hch.
  { intros r Hr. destruct (Hv s r) as [e He]; [left|done|].
    unfold chrom_of. by rewrite (prefix_lookup_Some _ _ _ _ He Hp), He. }
  assert (∀ r, r ∈ s.2 → is_Some (h !! r)) as Hvh.
  { intros r Hr. destruct (Hv s r) as [e He]; [left|done|].
    exists e. by eapply prefix_lookup_Some. }
  cbn [emit_all]. unfold bind at 1.
  destruct (s.2) as [|r0 rest] eqn:Hs2; [by destruct (Hne s); [left|]|].
  destruct (decide (Forall (λ r, chrom_of h0 r = chrom_of h0 r0) (r0 :: rest)))
    as [Hall|Hmix].
  - rewrite Forall_forall in Hall.
    destruct (emit_spec s h (chrom_of h0 r0)) as (ext & obj & Hrun & _).
    { by rewrite Hs2. }
    { rewrite Hs2. intros r Hr. destruct (Hv s r) as [e He]; [left|by rewrite Hs2|].
      exists e. split; [by eapply prefix_lookup_Some|].
      rewrite <-(Hall r Hr). unfold chrom_of. by rewrite He. }
    rewrite Hrun.
    destruct (IH (h ++ ext ++ [obj])) as [h' Hrun'].
    { etrans; [done|]. by apply prefix_app_r. }
    { intros s' r Hs'. apply Hv. by right. }
    { intros s' Hs'. apply Hne. by right. }
    { destruct Hbad as (s' & r1 & r2 & Hs' & H1 & H2 & Hdiff).
      exists s', r1, r2. repeat split; [|done..].
      apply elem_of_cons in Hs' as [->|?]; [|done]. rewrite Hs2 in H1, H2.
      rewrite (Hall r1 H1), (Hall r2 H2) in Hdiff. done. }
    exists h'. unfold bind. by rewrite Hrun'.
  - apply not_Forall_Exists in Hmix; [|apply _].
    apply Exists_exists in Hmix as (r & Hr & Hdiff).
    destruct (intersect_exons_list_mixed (r0 :: rest) h r r0) as [h' Hrun].
    { exact Hvh. }
    { done. }
    { left. }
    { rewrite !Hch; [done|left|done]. }
    exists h'. unfold emit, bind. rewrite Hs2 in *. by rewrite Hrun.
Qed.

End mismatch.


(** ** [intersect_exons_list] and its flag *)

Lemma list_set_twice `{HashOrder} `{EqDecision A} (x : A) : list_set [x; x] = [x].
Proof.
  unfold list_set. cbn [dedup]. rewrite filter_nil, filter_cons.
  rewrite decide_False by (by intros ?). rewrite filter_nil.
  apply hash_order_singleton.
Qed.

(** X25.  Given the same exon twice, [intersect_exons_list] returns a copy of
    it as long as [multiple] is false; with [multiple] it merges the exon
    with itself into a new object named [name|name], of doubled
    multiplicity and of [length] 0, with the chromosome, gene, strand and
    transcripts of the exon. *)
Theorem intersect_exons_list_twice `{HashOrder} (r : ref) (h : heap) (e : Exon) :
  h !! r = Some e →
  intersect_exons_list [r; r] false h = (h ++ [e], Ok (length h)) ∧
  ∃ E, intersect_exons_list [r; r] true h = (h ++ [E], Ok (length h)) ∧
       name E = name e +:+ "|" +:+ name e ∧ id_ E = id_ e +:+ id_ e ∧
       multiplicity E = 2 * multiplicity e ∧ length_ E = 0 ∧
       chrom E = chrom e ∧ gene_id E = gene_id e ∧
       gene_name E = gene_name e ∧ strand E = strand e ∧
       ∀ t, t ∈ transcripts E ↔ t ∈ transcripts e.
Proof.
  intros He. split.
  - unfold intersect_exons_list. rewrite list_set_twice.
    unfold deepcopy, bind, load, alloc. by rewrite He.
  - unfold intersect_exons_list. cbn [reduce_and].
    assert (∃ E, Exon_and e e = Ok E ∧
              E = set_transcripts (set_union (transcripts e) (transcripts e))
                    (Exon_init [] (id_ e +:+ id_ e)
                       (join "|" (list_set [gene_id e; gene_id e]))
                       (join "|" (list_set [gene_name e; gene_name e]))
                       (chrom e) 0 0 (join "|" [name e; name e]) 0%Qc
                       ((strand e + strand e) / 2)
                       (multiplicity e + multiplicity e)))
      as (E & HE & HEq).
    { unfold Exon_and, GenomicObject_and.
      destruct (decide (chrom e = chrom e)); [|done]. by eexists. }
    exists E. split.
    { destruct (and_ref_spec r r h e e He He eq_refl) as (E' & HE' & Hand).
      rewrite HE in HE'. injection HE' as <-. unfold bind. by rewrite Hand. }
    rewrite HEq.
    cbn [name id_ multiplicity length_ chrom gene_id gene_name strand
         transcripts set_transcripts Exon_init].
    rewrite !list_set_twice. cbn [join].
    repeat split; try done; try lia.
    + replace (strand e + strand e) with (strand e * 2) by lia.
      by apply Z.div_mul.
    + intros Ht. apply elem_of_set_union in Ht. tauto.
    + intros Ht. apply elem_of_set_union. by left.
Qed.

Lemma intersect_exons_list_twice_witness :
  @intersect_exons_list insertion_order [0%nat; 0%nat] false scenario_A
  = (scenario_A ++ [exon_at "E1" 0 100 ["T1"]], Ok (length scenario_A)) ∧
  ∃ E, @intersect_exons_list insertion_order [0%nat; 0%nat] true scenario_A
       = (scenario_A ++ [E], Ok (length scenario_A)) ∧
       name E = name (exon_at "E1" 0 100 ["T1"]) +:+ "|"
                +:+ name (exon_at "E1" 0 100 ["T1"]) ∧
       id_ E = id_ (exon_at "E1" 0 100 ["T1"]) +:+ id_ (exon_at "E1" 0 100 ["T1"]) ∧
       multiplicity E = 2 * multiplicity (exon_at "E1" 0 100 ["T1"]) ∧
       length_ E = 0 ∧
       chrom E = chrom (exon_at "E1" 0 100 ["T1"]) ∧
       gene_id E = gene_id (exon_at "E1" 0 100 ["T1"]) ∧
       gene_name E = gene_name (exon_at "E1" 0 100 ["T1"]) ∧
       strand E = strand (exon_at "E1" 0 100 ["T1"]) ∧
       ∀ t, t ∈ transcripts E ↔ t ∈ transcripts (exon_at "E1" 0 100 ["T1"]).
Proof. apply (@intersect_exons_list_twice insertion_order). reflexivity. Defined.

(** ** [cobble] and the set of the exons *)

Lemma spans_bounds (ends : list Event) (active : list ref) (sp : list Span) :
  spans active ends = Ok sp →
  ∀ s, s ∈ sp → (∃ a, a ∈ ends ∧ pos a = s.1.1) ∧ (∃ b, b ∈ ends ∧ pos b = s.1.2).
Proof.
  revert active sp. induction ends as [|a ends IH]; intros active sp.
  { intros [= <-] s Hs. by inv Hs. }
  destruct ends as [|b rest]; [intros [= <-] s Hs; by inv Hs|].
  rewrite spans_step.
  destruct (activate a active) as [active'|]; [|done]. cbn [rbind].
  assert (∀ sp', spans active' (b :: rest) = Ok sp' →
            ∀ s, s ∈ sp' → (∃ a', a' ∈ a :: b :: rest ∧ pos a' = s.1.1) ∧
                           (∃ b', b' ∈ a :: b :: rest ∧ pos b' = s.1.2)) as Hrest.
  { intros sp' Hsp' s Hs.
    destruct (IH _ _ Hsp' s Hs) as [(a' & ? & ?) (b' & ? & ?)].
    split; [exists a'|exists b']; (split; [by right|done]). }
  destruct (decide (length active' = 0%nat)); [by apply Hrest|].
  destruct (decide (pos a = pos b)); [by apply Hrest|].
  destruct (spans active' (b :: rest)) as [sp'|] eqn:Hsp; [|done].
  intros [= <-] s [->|Hs]%elem_of_cons; [|by eapply Hrest].
  simpl. split; [exists a; split; [left|done]|].
  exists b. split; [right; left|done].
Qed.

Lemma chain_Forall (lo : Z) (sp : list Span) :
  chain lo sp → Forall (λ s, lo ≤ s.1.1 ∧ s.1.1 < s.1.2) sp.
Proof.
  revert lo. induction sp as [|s sp IH]; intros lo; [constructor|].
  intros (Hlo & Hlt & Hch). constructor; [done|].
  eapply Forall_impl; [by apply IH|]. simpl. lia.
Qed.

Lemma chain_sorted (lo : Z) (sp : list Span) :
  chain lo sp → StronglySorted before (fst <$> sp).
Proof.
  revert lo. induction sp as [|s sp IH]; intros lo; [constructor|].
  intros (Hlo & Hlt & Hch). rewrite fmap_cons. constructor; [by eapply IH|].
  apply Forall_fmap. eapply Forall_impl; [by apply chain_Forall|].
  unfold before. simpl. lia.
Qed.

Lemma sorted_before_NoDup (l : list (Z * Z)) :
  Forall (λ x, x.1 < x.2) l → StronglySorted before l → NoDup l.
Proof.
  intros Hlt Hs. induction Hs as [|x l Hs IH Hx]; [constructor|].
  apply Forall_cons in Hlt as [Hx1 Hlt]. constructor; [|by apply IH].
  intros Hin. rewrite Forall_forall in Hx. specialize (Hx x Hin).
  unfold before in Hx. lia.
Qed.

Section same_set.
Context (st en : ref → Z) (exons : list ref).
Hypothesis Hlen : ∀ r, r ∈ exons → st r < en r.

Lemma boundary_event (a : Event) :
  a ∈ merge_sort event_le (events st en exons) → boundary st en exons (pos a).
Proof.
  intros (r & Hr & [->| ->])%elem_of_sorted_events; exists r; auto.
Qed.

(** The boundaries of the spans of the walk are the spanned gaps between
    neighbouring boundaries, in order. *)
Lemma spans_gaps (sp : list Span) :
  spans [] (merge_sort event_le (events st en exons)) = Ok sp →
  StronglySorted before (fst <$> sp) ∧ NoDup (fst <$> sp) ∧
  Forall (span_ok st en exons) sp ∧
  ∀ ab, ab ∈ fst <$> sp ↔ spanned_gap st en exons ab.
Proof.
  intros Hsp.
  destruct (spans_cobble st en exons Hlen) as (sp' & Hsp' & Hch & Hok & Hcomp).
  rewrite Hsp in Hsp'. injection Hsp' as <-.
  pose proof (spans_bounds _ _ _ Hsp) as Hb.
  assert (StronglySorted before (fst <$> sp)) as Hsorted by (by eapply chain_sorted).
  split; [done|]. split.
  { apply sorted_before_NoDup; [|done]. apply Forall_fmap.
    eapply Forall_impl; [by eapply chain_Forall|]. simpl. lia. }
  split; [done|]. rewrite Forall_forall in Hok.
  assert (∀ s x, s ∈ sp → boundary st en exons x → ¬ (s.1.1 < x < s.1.2)) as Hnb.
  { intros s x Hs (r & Hr & [->| ->]); destruct (Hok s Hs) as (_ & _ & _ & _ & Hn);
      by destruct (Hn r Hr). }
  intros ab. rewrite list_elem_of_fmap. split.
  - intros (s & -> & Hs). destruct (Hok s Hs) as (Hlt & Hne & _ & Hin & _).
    destruct (Hb s Hs) as [(a & Ha & Hpa) (b & Hb' & Hpb)].
    split; [done|]. split; [rewrite <-Hpa; by apply boundary_event|].
    split; [rewrite <-Hpb; by apply boundary_event|].
    split; [intros x; by apply Hnb|].
    destruct (s.2) as [|r ?] eqn:Hs2; [done|].
    exists r. apply Hin. left.
  - intros (Hlt & Ha & Hb' & Hno & r & Hr & Hra & Hrb).
    destruct (Hcomp ab.1 r Hr) as (s & Hs & Hsx); [lia|].
    exists s. split; [|done].
    destruct (Hb s Hs) as [(a & Hae & Hpa) (b & Hbe & Hpb)].
    apply boundary_event in Hae, Hbe. rewrite Hpa in Hae. rewrite Hpb in Hbe.
    pose proof (Hnb s ab.1 Hs Ha). pose proof (Hnb s ab.2 Hs Hb').
    pose proof (Hno s.1.1 Hae). pose proof (Hno s.1.2 Hbe).
    destruct ab as [a0 b0], s as [[a1 b1] l]. simpl in *. f_equal; lia.
Qed.
End same_set.

Lemma spanned_gap_ext (st en : ref → Z) (exons1 exons2 : list ref) (ab : Z * Z) :
  (∀ r, r ∈ exons1 ↔ r ∈ exons2) →
  spanned_gap st en exons1 ab → spanned_gap st en exons2 ab.
Proof.
  intros Heq. unfold spanned_gap, boundary.
  intros (? & (r1 & ? & ?) & (r2 & ? & ?) & Hno & (r & ? & ?)).
  split; [done|]. split; [exists r1; by rewrite <-Heq|].
  split; [exists r2; by rewrite <-Heq|]. split.
  - intros x (r' & Hr' & ?). apply Hno. exists r'. by rewrite Heq.
  - exists r. by rewrite <-Heq.
Qed.

Lemma dedup_sublist `{EqDecision A} (l : list A) : dedup l `sublist_of` l.
Proof.
  induction l as [|x l IH]; [done|]. simpl. constructor.
  etrans; [apply sublist_filter|done].
Qed.

Lemma StronglySorted_sublist {A} (R : relation A) (l1 l2 : list A) :
  l1 `sublist_of` l2 → StronglySorted R l2 → StronglySorted R l1.
Proof.
  induction 1 as [|x l1 l2 Hsub IH|x l1 l2 Hsub IH]; intros Hs; [done|..].
  - apply StronglySorted_cons in Hs as [Hx Hs]. constructor; [by apply IH|].
    apply Forall_forall. intros y Hy. rewrite Forall_forall in Hx.
    apply Hx. by eapply elem_of_sublist.
  - apply StronglySorted_cons in Hs as [_ Hs]. by apply IH.
Qed.

Lemma dedup_sorted_unique (st : ref → Z) (l1 l2 : list ref) :
  StronglySorted (ref_le st) l1 → StronglySorted (ref_le st) l2 →
  (∀ r, r ∈ l1 ↔ r ∈ l2) → dedup l1 = dedup l2.
Proof.
  intros H1 H2 Heq.
  apply (StronglySorted_unique_strong (ref_le st)).
  - intros ? ? _ _. apply ref_le_antisym.
  - eapply StronglySorted_sublist; [apply dedup_sublist|done].
  - eapply StronglySorted_sublist; [apply dedup_sublist|done].
  - apply NoDup_Permutation; [apply NoDup_dedup..|].
    intros r. by rewrite !elem_of_dedup.
Qed.

Lemma emit_ext `{HashOrder} (s1 s2 : Span) (h : heap) :
  s1.1 = s2.1 → dedup s1.2 = dedup s2.2 → emit s1 h = emit s2 h.
Proof.
  intros H1 H2. unfold emit, intersect_exons_list, list_set.
  by rewrite H1, H2.
Qed.

Lemma emit_all_ext `{HashOrder} (sp1 sp2 : list Span) (h : heap) :
  Forall2 (λ s1 s2, s1.1 = s2.1 ∧ dedup s1.2 = dedup s2.2) sp1 sp2 →
  emit_all sp1 h = emit_all sp2 h.
Proof.
  intros HF. revert h. induction HF as [|s1 s2 sp1 sp2 [H1 H2] _ IH]; intros h.
  { done. }
  cbn [emit_all]. unfold bind. rewrite (emit_ext s1 s2 h H1 H2).
  destruct (emit s2 h) as [h1 [e|]]; [|done]. by rewrite IH.
Qed.

(** X26.  On exons of positive length [cobble] depends on the set of the
    exons only: two lists of the same exons, in any order and with any
    repetitions, give the same pieces and the same store.  In particular a
    list gives what the list of its distinct exons gives. *)
Theorem cobble_same_set `{HashOrder} (exons1 exons2 : list ref)
    (multiple : bool) (h : heap) :
  valid_exons h exons1 → (∀ r, r ∈ exons1 ↔ r ∈ exons2) →
  cobble exons1 multiple h = cobble exons2 multiple h ∧
  cobble exons1 multiple h = cobble (dedup exons1) multiple h.
Proof.
  assert (∀ l1 l2, valid_exons h l1 → (∀ r, r ∈ l1 ↔ r ∈ l2) →
            cobble l1 multiple h = cobble l2 multiple h) as Hmain.
  { intros l1 l2 Hv Heq.
    assert (valid_exons h l2) as Hv2 by (intros r Hr; by apply Hv, Heq).
    assert (∀ l, valid_exons h l → ∀ r, r ∈ l → start_of h r < end_of h r)
      as Hlen by (intros l Hl r Hr; by eapply valid_exons_length).
    destruct (spans_cobble (start_of h) (end_of h) l1 (Hlen l1 Hv))
      as (sp1 & Hsp1 & _).
    destruct (spans_cobble (start_of h) (end_of h) l2 (Hlen l2 Hv2))
      as (sp2 & Hsp2 & _).
    destruct (spans_gaps _ _ l1 (Hlen l1 Hv) sp1 Hsp1) as (Hs1 & Hn1 & Hok1 & Hg1).
    destruct (spans_gaps _ _ l2 (Hlen l2 Hv2) sp2 Hsp2) as (Hs2 & Hn2 & Hok2 & Hg2).
    rewrite !cobble_events
      by (intros r Hr; first [destruct (Hv r Hr) as (e & -> & _)
                             |destruct (Hv2 r Hr) as (e & -> & _)]; done).
    rewrite (cobble_loop_spans _ _ sp1), (cobble_loop_spans _ _ sp2) by done.
    apply emit_all_ext.
    assert (fst <$> sp1 = fst <$> sp2) as Hfst.
    { apply (StronglySorted_unique_strong before); [|done..|].
      - intros x y Hx Hy Hxy Hyx. exfalso.
        apply Hg1 in Hx as [Hx _]. apply Hg2 in Hy as [Hy _].
        unfold before in *. lia.
      - apply NoDup_Permutation; [done..|]. intros ab. rewrite Hg1, Hg2.
        split; apply spanned_gap_ext; [done|]. intros r. by rewrite Heq. }
    clear Hs1 Hs2 Hn1 Hn2 Hg1 Hg2 Hsp1 Hsp2.
    revert sp2 Hok2 Hfst. induction sp1 as [|s1 sp1 IH]; intros sp2 Hok2 Hfst.
    { destruct sp2; [constructor|done]. }
    destruct sp2 as [|s2 sp2]; [done|]. injection Hfst as H1 Hfst.
    apply Forall_cons in Hok1 as [Ho1 Hok1].
    apply Forall_cons in Hok2 as [Ho2 Hok2].
    constructor; [|by apply IH]. split; [done|].
    destruct Ho1 as (_ & _ & Hsrt1 & Hin1 & _).
    destruct Ho2 as (_ & _ & Hsrt2 & Hin2 & _).
    apply (dedup_sorted_unique (start_of h)); [done..|].
    intros r. rewrite Hin1, Hin2, Heq, H1. done. }
  intros Hv Heq. split; [by apply Hmain|].
  apply Hmain; [done|]. intros r. by rewrite elem_of_dedup.
Qed.

Lemma cobble_same_set_witness :
  @cobble insertion_order [0%nat; 1%nat; 0%nat] false scenario_A
  = @cobble insertion_order [1%nat; 0%nat] false scenario_A ∧
  @cobble insertion_order [0%nat; 1%nat; 0%nat] false scenario_A
  = @cobble insertion_order (dedup [0%nat; 1%nat; 0%nat]) false scenario_A.
Proof.
  apply (@cobble_same_set insertion_order).
  - intros r Hr. apply scenario_A_valid. set_solver.
  - intros r. set_solver.
Defined.

(** ** Collapsing twice *)

Section replacement_facts.
Context `{HashOrder}.

Lemma tx_replace_inv (pieces : list Exon) (t r : string) :
  tx_replace_of pieces !! t = Some r →
  t ≠ r ∧ retained_ids t pieces ≠ [] ∧
  retained_ids t pieces ≡ₚ retained_ids r pieces ∧
  tx_replace_of pieces !! r = None.
Proof.
  unfold tx_replace_of. intros (es & bad & Hes & Ht)%tx_replace_group.
  destruct (build_e2t_lookup _ _ _ Hes) as [Hnd Hmem].
  apply NoDup_cons in Hnd as [Hr Hnd].
  destruct (proj1 (Hmem r)) as (er & Her & Hsr); [left|].
  destruct (proj1 (Hmem t)) as (et & Het & Hst); [by right|].
  apply build_t2e_lookup in Het as Het'. destruct Het' as [-> Hne].
  apply build_t2e_lookup in Her as Her'. destruct Her' as [-> _].
  split; [by intros ->|]. split; [done|]. split.
  { rewrite <-(merge_sort_Permutation str_le (retained_ids t pieces)).
    rewrite <-(merge_sort_Permutation str_le (retained_ids r pieces)).
    unfold sorted in Hsr, Hst. by rewrite Hsr, Hst. }
  destruct (build_tx_replace _ !! r) as [r'|] eqn:Hr'; [exfalso|done].
  apply tx_replace_group in Hr' as (es' & bad' & Hes' & Hr'').
  destruct (build_e2t_lookup _ _ _ Hes') as [_ Hmem'].
  destruct (proj1 (Hmem' r)) as (er' & Her' & Hsr'); [by right|].
  rewrite Her in Her'. injection Her' as <-.
  rewrite Hsr in Hsr'. subst es'. rewrite Hes in Hes'.
  injection Hes' as -> ->. done.
Qed.

Lemma dict_of_pairs_is_Some (pairs : list (string * string)) (k v : string) :
  (k, v) ∈ pairs → is_Some (dict_of_pairs pairs !! k).
Proof.
  unfold dict_of_pairs.
  assert (∀ d : gmap string string,
            is_Some (d !! k) ∨ (∃ v, (k, v) ∈ pairs) →
            is_Some (foldl (λ d (kv : string * string), <[kv.1 := kv.2]> d) d pairs
                     !! k)) as Hgen.
  { induction pairs as [|[k' v'] pairs IH]; intros d Hd; simpl.
    { destruct Hd as [?|(? & Hin)]; [done|by inv Hin]. }
    apply IH. destruct (decide (k' = k)) as [->|Hne].
    - left. rewrite lookup_insert_eq. by eexists.
    - rewrite lookup_insert_ne by done.
      destruct Hd as [?|(v0 & [[= ? ?]|?]%elem_of_cons)]; [by left|done|].
      right. by exists v0. }
  intros Hin. apply Hgen. right. by exists v.
Qed.

(** Two transcripts of one combination: one of them is replaced. *)
Lemma tx_replace_complete (t2e : gmap string (list string)) (t r : string)
    (e1 e2 : list string) :
  t2e !! t = Some e1 → t2e !! r = Some e2 → sorted e1 = sorted e2 → t ≠ r →
  is_Some (build_tx_replace (build_e2t t2e) !! t) ∨
  is_Some (build_tx_replace (build_e2t t2e) !! r).
Proof.
  intros Ht Hr Hs Hne.
  assert (is_Some (build_e2t t2e !! sorted e1)) as [tlist Htl].
  { unfold build_e2t. apply foldl_setdefault_is_Some. right.
    exists (t, e1). split; [by apply elem_of_iteritems|done]. }
  destruct (build_e2t_lookup _ _ _ Htl) as [Hnd Hmem].
  assert (t ∈ tlist) as Hin1 by (apply Hmem; by exists e1).
  assert (r ∈ tlist) as Hin2 by (apply Hmem; by exists e2).
  destruct tlist as [|t0 bad]; [by inv Hin1|].
  assert (∀ b, b ∈ bad → is_Some (build_tx_replace (build_e2t t2e) !! b)) as Hbad.
  { intros b Hb. unfold build_tx_replace.
    apply (dict_of_pairs_is_Some _ b t0), elem_of_concat.
    exists (bad_pairs (t0 :: bad)). split.
    - apply list_elem_of_fmap. exists (t0 :: bad). split; [done|].
      apply list_elem_of_fmap. exists (sorted e1, t0 :: bad). split; [done|].
      by apply elem_of_iteritems.
    - simpl. apply list_elem_of_fmap. by exists b. }
  apply elem_of_cons in Hin1 as [->|Hin1]; [|left; by apply Hbad].
  apply elem_of_cons in Hin2 as [->|Hin2]; [done|right; by apply Hbad].
Qed.
End replacement_facts.

Lemma filter_fmap_comm {A B} (f : A → B) (P : B → Prop) `{∀ y, Decision (P y)}
    (l : list A) :
  filter P (f <$> l) = f <$> filter (λ x, P (f x)) l.
Proof.
  induction l as [|x l IH]; [done|].
  rewrite fmap_cons, !filter_cons, IH. by destruct (decide (P (f x))).
Qed.

Lemma filter_ext_elem {A} (P Q : A → Prop) `{∀ x, Decision (P x)}
    `{∀ x, Decision (Q x)} (l : list A) :
  (∀ x, x ∈ l → P x ↔ Q x) → filter P l = filter Q l.
Proof.
  induction l as [|x l IH]; intros HPQ; [done|].
  rewrite !filter_cons, IH by (intros; apply HPQ; by right).
  destruct (decide (P x)) as [HP|HP], (decide (Q x)) as [HQ|HQ]; try done.
  - destruct HQ. apply HPQ; [left|done].
  - destruct HP. apply HPQ; [left|done].
Qed.

Lemma NoDup_fmap_elem_inj {A B} (f : A → B) (l : list A) (x y : A) :
  NoDup (f <$> l) → x ∈ l → y ∈ l → f x = f y → x = y.
Proof.
  induction l as [|z l IH]; [by inversion 2|]. rewrite fmap_cons.
  intros [Hz Hnd]%NoDup_cons [->|Hx]%elem_of_cons [->|Hy]%elem_of_cons Hf.
  - done.
  - destruct Hz. rewrite Hf. apply list_elem_of_fmap. by exists y.
  - destruct Hz. rewrite <-Hf. apply list_elem_of_fmap. by exists x.
  - by apply IH.
Qed.

Lemma pairs_filter_NoDup (l : list string) (t i : string) :
  NoDup l →
  snd <$> filter (λ x : string * string, x.1 = t) ((λ t', (t', i)) <$> l)
  = if decide (t ∈ l) then [i] else [].
Proof.
  induction 1 as [|y l Hy _ IH]; [done|].
  rewrite fmap_cons, filter_cons. cbn [fst].
  destruct (decide (y = t)) as [->|Hne].
  - rewrite fmap_cons, IH. rewrite decide_False by done.
    by rewrite decide_True by left.
  - rewrite IH. destruct (decide (t ∈ l)) as [Hin|Hin].
    + by rewrite decide_True by (by right).
    + rewrite decide_False; [done|]. by intros [?|?]%elem_of_cons.
Qed.

(** With no transcript listed twice on a piece of length 100 or more, the
    signature of a transcript names once each such piece that holds it. *)
Lemma retained_ids_filter (pieces : list Exon) (t : string) :
  Forall (λ p, 100 ≤ length_ p → NoDup (transcripts p)) pieces →
  retained_ids t pieces
  = id_ <$> filter (λ p, t ∈ transcripts p) (retained pieces).
Proof.
  unfold retained_ids, t2e_pairs, retained.
  induction 1 as [|p pieces Hp _ IH]; [done|].
  rewrite bind_cons, filter_app, fmap_app, IH, (filter_cons _ p).
  destruct (decide (100 ≤ length_ p)) as [Hlong|Hshort].
  - rewrite bool_decide_eq_false_2 by lia.
    rewrite pairs_filter_NoDup by auto. rewrite filter_cons.
    by destruct (decide (t ∈ transcripts p)).
  - by rewrite bool_decide_eq_true_2 by lia.
Qed.

Lemma retained_ids_elem_of (pieces : list Exon) (t : string) :
  retained_ids t pieces ≠ [] → ∃ p, p ∈ pieces ∧ t ∈ transcripts p.
Proof.
  unfold retained_ids. intros Hne.
  destruct (filter _ (t2e_pairs pieces)) as [|x l] eqn:Hf; [done|].
  assert (x ∈ filter (λ x : string * string, x.1 = t) (t2e_pairs pieces))
    as [Hx Hin]%list_elem_of_filter by (rewrite Hf; left).
  unfold t2e_pairs in Hin. apply list_elem_of_bind in Hin as (p & Hin & Hp).
  exists p. split; [done|]. destruct (bool_decide _); [by inv Hin|].
  apply list_elem_of_fmap in Hin as (t' & -> & Ht'). simpl in Hx. by subst.
Qed.

Section collapse_again.
Context `{HashOrder} (pieces : list Exon).
Hypothesis Hids : NoDup (id_ <$> retained pieces).
Hypothesis Htxs : Forall (λ p, 100 ≤ length_ p → NoDup (transcripts p)) pieces.

Local Abbreviation R := (tx_replace_of pieces).
Local Abbreviation rw := (λ p, set_transcripts (filtered (tx_replace_of pieces) p) p).

Lemma filtered_not_replaced (p : Exon) (t' : string) :
  t' ∈ filtered R p → R !! t' = None.
Proof.
  unfold filtered. rewrite elem_of_list_set.
  intros (t0 & -> & _)%list_elem_of_fmap.
  destruct (R !! t0) as [r|] eqn:Hr; [|done]. simpl.
  by apply tx_replace_inv in Hr as (_ & _ & _ & ?).
Qed.

Lemma retained_ids_piece (p : Exon) (t : string) :
  p ∈ retained pieces → t ∈ transcripts p → id_ p ∈ retained_ids t pieces.
Proof.
  intros Hp Ht. rewrite retained_ids_filter by done.
  apply list_elem_of_fmap. exists p. split; [done|].
  by apply list_elem_of_filter.
Qed.

Lemma retained_ids_holds (p : Exon) (t : string) :
  p ∈ retained pieces → id_ p ∈ retained_ids t pieces → t ∈ transcripts p.
Proof.
  intros Hp. rewrite retained_ids_filter by done.
  intros (q & Hid & [Ht Hq]%list_elem_of_filter)%list_elem_of_fmap.
  by rewrite (NoDup_fmap_elem_inj id_ (retained pieces) p q Hids Hp Hq Hid).
Qed.

Lemma filtered_retained (p : Exon) (t' : string) :
  p ∈ retained pieces → R !! t' = None →
  t' ∈ filtered R p ↔ t' ∈ transcripts p.
Proof.
  intros Hp Hnone. unfold filtered. rewrite elem_of_list_set, list_elem_of_fmap.
  split.
  - intros (t0 & -> & Ht0). destruct (R !! t0) as [r|] eqn:Hr; [|done]. simpl.
    apply tx_replace_inv in Hr as (_ & _ & Hperm & _).
    apply retained_ids_holds; [done|]. rewrite <-Hperm.
    by apply retained_ids_piece.
  - intros Ht'. exists t'. by rewrite Hnone.
Qed.

Lemma retained_collapse : retained (rw <$> pieces) = rw <$> retained pieces.
Proof. unfold retained. by rewrite filter_fmap_comm. Qed.

Lemma retained_ids_collapse (t' : string) :
  R !! t' = None →
  retained_ids t' (rw <$> pieces) = retained_ids t' pieces.
Proof.
  intros Hnone. rewrite !retained_ids_filter; [|done|].
  2:{ apply Forall_fmap, Forall_forall. intros p _ _. simpl.
      apply NoDup_list_set. }
  rewrite retained_collapse, filter_fmap_comm, <-list_fmap_compose.
  cbn [transcripts set_transcripts].
  rewrite (filter_ext_elem _ (λ p, t' ∈ transcripts p)).
  - by apply list_fmap_ext.
  - intros p Hp. by apply filtered_retained.
Qed.

Lemma collapse_again_empty : tx_replace_of (rw <$> pieces) = ∅.
Proof.
  apply map_empty. intros t.
  destruct (tx_replace_of (rw <$> pieces) !! t) as [r|] eqn:Hr; [exfalso|done].
  apply tx_replace_inv in Hr as (Hne & Hsome & Hperm & _).
  assert (retained_ids r (rw <$> pieces) ≠ []) as Hsome'.
  { intros Hnil. rewrite Hnil in Hperm. by apply Permutation_nil_r in Hperm. }
  assert (∀ x, retained_ids x (rw <$> pieces) ≠ [] → R !! x = None) as Hsurv.
  { intros x (p' & (p & -> & Hp)%list_elem_of_fmap & Hx)%retained_ids_elem_of.
    exact (filtered_not_replaced p x Hx). }
  pose proof (Hsurv t Hsome) as Ht. pose proof (Hsurv r Hsome') as Hr.
  rewrite (retained_ids_collapse t Ht), (retained_ids_collapse r Hr) in Hperm.
  rewrite (retained_ids_collapse t Ht) in Hsome.
  rewrite (retained_ids_collapse r Hr) in Hsome'.
  assert (retained_ids t pieces = retained_ids r pieces) as Heq.
  { rewrite !retained_ids_filter by done. f_equal. apply filter_ext_elem.
    intros p Hp. split; intros Hin.
    - apply retained_ids_holds; [done|]. rewrite <-Hperm.
      by apply retained_ids_piece.
    - apply retained_ids_holds; [done|]. rewrite Hperm.
      by apply retained_ids_piece. }
  destruct (tx_replace_complete (build_t2e pieces) t r
              (retained_ids t pieces) (retained_ids r pieces))
    as [[? Hc]|[? Hc]]; [by apply build_t2e_lookup..|by rewrite Heq|done| |].
  - unfold tx_replace_of in Ht. congruence.
  - unfold tx_replace_of in Hr. congruence.
Qed.
End collapse_again.

Lemma collapse_NoDup `{HashOrder} (pieces : list Exon) : NoDup (collapse pieces).2.
Proof.
  unfold collapse.
  pose proof (rewrite_pieces_NoDup (tx_replace_of pieces) [] pieces NoDup_nil_2)
    as Hacc.
  destruct (rewrite_pieces _ [] pieces) as [ps acc]. simpl in *.
  by rewrite hash_order_perm.
Qed.

Lemma filtered_empty `{HashOrder} (p : Exon) :
  NoDup (transcripts p) → filtered ∅ p ≡ₚ transcripts p.
Proof.
  intros Hnd. unfold filtered, list_set.
  assert ((λ t, default t ((∅ : gmap string string) !! t)) <$> transcripts p
          = transcripts p) as ->.
  { rewrite <-(list_fmap_id (transcripts p)) at 2. apply list_fmap_ext.
    intros i t _. by rewrite lookup_empty. }
  by rewrite hash_order_perm, dedup_NoDup.
Qed.



(** ** From [cobble] to the scores *)

Lemma objects_Forall2 (h : heap) (rs : list ref) :
  (∀ r, r ∈ rs → is_Some (h !! r)) →
  Forall2 (λ r obj, h !! r = Some obj) rs (objects h rs).
Proof.
  induction rs as [|r rs IH]; intros Hv; [constructor|].
  destruct (Hv r) as [e He]; [left|]. unfold objects in *. simpl.
  rewrite He. simpl. constructor; [done|]. apply IH. intros; apply Hv. by right.
Qed.

(** X28.  The pieces [cobble] makes of exons of positive length on one
    chromosome, once collapsed, are all scored unless a read of their
    regions has an [NH] tag 0: each of them has bases, and the loop gives it
    the length [end - start], which is positive, where [cobble] had left
    the length of an exon or 0. *)
Theorem cobble_then_score `{HashOrder} (fetch : string → Z → Z → list Alignment)
    (chr : string) (exons : list ref) (multiple : bool) (h h' : heap)
    (ps : list ref) :
  valid_exons h exons → same_chrom h exons →
  cobble exons multiple h = (h', Ok ps) →
  (∀ p a, p ∈ (collapse (objects h' ps)).1 →
          a ∈ fetch chr (start p) (end_ p) → ("NH", 0) ∉ tags a) →
  ∃ c, score_pieces fetch chr (Counter.init false) (collapse (objects h' ps)).1
       = Ok (density fetch chr <$> (collapse (objects h' ps)).1, c) ∧
       length (collapse (objects h' ps)).1 = length ps ∧
       Forall (λ p, length_ p = end_ p - start p ∧ 0 < length_ p)
         (density fetch chr <$> (collapse (objects h' ps)).1).
Proof.
  intros Hv Hc Hrun Hreads.
  destruct (cobble_spec exons multiple h Hv Hc)
    as (sp & h1 & ps1 & Hrun1 & _ & Hpieces & [lo Hch] & _).
  rewrite Hrun in Hrun1. injection Hrun1 as <- <-.
  assert (Forall2 (λ r obj, h' !! r = Some obj) ps (objects h' ps)) as Hobj.
  { apply objects_Forall2. intros r Hr.
    destruct (Forall2_elem_of_l _ _ _ _ Hpieces Hr) as (s & _ & obj & -> & _).
    done. }
  assert (Forall (λ obj, start obj < end_ obj) (objects h' ps)) as Hpos.
  { apply Forall_forall. intros obj Hin.
    destruct (Forall2_elem_of_r _ _ _ _ Hobj Hin) as (r & Hr & Hlook).
    destruct (Forall2_elem_of_l _ _ _ _ Hpieces Hr)
      as (s & Hs & obj' & Hlook' & Hst & Hen & _).
    rewrite Hlook in Hlook'. injection Hlook' as <-.
    apply chain_Forall in Hch. rewrite Forall_forall in Hch.
    destruct (Hch s Hs). lia. }
  destruct (collapse_spec (objects h' ps)) as (Hps & _ & _).
  assert (Forall (λ p, start p < end_ p) (collapse (objects h' ps)).1) as Hpos'.
  { rewrite Hps. apply Forall_fmap. eapply Forall_impl; [done|].
    intros p. by destruct p. }
  pose proof (score_pieces_run fetch chr (collapse (objects h' ps)).1
                (Counter.init false) eq_refl eq_refl) as Hscore.
  destruct (decide (Exists _ (collapse (objects h' ps)).1)) as [Hex|_].
  { exfalso. apply Exists_exists in Hex as (p & Hp & [Heq|Hnh]).
    - rewrite Forall_forall in Hpos'. specialize (Hpos' p Hp). lia.
    - apply Exists_exists in Hnh as (a & Ha & Hz).
      by apply (Hreads p a Hp Ha). }
  eexists. split; [done|]. split.
  - rewrite Hps, length_fmap. symmetry. by eapply Forall2_length.
  - apply Forall_fmap. eapply Forall_impl; [done|].
    intros p Hp. unfold density. destruct p. simpl in *. lia.
Qed.

Lemma cobble_then_score_witness :
  let pieces := (@collapse insertion_order
                   (objects scenario_A_cobbled [2%nat; 3%nat; 4%nat])).1 in
  ∃ c, score_pieces one_read "chr6" (Counter.init false) pieces
       = Ok (density one_read "chr6" <$> pieces, c) ∧
       length pieces = length [2%nat; 3%nat; 4%nat] ∧
       Forall (λ p, length_ p = end_ p - start p ∧ 0 < length_ p)
         (density one_read "chr6" <$> pieces).
Proof.
  apply (@cobble_then_score insertion_order one_read "chr6" [0%nat; 1%nat] false
           scenario_A).
  - exact scenario_A_valid.
  - exact scenario_A_same_chrom.
  - exact scenario_A_cobble.
  - intros p a _ ->%list_elem_of_singleton Hin. by inv Hin.
Defined.

(** X29.  The collapse invents no transcript: every entry of the list
    [transcripts] is a transcript of one of the pieces given, and one that
    is not replaced; and every transcript of a piece is listed, itself or
    by its replacement. *)
Theorem collapse_transcripts `{HashOrder} (pieces : list Exon) :
  (∀ t, t ∈ (collapse pieces).2 →
        (∃ p, p ∈ pieces ∧ t ∈ transcripts p) ∧
        tx_replace_of pieces !! t = None) ∧
  (∀ p t0, p ∈ pieces → t0 ∈ transcripts p →
           default t0 (tx_replace_of pieces !! t0) ∈ (collapse pieces).2).
Proof.
  destruct (collapse_spec pieces) as (Hps & _ & Hmem). split.
  - intros t (p' & Hp' & Ht)%Hmem. rewrite Hps in Hp'.
    apply list_elem_of_fmap in Hp' as (p & -> & Hp). simpl in Ht.
    split; [|by eapply filtered_not_replaced].
    unfold filtered in Ht. rewrite elem_of_list_set in Ht.
    apply list_elem_of_fmap in Ht as (t0 & -> & Ht0).
    destruct (tx_replace_of pieces !! t0) as [r|] eqn:Hr; [|by exists p].
    simpl. apply tx_replace_inv in Hr as (_ & Hne & Hperm & _).
    apply retained_ids_elem_of. intros Hnil. rewrite Hnil in Hperm.
    by apply Permutation_nil_r in Hperm.
  - intros p t0 Hp Ht0. apply Hmem.
    exists (set_transcripts (filtered (tx_replace_of pieces) p) p). split.
    + rewrite Hps. apply list_elem_of_fmap. by exists p.
    + simpl. unfold filtered. rewrite elem_of_list_set.
      apply list_elem_of_fmap. by exists t0.
Qed.

(** ** The pieces are different objects *)

Lemma emit_all_sorted `{HashOrder} (sp : list Span) (h0 h h' : heap)
    (ps : list ref) :
  h0 `prefix_of` h → (∀ s r, s ∈ sp → r ∈ s.2 → (r < length h0)%nat) →
  emit_all sp h = (h', Ok ps) →
  StronglySorted lt ps ∧ Forall (λ p, (length h ≤ p < length h')%nat) ps.
Proof.
  revert h h' ps. induction sp as [|s sp IH]; intros h h' ps Hp Hv.
  { intros [= <- <-]. by repeat constructor. }
  cbn [emit_all]. unfold bind at 1.
  destruct (emit s h) as [h1 [p|]] eqn:Hemit; [|done].
  apply (emit_Ok s h0) in Hemit as (ext & -> & Hlen & obj & Hobj & _);
    [|done|intros; eapply Hv; [left|done]].
  apply lookup_lt_Some in Hobj. unfold bind.
  destruct (emit_all sp (h ++ ext)) as [h2 [ps'|]] eqn:Hall; [|done].
  pose proof (emit_all_Ok sp h0 (h ++ ext) h2 ps') as Hfr.
  destruct Hfr as (Hpre & _ & _);
    [etrans; [done|by apply prefix_app_r]|intros; eapply Hv; [by right|done]|done|].
  apply IH in Hall as (Hs & Hb);
    [|etrans; [done|by apply prefix_app_r]|intros; eapply Hv; [by right|done]].
  unfold ret. intros [= <- <-]. apply prefix_length in Hpre.
  rewrite length_app in *. split.
  - constructor; [done|]. eapply Forall_impl; [done|]. simpl. lia.
  - constructor; [lia|]. eapply Forall_impl; [done|]. simpl. lia.
Qed.

(** X30.  The pieces [cobble] returns are objects allocated by the call,
    each after the one before it: their references are new, in increasing
    order and different from one another, so that what is written to a piece
    afterwards changes no other piece and no exon. *)
Theorem cobble_pieces_fresh `{HashOrder} (exons : list ref) (multiple : bool)
    (h h' : heap) (ps : list ref) :
  cobble exons multiple h = (h', Ok ps) →
  h `prefix_of` h' ∧ StronglySorted lt ps ∧ NoDup ps ∧
  Forall (λ p, (length h ≤ p < length h')%nat) ps.
Proof.
  intros [Hv Hrun]%cobble_Ok.
  destruct (cobble_loop_Ok_spans _ _ _ _ _ Hrun) as [sp Hsp].
  pose proof (cobble_loop_frame
                (merge_sort event_le (events (start_of h) (end_of h) exons))
                [] h h (reflexivity _)) as Hpre.
  rewrite Hrun in Hpre. simpl in Hpre.
  rewrite (cobble_loop_spans _ _ sp) in Hrun by done.
  apply (emit_all_sorted sp h) in Hrun as [Hs Hb]; [|done|].
  2:{ intros s r Hs Hr. apply lookup_lt_is_Some.
      destruct (spans_active _ _ _ Hsp s r Hs Hr) as [Hnil|(a & Ha & ->)];
        [by inv Hnil|].
      apply elem_of_sorted_events in Ha as (r' & Hr' & [->| ->]); by apply Hv. }
  split; [done|]. split; [done|]. split; [|done].
  clear -Hs. induction Hs as [|p ps Hs IH Hp]; constructor; [|done].
  intros Hin. rewrite Forall_forall in Hp. specialize (Hp p Hin). lia.
Qed.

Lemma cobble_pieces_fresh_witness :
  scenario_A `prefix_of` scenario_A_cobbled ∧
  StronglySorted lt [2%nat; 3%nat; 4%nat] ∧ NoDup [2%nat; 3%nat; 4%nat] ∧
  Forall (λ p, (length scenario_A ≤ p < length scenario_A_cobbled)%nat)
    [2%nat; 3%nat; 4%nat].
Proof.
  apply (@cobble_pieces_fresh insertion_order [0%nat; 1%nat] false).
  exact scenario_A_cobble.
Defined.
